(** * pyxmpp cache and stream language negotiation: a shallow embedding

    The development follows [pyxmpp/cache.py] ([CacheItem], [CacheFetcher],
    [Cache]) and the language negotiation loop of
    [StreamBase.stream_start] in [pyxmpp/streambase.py].

    Python objects live in an object store and are referred to by their
    index, so that the aliasing between [Cache._items] and
    [Cache._items_list] is kept.  Every method is a computation in a state
    and exception monad over the store; [datetime.utcnow()] reads a clock
    that is part of the state. *)

From stdpp Require Import gmap strings list sorting.
From Stdlib Require Import ZArith Lia Ascii.

Local Open Scope string_scope.
Local Open Scope Z_scope.
Local Open Scope list_scope.

(** ** Time

    A [datetime] is the number of microseconds since [datetime.min], a
    [timedelta] a number of microseconds. *)

Abbreviation datetime := Z (only parsing).
Abbreviation timedelta := Z (only parsing).

Definition datetime_min : datetime := 0.
(** [datetime.max] is 9999-12-31 23:59:59.999999. *)
Definition datetime_max : datetime := 3652059 * 86400 * 1000000 - 1.

(** ** Exceptions *)

Inductive exn : Type :=
| KeyError (key : string)
| TypeError (msg : string)
| AttributeError (msg : string)
| RuntimeError (msg : string)
| OverflowError (msg : string)
| IndexError (msg : string)
| DanglingReference (oid : nat).

(** ** Objects *)

Abbreviation addr := string (only parsing).
Abbreviation payload := string (only parsing).
Abbreviation item_id := nat (only parsing).
Abbreviation fetcher_id := nat (only parsing).

(** [_state_values]: the module-level dictionary; a missing key is [None]
    (a [KeyError] where it is subscripted). *)
Definition _state_values (k : string) : option Z :=
  if String.eqb k "new" then Some 0
  else if String.eqb k "fresh" then Some 1
  else if String.eqb k "old" then Some 2
  else if String.eqb k "stale" then Some 3
  else if String.eqb k "purged" then Some 3
  else None.

(** A callable of the application, given to the cache as a handler.  It
    is known by a number.  What it does is not part of this module: called,
    it returns, or it raises an exception.  (A handler that calls methods
    of the cache from inside the call is not followed.) *)
Inductive callable : Type :=
| Handler (id : nat)
| RaisingHandler (id : nat) (e : exn).

Record CacheItem : Type := mkCacheItem {
  value : payload;
  address : addr;
  state : string;
  timestamp : datetime;
  freshness_time : datetime;
  expire_time : datetime;
  purge_time : datetime;
  state_value : Z
}.

(** A fetcher class: a subclass of [CacheFetcher] that implements
    [fetch], or [CacheFetcher] itself, whose [fetch] is the pure virtual
    method.  The [fetch] of a subclass starts a retrieval and returns,
    the result being reported later ([FetcherSubclass]); or it has the
    result at hand and reports it before it returns, with [got_it] or with
    [error]; or it raises. *)
Inductive fetcher_class : Type :=
| FetcherSubclass
| FetcherCallingGotIt (v : payload) (st : string)
| FetcherCallingError (error_data : option string)
| FetcherRaising (e : exn)
| CacheFetcherItself.

(** The error handler of a fetcher is either a callable of the application
    or the closure [request_object] defines when none is given, which
    captures the object handler. *)
Inductive error_callable : Type :=
| UserErrorHandler (h : callable)
| DefaultErrorHandler (object_handler : callable).

Record CacheFetcher : Type := mkCacheFetcher {
  fetcher_address : addr;
  _item_freshness_period : timedelta;
  _item_expiration_period : timedelta;
  _item_purge_period : timedelta;
  _object_handler : callable;
  _error_handler : error_callable;
  _timeout_handler : option callable;
  timeout_time : datetime;
  _backup_state : option string;
  active : bool;
  (** the class the instance was made from, see [fetch] *)
  fetcher_class_of : fetcher_class
}.

Record Cache : Type := mkCache {
  default_freshness_period : timedelta;
  default_expiration_period : timedelta;
  default_purge_period : timedelta;
  max_items : Z;
  _items : gmap addr item_id;
  _items_list : list item_id;
  (** [__init__] does not create the attribute [_fetcher] (it sets
      [_fetcher_class]); the outer [None] is the missing attribute, the
      inner one the value [None]. *)
  _fetcher : option (option fetcher_class);
  _active_fetchers : list (datetime * fetcher_id);
  _purged : Z
}.

(** What the application observes: calls of its handlers and of [fetch].
    [by_fetcher] tells which fetcher made the call ([None]: the cache). *)
Inductive event : Type :=
| ObjectHandlerCall (by_fetcher : option fetcher_id) (h : callable)
    (a : addr) (v : option payload) (st : string)
| ErrorHandlerCall (by_fetcher : fetcher_id) (h : callable)
    (a : addr) (error_data : option string)
| TimeoutHandlerCall (by_fetcher : fetcher_id) (h : callable) (a : addr)
| FetchCall (f : fetcher_id).

Record World : Type := mkWorld {
  clock : nat -> datetime;
  reads : nat;
  items_store : list CacheItem;
  fetchers_store : list CacheFetcher;
  cache : Cache;
  trace : list event
}.

(** ** The monad *)

Inductive result (A : Type) : Type :=
| Ok (a : A) (w : World)
| Raise (e : exn) (w : World).
Arguments Ok {A} a w.
Arguments Raise {A} e w.

Definition M (A : Type) : Type := World -> result A.

Definition ret {A} (a : A) : M A := fun w => Ok a w.
Definition raise {A} (e : exn) : M A := fun w => Raise e w.
Definition bind {A B} (k : A -> M B) (m : M A) : M B :=
  fun w => match m w with
           | Ok a w' => k a w'
           | Raise e w' => Raise e w'
           end.

#[global] Instance M_ret : MRet M := @ret.
#[global] Instance M_bind : MBind M := @bind.

Definition when (b : bool) (m : M unit) : M unit :=
  if b then m else ret tt.

Definition final_world {A} (r : result A) : World :=
  match r with Ok _ w => w | Raise _ w => w end.

(** State access. *)

Definition utcnow : M datetime :=
  fun w => Ok (clock w (reads w))
    (mkWorld (clock w) (S (reads w)) (items_store w) (fetchers_store w)
       (cache w) (trace w)).

Definition get_cache : M Cache := fun w => Ok (cache w) w.

Definition put_cache (c : Cache) : M unit :=
  fun w => Ok tt (mkWorld (clock w) (reads w) (items_store w)
                    (fetchers_store w) c (trace w)).

Definition emit (e : event) : M unit :=
  fun w => Ok tt (mkWorld (clock w) (reads w) (items_store w)
                    (fetchers_store w) (cache w) (trace w ++ [e])).

Definition read_item (i : item_id) : M CacheItem :=
  fun w => match items_store w !! i with
           | Some it => Ok it w
           | None => Raise (DanglingReference i) w
           end.

Definition write_item (i : item_id) (it : CacheItem) : M unit :=
  fun w => Ok tt (mkWorld (clock w) (reads w) (<[i:=it]> (items_store w))
                    (fetchers_store w) (cache w) (trace w)).

Definition new_item (it : CacheItem) : M item_id :=
  fun w => Ok (length (items_store w))
    (mkWorld (clock w) (reads w) (items_store w ++ [it])
       (fetchers_store w) (cache w) (trace w)).

Definition read_fetcher (f : fetcher_id) : M CacheFetcher :=
  fun w => match fetchers_store w !! f with
           | Some x => Ok x w
           | None => Raise (DanglingReference f) w
           end.

Definition write_fetcher (f : fetcher_id) (x : CacheFetcher) : M unit :=
  fun w => Ok tt (mkWorld (clock w) (reads w) (items_store w)
                    (<[f:=x]> (fetchers_store w)) (cache w) (trace w)).

Definition new_fetcher (x : CacheFetcher) : M fetcher_id :=
  fun w => Ok (length (fetchers_store w))
    (mkWorld (clock w) (reads w) (items_store w)
       (fetchers_store w ++ [x]) (cache w) (trace w)).

(** [datetime + timedelta]: Python raises [OverflowError] outside
    [datetime.min .. datetime.max]. *)
Definition datetime_add (t : datetime) (d : timedelta) : M datetime :=
  if (datetime_min <=? t + d) && (t + d <=? datetime_max)
  then ret (t + d)
  else raise (OverflowError "date value out of range").

Definition subscript_state_values (k : string) : M Z :=
  match _state_values k with
  | Some v => ret v
  | None => raise (KeyError k)
  end.

(** ** CacheItem *)

Definition set_state (it : CacheItem) (s : string) : CacheItem :=
  mkCacheItem (value it) (address it) s (timestamp it) (freshness_time it)
    (expire_time it) (purge_time it) (state_value it).

Definition set_state_value (it : CacheItem) (v : Z) : CacheItem :=
  mkCacheItem (value it) (address it) (state it) (timestamp it)
    (freshness_time it) (expire_time it) (purge_time it) v.

(** [CacheItem.__init__].  The two guards [return] a tuple; an [__init__]
    that returns anything but [None] makes the constructor call raise
    [TypeError]. *)
Definition CacheItem__init__ (a : addr) (v : payload)
    (freshness_period expiration_period purge_period : timedelta)
    (st : string) : M item_id :=
  if freshness_period >? expiration_period
  then raise (TypeError "__init__() should return None, not 'tuple'")
  else if expiration_period >? purge_period
  then raise (TypeError "__init__() should return None, not 'tuple'")
  else
    now ← utcnow;
    ft ← datetime_add now freshness_period;
    et ← datetime_add now expiration_period;
    pt ← (if negb (purge_period =? 0) then datetime_add now purge_period
           else ret datetime_max);
    sv ← subscript_state_values st;
    new_item (mkCacheItem v a st now ft et pt sv).

(** The four [if] statements of [update_state], on the state name. *)
Definition advance_state (now : datetime) (it : CacheItem) : string :=
  let s := state it in
  let s := if String.eqb s "new" then "fresh" else s in
  let s := if String.eqb s "fresh"
           then (if now >? freshness_time it then "old" else s) else s in
  let s := if String.eqb s "old"
           then (if now >? expire_time it then "stale" else s) else s in
  let s := if String.eqb s "stale"
           then (if now >? purge_time it then "purged" else s) else s in
  s.

Definition update_state (i : item_id) : M string :=
  now ← utcnow;
  it ← read_item i;
  let it := set_state it (advance_state now it) in
  write_item i it;;
  sv ← subscript_state_values (state it);
  write_item i (set_state_value it sv);;
  ret (state it).

(** [CacheItem.__cmp__]: the key [(-state_value, timestamp, id(self))],
    compared as tuples.  The identity of an object is its index in the
    store. *)
Definition item_key (store : list CacheItem) (i : item_id) : Z * Z * Z :=
  match store !! i with
  | Some it => (- state_value it, timestamp it, Z.of_nat i)
  | None => (0, 0, Z.of_nat i)
  end.

Definition tuple_leb (k1 k2 : Z * Z * Z) : bool :=
  let '(a1, b1, c1) := k1 in
  let '(a2, b2, c2) := k2 in
  (a1 <? a2) || ((a1 =? a2) && ((b1 <? b2) || ((b1 =? b2) && (c1 <=? c2)))).

Definition item_le (store : list CacheItem) (i j : item_id) : Prop :=
  Is_true (tuple_leb (item_key store i) (item_key store j)).

#[global] Instance item_le_dec store i j : Decision (item_le store i j).
Proof. unfold item_le. apply _. Defined.

(** The entries of [_active_fetchers] are tuples [(timeout_time, fetcher)];
    fetchers are ordered by identity. *)
Definition entry_le (e1 e2 : datetime * fetcher_id) : Prop :=
  Is_true ((e1.1 <? e2.1) || ((e1.1 =? e2.1) && (e1.2 <=? e2.2)%nat)).

#[global] Instance entry_le_dec e1 e2 : Decision (entry_le e1 e2).
Proof. unfold entry_le. apply _. Defined.

(** ** Cache *)

Definition set_items (c : Cache) (m : gmap addr item_id) : Cache :=
  mkCache (default_freshness_period c) (default_expiration_period c)
    (default_purge_period c) (max_items c) m (_items_list c) (_fetcher c)
    (_active_fetchers c) (_purged c).

Definition set_items_list (c : Cache) (l : list item_id) : Cache :=
  mkCache (default_freshness_period c) (default_expiration_period c)
    (default_purge_period c) (max_items c) (_items c) l (_fetcher c)
    (_active_fetchers c) (_purged c).

Definition set_fetcher_attr (c : Cache) (f : option (option fetcher_class))
    : Cache :=
  mkCache (default_freshness_period c) (default_expiration_period c)
    (default_purge_period c) (max_items c) (_items c) (_items_list c) f
    (_active_fetchers c) (_purged c).

Definition set_active_fetchers (c : Cache)
    (l : list (datetime * fetcher_id)) : Cache :=
  mkCache (default_freshness_period c) (default_expiration_period c)
    (default_purge_period c) (max_items c) (_items c) (_items_list c)
    (_fetcher c) l (_purged c).

Definition set_purged (c : Cache) (n : Z) : Cache :=
  mkCache (default_freshness_period c) (default_expiration_period c)
    (default_purge_period c) (max_items c) (_items c) (_items_list c)
    (_fetcher c) (_active_fetchers c) n.

(** [Cache.__init__]; the defaults of the periods are 1, 12 and 24 hours. *)
Definition _hour : timedelta := 3600 * 1000000.

Definition Cache__init__ (max_items : Z)
    (default_freshness_period default_expiration_period
       default_purge_period : timedelta) : Cache :=
  mkCache default_freshness_period default_expiration_period
    default_purge_period max_items ∅ [] None [] 0.

(** [self._items_list.sort()] *)
Definition sort_items_list : M unit :=
  fun w =>
    put_cache
      (set_items_list (cache w)
         (merge_sort (item_le (items_store w)) (_items_list (cache w)))) w.

(** [il.pop(0)] followed by [del self._items[item.address]] with the
    [KeyError] passed over. *)
Definition pop_head (i : item_id) (il : list item_id) : M unit :=
  c ← get_cache;
  put_cache (set_items_list c il);;
  it ← read_item i;
  c ← get_cache;
  put_cache (set_items c (delete (address it) (_items c))).

(** The [for i in range(need_remove)] loop of [purge_items]. *)
Fixpoint purge_overlimit (need_remove : nat) : M unit :=
  match need_remove with
  | O => ret tt
  | S n =>
      c ← get_cache;
      match _items_list c with
      | [] => raise (IndexError "pop from empty list")
      | i :: il => pop_head i il;; purge_overlimit n
      end
  end.

(** The [while il and il[0].update_state()=="purged"] loop; [il] is the
    list [self._items_list] itself. *)
Fixpoint purge_purged (il : list item_id) : M unit :=
  match il with
  | [] => ret tt
  | i :: il' =>
      st ← update_state i;
      if String.eqb st "purged"
      then pop_head i il';; purge_purged il'
      else ret tt
  end.

(** [int(0.75 * self.max_items)]: [int] truncates towards zero. *)
Definition three_quarters (n : Z) : Z := Z.quot (3 * n) 4.

Definition purge_items : M unit :=
  c ← get_cache;
  let num_items := Z.of_nat (length (_items_list c)) in
  let need_remove := num_items - three_quarters (max_items c) in
  purge_overlimit (Z.to_nat need_remove);;
  c ← get_cache;
  purge_purged (_items_list c).

Definition update_item (i : item_id) : M string :=
  st ← update_state i;
  sort_items_list;;
  it ← read_item i;
  (if String.eqb (state it) "purged"
   then
     c ← get_cache;
     put_cache (set_purged c (_purged c + 1));;
     c ← get_cache;
     (* self._purged > 0.25*self.max_items *)
     when (4 * _purged c >? max_items c) purge_items
   else ret tt);;
  ret st.

Definition get_item (a : addr) (st : string) : M (option item_id) :=
  c ← get_cache;
  match _items c !! a with
  | None => ret None
  | Some i =>
      new_state ← update_item i;
      v ← subscript_state_values st;
      it ← read_item i;
      if v >=? state_value it then ret (Some i) else ret None
  end.

(** [item.state = state] *)
Definition assign_state (i : item_id) (st : string) : M unit :=
  it ← read_item i;
  write_item i (set_state it st).

Definition invalidate_object (a : addr) (st : string) : M unit :=
  item ← get_item a "fresh";
  match item with
  | None => ret tt
  | Some i =>
      it ← read_item i;
      v ← subscript_state_values st;
      if state_value it <? v
      then
        assign_state i st;;
        update_state i;;
        sort_items_list
      else ret tt
  end.

(** [self._items[item.address] = item] and
    [self._items_list.append(item)] *)
Definition store_item (i : item_id) : M unit :=
  it ← read_item i;
  c ← get_cache;
  put_cache (set_items c (<[address it := i]> (_items c)));;
  c ← get_cache;
  put_cache (set_items_list c (_items_list c ++ [i])).

(** [if len(self._items_list) >= self.max_items: self.purge_items()] *)
Definition make_room : M unit :=
  c ← get_cache;
  when (Z.of_nat (length (_items_list c)) >=? max_items c) purge_items.

Definition add_item (i : item_id) : M string :=
  st ← update_state i;
  (if negb (String.eqb st "purged")
   then
     make_room;;
     store_item i;;
     sort_items_list
   else ret tt);;
  it ← read_item i;
  ret (state it).

Definition num_items : M nat :=
  c ← get_cache; ret (length (_items_list c)).

Definition set_fetcher (fc : option fetcher_class) : M unit :=
  c ← get_cache; put_cache (set_fetcher_attr c (Some fc)).

(** ** CacheFetcher *)

Definition set_active (x : CacheFetcher) (b : bool) : CacheFetcher :=
  mkCacheFetcher (fetcher_address x) (_item_freshness_period x)
    (_item_expiration_period x) (_item_purge_period x) (_object_handler x)
    (_error_handler x) (_timeout_handler x) (timeout_time x)
    (_backup_state x) b (fetcher_class_of x).

(** Python truth values of the optional arguments: a [timedelta] is false
    when it is zero, a string when it is empty, [None] always. *)
Definition truthy_period (d : option timedelta) : bool :=
  match d with Some d => negb (d =? 0) | None => false end.

Definition truthy_str (s : option string) : bool :=
  match s with Some s => negb (String.eqb s "") | None => false end.

Definition CacheFetcher__init__ (cls : fetcher_class) (a : addr)
    (item_freshness_period item_expiration_period
       item_purge_period : timedelta)
    (object_handler : callable) (error_handler : error_callable)
    (timeout_handler : option callable) (timeout_period : option timedelta)
    (backup_state : option string) : M fetcher_id :=
  deadline ← (if truthy_period timeout_period
              then now ← utcnow; datetime_add now (default 0 timeout_period)
              else ret datetime_max);
  new_fetcher
    (mkCacheFetcher a item_freshness_period item_expiration_period
       item_purge_period object_handler error_handler timeout_handler
       deadline backup_state true cls).

Definition _deactivated (f : fetcher_id) : M unit :=
  x ← read_fetcher f;
  write_fetcher f (set_active x false).

(** [list.remove(x)]: the first element equal to [x] goes. *)
Fixpoint list_remove (e : datetime * fetcher_id)
    (l : list (datetime * fetcher_id)) : list (datetime * fetcher_id) :=
  match l with
  | [] => []
  | e' :: l' => if decide (e' = e) then l' else e' :: list_remove e l'
  end.

(** The loop of [remove_fetcher] over a copy of the list. *)
Fixpoint remove_fetcher_loop (fetcher : fetcher_id)
    (snapshot : list (datetime * fetcher_id)) : M unit :=
  match snapshot with
  | [] => ret tt
  | (t, f) :: rest =>
      if decide (f = fetcher)
      then
        c ← get_cache;
        put_cache
          (set_active_fetchers c (list_remove (t, f) (_active_fetchers c)));;
        _deactivated f
      else remove_fetcher_loop fetcher rest
  end.

Definition remove_fetcher (fetcher : fetcher_id) : M unit :=
  c ← get_cache;
  remove_fetcher_loop fetcher (_active_fetchers c).

Definition _deactivate (f : fetcher_id) : M unit :=
  remove_fetcher f;;
  x ← read_fetcher f;
  when (active x) (_deactivated f).

(** A call of the callable [h] of the application, recorded as the
    event [e]: the callable returns or raises. *)
Definition call (h : callable) (e : event) : M unit :=
  emit e;;
  match h with
  | Handler _ => ret tt
  | RaisingHandler _ ex => raise ex
  end.

(** [handler(item.address, item.value, item.state)] *)
Definition call_object_handler (by_fetcher : option fetcher_id)
    (h : callable) (i : item_id) : M unit :=
  it ← read_item i;
  call h (ObjectHandlerCall by_fetcher h (address it) (Some (value it))
            (state it)).

(** [self._error_handler(address, data)]; the closure of [request_object]
    returns what the object handler returns and raises what it raises. *)
Definition call_error_handler (f : fetcher_id) (h : error_callable)
    (a : addr) (data : option string) : M unit :=
  match h with
  | UserErrorHandler h => call h (ErrorHandlerCall f h a data)
  | DefaultErrorHandler object_handler =>
      call object_handler
        (ObjectHandlerCall (Some f) object_handler a None "error")
  end.

Definition got_it (f : fetcher_id) (v : payload) (st : string) : M unit :=
  x ← read_fetcher f;
  if negb (active x) then ret tt
  else
    item ← CacheItem__init__ (fetcher_address x) v
              (_item_freshness_period x) (_item_expiration_period x)
              (_item_purge_period x) st;
    call_object_handler (Some f) (_object_handler x) item;;
    add_item item;;
    _deactivate f.

(** The last branch of [_try_backup_item] evaluates [False] without
    returning it: the method returns [None], which is false as well. *)
Definition _try_backup_item (f : fetcher_id) : M bool :=
  x ← read_fetcher f;
  if negb (truthy_str (_backup_state x)) then ret false
  else
    item ← get_item (fetcher_address x) (default "" (_backup_state x));
    match item with
    | Some i => call_object_handler (Some f) (_object_handler x) i;; ret true
    | None => ret false
    end.

Definition error (f : fetcher_id) (error_data : option string) : M unit :=
  x ← read_fetcher f;
  if negb (active x) then ret tt
  else
    found ← _try_backup_item f;
    when (negb found)
      (call_error_handler f (_error_handler x) (fetcher_address x)
         error_data);;
    invalidate_object (fetcher_address x) "stale";;
    _deactivate f.

Definition timeout (f : fetcher_id) : M unit :=
  x ← read_fetcher f;
  if negb (active x) then ret tt
  else
    found ← _try_backup_item f;
    when (negb found)
      (match _timeout_handler x with
       | Some h => call h (TimeoutHandlerCall f h (fetcher_address x))
       | None =>
           call_error_handler f (_error_handler x) (fetcher_address x) None
       end);;
    invalidate_object (fetcher_address x) "stale";;
    _deactivate f.

(** [fetch]: pure virtual in [CacheFetcher]; what the [fetch] of a
    subclass does is not part of this module: the call is recorded, and
    the method does what its class says. *)
Definition fetch (f : fetcher_id) : M unit :=
  x ← read_fetcher f;
  match fetcher_class_of x with
  | FetcherSubclass => emit (FetchCall f)
  | FetcherCallingGotIt v st => emit (FetchCall f);; got_it f v st
  | FetcherCallingError error_data => emit (FetchCall f);; error f error_data
  | FetcherRaising e => emit (FetchCall f);; raise e
  | CacheFetcherItself => raise (RuntimeError "Pure virtual method called")
  end.

(** ** Cache, continued *)

Definition request_object (a : addr) (st : string)
    (object_handler : callable) (error_handler : option callable)
    (timeout_handler : option callable) (backup_state : option string)
    (timeout_period : option timedelta)
    (freshness_period expiration_period purge_period : option timedelta)
    : M unit :=
  item ← get_item a st;
  match item with
  | Some i => call_object_handler None object_handler i
  | None => ret tt
  end;;
  c ← get_cache;
  match _fetcher c with
  | None => raise (AttributeError "Cache instance has no attribute '_fetcher'")
  | Some None => raise (TypeError "No cache fetcher defined")
  | Some (Some cls) =>
      let error_handler :=
        match error_handler with
        | Some h => UserErrorHandler h
        | None => DefaultErrorHandler object_handler
        end in
      let freshness_period :=
        default (default_freshness_period c) freshness_period in
      let expiration_period :=
        default (default_expiration_period c) expiration_period in
      let purge_period := default (default_purge_period c) purge_period in
      fetcher ← CacheFetcher__init__ cls a freshness_period
                  expiration_period purge_period object_handler
                  error_handler timeout_handler timeout_period backup_state;
      fetch fetcher;;
      x ← read_fetcher fetcher;
      c ← get_cache;
      put_cache
        (set_active_fetchers c
           (_active_fetchers c ++ [(timeout_time x, fetcher)]));;
      c ← get_cache;
      put_cache
        (set_active_fetchers c (merge_sort entry_le (_active_fetchers c)))
  end.

(** The loop of [tick] over a copy of [_active_fetchers]. *)
Fixpoint tick_loop (now : datetime)
    (snapshot : list (datetime * fetcher_id)) : M unit :=
  match snapshot with
  | [] => ret tt
  | (t, f) :: rest =>
      if t >? now then ret tt
      else timeout f;; tick_loop now rest
  end.

Definition tick : M unit :=
  now ← utcnow;
  c ← get_cache;
  tick_loop now (_active_fetchers c);;
  purge_items.

(** ** Language negotiation in [StreamBase.stream_start]

    Regular expressions as far as [LANG_SPLIT_RE] needs them, matched the
    way [re.match] does: anchored at the start, greedy, backtracking, the
    first success wins. *)

Inductive char_class : Type :=
| AnyChar            (* [.]: anything but a newline *)
| Literal (c : ascii)
| AlnumClass.        (* [[a-zA-Z0-9]] *)

Definition in_range (lo hi c : ascii) : bool :=
  ((nat_of_ascii lo <=? nat_of_ascii c)%nat
   && (nat_of_ascii c <=? nat_of_ascii hi)%nat)%bool.

Definition newline : ascii := ascii_of_nat 10.

Definition class_matches (cl : char_class) (c : ascii) : bool :=
  match cl with
  | AnyChar => negb (Ascii.eqb c newline)
  | Literal c' => Ascii.eqb c c'
  | AlnumClass =>
      (in_range "a" "z" c || in_range "A" "Z" c || in_range "0" "9" c)%char
  end.

Inductive regex : Type :=
| Chr (cl : char_class)
| Star (cl : char_class)
| Plus (cl : char_class)
| Opt (r : regex)
| Seq (r1 r2 : regex)
| Group (r : regex)      (* the capturing group 1 *)
| EndOfString.           (* [$] *)

(** While matching: the text not yet consumed and the text of group 1. *)
Record match_state : Type := mkMatchState {
  rest : string;
  captured : option string
}.

(** Greedy [cl*]: take one more character first, fall back to the
    continuation. *)
Fixpoint match_star {X} (cl : char_class) (s : string)
    (k : string -> option X) : option X :=
  match s with
  | String c s' =>
      if class_matches cl c
      then match match_star cl s' k with
           | Some x => Some x
           | None => k s
           end
      else k s
  | EmptyString => k s
  end.

Definition consumed (before after : string) : string :=
  String.substring 0 (String.length before - String.length after) before.

Fixpoint match_regex {X} (r : regex) (st : match_state)
    (k : match_state -> option X) : option X :=
  match r with
  | Chr cl =>
      match rest st with
      | String c s' =>
          if class_matches cl c then k (mkMatchState s' (captured st))
          else None
      | EmptyString => None
      end
  | Star cl =>
      match_star cl (rest st) (fun s' => k (mkMatchState s' (captured st)))
  | Plus cl =>
      match rest st with
      | String c s' =>
          if class_matches cl c
          then match_star cl s' (fun s'' => k (mkMatchState s'' (captured st)))
          else None
      | EmptyString => None
      end
  | Opt r' =>
      match match_regex r' st k with
      | Some x => Some x
      | None => k st
      end
  | Seq r1 r2 => match_regex r1 st (fun st' => match_regex r2 st' k)
  | Group r' =>
      match_regex r' st
        (fun st' =>
           k (mkMatchState (rest st') (Some (consumed (rest st) (rest st')))))
  | EndOfString =>
      (* without MULTILINE: at the end, or before a final newline *)
      if String.eqb (rest st) "" || String.eqb (rest st) (String newline "")
      then k st else None
  end.

(** A match object: [group(0)] is the whole matched text. *)
Record match_object : Type := mkMatch {
  group0 : string;
  group1 : option string
}.

Definition re_match (r : regex) (s : string) : option match_object :=
  match_regex r (mkMatchState s None)
    (fun st => Some (mkMatch (consumed s (rest st)) (captured st))).

(** [LANG_SPLIT_RE]: group 1 is [.] repeated greedily; then comes an
    optional non-capturing hyphen and one alphanumeric character, then a
    hyphen, one or more alphanumeric characters and the end of the
    string. *)
Definition LANG_SPLIT_RE : regex :=
  Seq (Group (Star AnyChar))
    (Seq (Opt (Seq (Chr (Literal "-"%char)) (Chr AlnumClass)))
       (Seq (Chr (Literal "-"%char)) (Seq (Plus AlnumClass) EndOfString))).

(** The outcome of running the [while peer_lang:] loop for a number of
    iterations. *)
Inductive loop_outcome : Type :=
| Finished (lang : option string)
| StillRunning (peer_lang : string).

(** The loop of the receiver side; [languages] is
    [self.settings["languages"]], [fuel] bounds the iterations run. *)
Fixpoint negotiate_language (fuel : nat) (languages : list string)
    (peer_lang : option string) (lang : option string) : loop_outcome :=
  match peer_lang with
  | None => Finished lang
  | Some p =>
      if String.eqb p "" then Finished lang
      else
        match fuel with
        | O => StillRunning p
        | S fuel' =>
            if bool_decide (p ∈ languages) then Finished (Some p)
            else
              match re_match LANG_SPLIT_RE p with
              | None => Finished lang
              | Some m =>
                  negotiate_language fuel' languages (Some (group0 m)) lang
              end
        end
  end.

(** ** The protocol version in [StreamBase.stream_start] *)

(** [version.split(".", 1)]: the text before the first dot, and the text
    after it when there is a dot. *)
Fixpoint split_at_dot (s : string) : string * option string :=
  match s with
  | EmptyString => ("", None)
  | String c s' =>
      if Ascii.eqb c "."%char then ("", Some s')
      else let '(a, b) := split_at_dot s' in (String c a, b)
  end.

(** After the version check the stream has a version, or the error
    [unsupported-version] has been sent and [FatalStreamError] raised. *)
Inductive version_outcome : Type :=
| VersionAccepted (major minor : Z)
| UnsupportedVersion.

Section Version.

(** The builtin [int] on a string; [None] stands for its
    [ValueError]. *)
Variable int : string -> option Z.

(** The [try] block: unpacking the result of [split] into two names
    raises [ValueError] when there is no dot. *)
Definition parse_version (version : string) : option (Z * Z) :=
  match split_at_dot version with
  | (major, Some minor) =>
      match int major, int minor with
      | Some major, Some minor => Some (major, minor)
      | _, _ => None
      end
  | (_, None) => None
  end.

(** [version] is the attribute of the stream element, [None] when it
    is missing; a missing and an empty attribute are both false. *)
Definition check_version (version : option string) : version_outcome :=
  let parsed :=
    match version with
    | Some v => if String.eqb v "" then Some (0, 9) else parse_version v
    | None => Some (0, 9)
    end in
  match parsed with
  | None => UnsupportedVersion
  | Some (major, minor) =>
      (* self.version[0] != 1 and self.version != (0, 9) *)
      if negb (major =? 1) && negb ((major =? 0) && (minor =? 9))
      then UnsupportedVersion
      else VersionAccepted major minor
  end.

End Version.

(** ** Stream features: the loop of [StreamBase._got_features] *)

(** What a call of [handle_stream_features] returns. *)
Inductive handler_return : Type :=
| ReturnsNone
| ReturnsHandled (feature_name : string) (mandatory : bool)
| ReturnsNotHandled (feature_name : string) (mandatory : bool)
| ReturnsOther.   (* any other value, as the [False] of the base class *)

(** How the loop over the handlers ends; [called] counts the handlers
    that have been called. *)
Inductive features_loop_end : Type :=
| LoopDone (called : nat)
    (mandatory_handled mandatory_not_handled : list string)
| LoopValueError (called : nat).

(** The loop; [rets] is what the handlers return, in the order of
    [self._stream_feature_handlers]. *)
Fixpoint features_loop (rets : list handler_return) (called : nat)
    (mandatory_handled mandatory_not_handled : list string)
    : features_loop_end :=
  match rets with
  | [] => LoopDone called mandatory_handled mandatory_not_handled
  | ret :: rest =>
      match ret with
      | ReturnsNone =>
          features_loop rest (S called) mandatory_handled
            mandatory_not_handled
      | ReturnsHandled name mandatory =>
          if mandatory
          then LoopDone (S called) (mandatory_handled ++ [name])
                 mandatory_not_handled
          else LoopDone (S called) mandatory_handled mandatory_not_handled
      | ReturnsNotHandled name mandatory =>
          if mandatory
          then LoopDone (S called) mandatory_handled
                 (mandatory_not_handled ++ [name])
          else features_loop rest (S called) mandatory_handled
                 mandatory_not_handled
      | ReturnsOther => LoopValueError (S called)
      end
  end.

(** [" ".join(names)] *)
Fixpoint join_space (names : list string) : string :=
  match names with
  | [] => ""
  | [n] => n
  | n :: rest => (n ++ " " ++ join_space rest)%string
  end.

Inductive got_features_outcome : Type :=
| FeaturesReturn (called : nat)
| FeaturesValueError (called : nat)
(** after [send_stream_error("unsupported-feature")] *)
| FeaturesFatalStreamError (called : nat) (msg : string).

(** [_got_features]; [handled] is what the event handlers returned for
    the [GotFeaturesEvent]. *)
Definition _got_features (handled : bool) (rets : list handler_return)
    : got_features_outcome :=
  if handled then FeaturesReturn 0
  else
    match features_loop rets 0 [] [] with
    | LoopValueError called => FeaturesValueError called
    | LoopDone called mandatory_handled mandatory_not_handled =>
        match mandatory_not_handled, mandatory_handled with
        | _ :: _, [] =>
            FeaturesFatalStreamError called
              ("Unsupported mandatory-to-implement features: "
               ++ join_space mandatory_not_handled)
        | _, _ => FeaturesReturn called
        end
    end.

(** A return value that ends the loop. *)
Definition decisive (ret : handler_return) : bool :=
  match ret with
  | ReturnsNone | ReturnsNotHandled _ false => false
  | _ => true
  end.

(** The text has no dot. *)
Fixpoint no_dot (s : string) : bool :=
  match s with
  | EmptyString => true
  | String c s' => negb (Ascii.eqb c "."%char) && no_dot s'
  end.

(** ** Notions the statements use *)

(** One step of the chain New, Fresh, Old, Stale, Purged that is due at
    time [now]: the first step is always due, the others once the deadline
    of the item has passed. *)
Inductive promotes (now : datetime) (it : CacheItem)
    : string -> string -> Prop :=
| promote_new : promotes now it "new" "fresh"
| promote_fresh :
    now > freshness_time it -> promotes now it "fresh" "old"
| promote_old : now > expire_time it -> promotes now it "old" "stale"
| promote_stale :
    now > purge_time it -> promotes now it "stale" "purged".

Definition chain_position (s : string) : option nat :=
  if String.eqb s "new" then Some 0%nat
  else if String.eqb s "fresh" then Some 1%nat
  else if String.eqb s "old" then Some 2%nat
  else if String.eqb s "stale" then Some 3%nat
  else if String.eqb s "purged" then Some 4%nat
  else None.

(** An item keeps everything but its state over its life. *)
Definition same_identity (it it' : CacheItem) : Prop :=
  address it' = address it /\ value it' = value it /\
  timestamp it' = timestamp it /\ freshness_time it' = freshness_time it /\
  expire_time it' = expire_time it /\ purge_time it' = purge_time it.

Definition valid_item (it : CacheItem) : Prop :=
  is_Some (_state_values (state it)).

(** [state_value] is the value of [state]. *)
Definition consistent (it : CacheItem) : Prop :=
  _state_values (state it) = Some (state_value it).

(** [s'] is not before [s] in the chain. *)
Definition chain_le (s s' : string) : Prop :=
  forall p, chain_position s = Some p ->
    exists p', chain_position s' = Some p' /\ (p <= p')%nat.

(** How an item changes: its state moves forward. *)
Definition item_evolves (it it' : CacheItem) : Prop :=
  same_identity it it' /\ chain_le (state it) (state it').

(** A fetcher keeps everything but [active], which is only ever cleared. *)
Definition same_fetcher (x x' : CacheFetcher) : Prop :=
  set_active x' true = set_active x true /\
  (active x' = true -> active x = true).

(** What a method may do to the world: objects are never freed and keep
    their identity, the configuration of the cache stays, the trace
    grows. *)
Record world_step (w w' : World) : Prop := mk_world_step {
  step_clock : clock w' = clock w;
  step_reads : (reads w <= reads w')%nat;
  step_max_items : max_items (cache w') = max_items (cache w);
  step_default_freshness :
    default_freshness_period (cache w') = default_freshness_period (cache w);
  step_default_expiration :
    default_expiration_period (cache w')
    = default_expiration_period (cache w);
  step_default_purge :
    default_purge_period (cache w') = default_purge_period (cache w);
  step_items :
    forall i it, items_store w !! i = Some it ->
      exists it', items_store w' !! i = Some it' /\ item_evolves it it';
  step_fetchers :
    forall f x, fetchers_store w !! f = Some x ->
      exists x', fetchers_store w' !! f = Some x' /\ same_fetcher x x';
  step_trace : trace w `prefix_of` trace w'
}.

(** The methods that only deal with items leave fetchers and trace alone. *)
Record item_step (w w' : World) : Prop := mk_item_step {
  item_world_step : world_step w w';
  item_step_fetchers : fetchers_store w' = fetchers_store w;
  item_step_trace : trace w' = trace w;
  item_step_active : _active_fetchers (cache w') = _active_fetchers (cache w);
  item_step_fetcher : _fetcher (cache w') = _fetcher (cache w)
}.

(** The invariant of the item side of a cache. *)
Record cache_inv (w : World) : Prop := mk_cache_inv {
  inv_valid : forall i it, items_store w !! i = Some it -> consistent it;
  inv_list :
    forall i, i ∈ _items_list (cache w) ->
      (i < length (items_store w))%nat;
  inv_map :
    forall a i, _items (cache w) !! a = Some i ->
      i ∈ _items_list (cache w) /\
      exists it, items_store w !! i = Some it /\ address it = a;
  inv_max : 1 <= max_items (cache w);
  inv_size : Z.of_nat (length (_items_list (cache w))) <= max_items (cache w)
}.

(** The outcome [r] of running an item method from [w]: the invariant
    holds again, the world made an item step, and an exception is one of
    [E]. *)
Definition good {A} (E : exn -> Prop) (w : World) (r : result A) : Prop :=
  cache_inv (final_world r) /\ item_step w (final_world r) /\
  match r with Ok _ _ => True | Raise e _ => E e end.

Definition no_exn : exn -> Prop := fun _ => False.

(** The invariant, as a test that can be run on a concrete world. *)
Definition cache_inv_b (w : World) : bool :=
  forallb (fun it => bool_decide (consistent it)) (items_store w)
  && forallb (fun i => bool_decide (i < length (items_store w))%nat)
       (_items_list (cache w))
  && forallb
       (fun ai : string * nat =>
          bool_decide (ai.2 ∈ _items_list (cache w))
          && bool_decide (address <$> items_store w !! ai.2 = Some ai.1))
       (map_to_list (_items (cache w)))
  && (1 <=? max_items (cache w))
  && (Z.of_nat (length (_items_list (cache w))) <=? max_items (cache w)).

(** The reading of [invalidate_object] under which every stored item
    whose [state_value] is below the value of the given state gets that
    state. *)
Definition invalidate_object_raises_every_lower_item : Prop :=
  forall w a st v i it,
    cache_inv w ->
    _items (cache w) !! a = Some i ->
    items_store w !! i = Some it ->
    _state_values st = Some v ->
    state_value it < v ->
    exists w' it',
      invalidate_object a st w = Ok tt w' /\
      items_store w' !! i = Some it' /\ state it' = st.

(** ** The fetcher side *)

(** The entries of [_active_fetchers] refer to active fetchers with the
    deadline recorded, the list is sorted and holds a fetcher once. *)
Record fetchers_inv (w : World) : Prop := mk_fetchers_inv {
  finv_entries :
    forall t f, (t, f) ∈ _active_fetchers (cache w) ->
      exists x, fetchers_store w !! f = Some x /\
        active x = true /\ timeout_time x = t;
  finv_sorted : StronglySorted entry_le (_active_fetchers (cache w));
  finv_nodup : NoDup (_active_fetchers (cache w)).*2
}.

(** The terminal callbacks of a fetcher: the calls of the object handler
    (from [got_it], from a backup item, or through the default error
    handler), of the error handler and of the timeout handler that the
    fetcher made. *)
Definition is_callback_by (f : fetcher_id) (e : event) : bool :=
  match e with
  | ObjectHandlerCall (Some g) _ _ _ _ => bool_decide (g = f)
  | ObjectHandlerCall None _ _ _ _ => false
  | ErrorHandlerCall g _ _ _ => bool_decide (g = f)
  | TimeoutHandlerCall g _ _ => bool_decide (g = f)
  | FetchCall _ => false
  end.

Definition callbacks_by (f : fetcher_id) (tr : list event) : nat :=
  length (filter (fun e => is_callback_by f e = true) tr).

(** How many more terminal callbacks a fetcher may make. *)
Definition callbacks_left (w : World) (f : fetcher_id) : nat :=
  match fetchers_store w !! f with
  | Some x => if active x then 1%nat else 0%nat
  | None => 1%nat
  end.

(** A fetcher which is active or not yet made has made no callback; no
    fetcher has made more than one. *)
Definition callbacks_inv (w : World) : Prop :=
  forall f, (callbacks_by f (trace w) + callbacks_left w f <= 1)%nat.

(** The invariant of a cache in orderly use: the invariant of the items,
    the listed fetchers are active, and an active fetcher has made no
    callback.  (It need not hold after a handler has raised or a [fetch]
    has reported its result before returning; [general_inv] is what
    holds then.) *)
Record world_inv (w : World) : Prop := mk_world_inv {
  winv_cache : cache_inv w;
  winv_fetchers : fetchers_inv w;
  winv_callbacks : callbacks_inv w
}.


(** ** The interface

    The calls an application and its fetcher classes can make on a cache,
    its items and its fetchers. *)
Inductive api_call : Type :=
| Call_CacheItem (a : addr) (v : payload)
    (freshness_period expiration_period purge_period : timedelta)
    (st : string)
| Call_request_object (a : addr) (st : string) (object_handler : callable)
    (error_handler timeout_handler : option callable)
    (backup_state : option string) (timeout_period : option timedelta)
    (freshness_period expiration_period purge_period : option timedelta)
| Call_invalidate_object (a : addr) (st : string)
| Call_add_item (i : item_id)
| Call_get_item (a : addr) (st : string)
| Call_update_item (i : item_id)
| Call_num_items
| Call_purge_items
| Call_tick
| Call_remove_fetcher (f : fetcher_id)
| Call_set_fetcher (fc : option fetcher_class)
| Call_got_it (f : fetcher_id) (v : payload) (st : string)
| Call_error (f : fetcher_id) (error_data : option string)
| Call_timeout (f : fetcher_id).

Definition discard {A} (m : M A) : M unit := m ≫= fun _ => ret tt.

Definition run_call (c : api_call) : M unit :=
  match c with
  | Call_CacheItem a v fp ep pp st =>
      discard (CacheItem__init__ a v fp ep pp st)
  | Call_request_object a st oh eh th bs tp fp ep pp =>
      request_object a st oh eh th bs tp fp ep pp
  | Call_invalidate_object a st => invalidate_object a st
  | Call_add_item i => discard (add_item i)
  | Call_get_item a st => discard (get_item a st)
  | Call_update_item i => discard (update_item i)
  | Call_num_items => discard num_items
  | Call_purge_items => purge_items
  | Call_tick => tick
  | Call_remove_fetcher f => remove_fetcher f
  | Call_set_fetcher fc => set_fetcher fc
  | Call_got_it f v st => got_it f v st
  | Call_error f d => error f d
  | Call_timeout f => timeout f
  end.

(** A call refers to objects that exist. *)
Definition call_ok (w : World) (c : api_call) : bool :=
  match c with
  | Call_add_item i | Call_update_item i =>
      bool_decide (i < length (items_store w))%nat
  | Call_remove_fetcher f | Call_got_it f _ _ | Call_error f _
  | Call_timeout f => bool_decide (f < length (fetchers_store w))%nat
  | _ => true
  end.

(** Calls in sequence; an exception ends a call, not the sequence, and a
    call on an object that does not exist cannot be made. *)
Fixpoint run_calls (cs : list api_call) (w : World) : World :=
  match cs with
  | [] => w
  | c :: cs' =>
      run_calls cs' (if call_ok w c then final_world (run_call c w) else w)
  end.

(** The world with a new cache and nothing else. *)
Definition initial_world (clk : nat -> datetime) (max_items : Z)
    (default_freshness_period default_expiration_period
       default_purge_period : timedelta) : World :=
  mkWorld clk 0 [] []
    (Cache__init__ max_items default_freshness_period
       default_expiration_period default_purge_period) [].

(** The entry the loop of [remove_fetcher] stops at. *)
Definition entry_of (f : fetcher_id) (l : list (Z * nat)) : option (Z * nat) :=
  List.find (fun e => bool_decide (e.2 = f)) l.

(** The list of active fetchers without the entry of [f]. *)
Definition without_fetcher (f : fetcher_id) (l : list (Z * nat))
    : list (Z * nat) :=
  match entry_of f l with
  | Some e => list_remove e l
  | None => l
  end.

(** The world once the fetcher [f], which is [x] in the store, has been
    taken off the list and marked inactive. *)
Definition deactivated_world (f : fetcher_id) (x : CacheFetcher)
    (w : World) : World :=
  mkWorld (clock w) (reads w) (items_store w)
    (<[f := set_active x false]> (fetchers_store w))
    (set_active_fetchers (cache w)
       (without_fetcher f (_active_fetchers (cache w))))
    (trace w).

(** What a terminal method that returned has done to its fetcher [f],
    which was [x]: the fetcher is inactive and off the list, and one
    event, a callback of [f] that satisfies [P], has been added to the
    trace. *)
Definition finished (P : event -> Prop) (f : fetcher_id) (x : CacheFetcher)
    (w w' : World) : Prop :=
  fetchers_store w' = <[f := set_active x false]> (fetchers_store w) /\
  _active_fetchers (cache w')
    = without_fetcher f (_active_fetchers (cache w)) /\
  exists e, trace w' = (trace w ++ [e])%list /\
    is_callback_by f e = true /\ P e.

(** The world after one more reading of the clock. *)
Definition clock_read (w : World) : World :=
  mkWorld (clock w) (S (reads w)) (items_store w) (fetchers_store w)
    (cache w) (trace w).


(** The call of the error handler [h] of the fetcher [f], as an event. *)
Definition error_event (f : fetcher_id) (h : error_callable) (a : addr)
    (data : option string) : event :=
  match h with
  | UserErrorHandler h => ErrorHandlerCall f h a data
  | DefaultErrorHandler object_handler =>
      ObjectHandlerCall (Some f) object_handler a None "error"
  end.

(** The event by which [timeout] tells the application. *)
Definition timeout_event (f : fetcher_id) (x : CacheFetcher) : event :=
  match _timeout_handler x with
  | Some h => TimeoutHandlerCall f h (fetcher_address x)
  | None => error_event f (_error_handler x) (fetcher_address x) None
  end.

(** The delivery of the item [it] to the object handler of [x]. *)
Definition backup_event (f : fetcher_id) (x : CacheFetcher)
    (it : CacheItem) : event :=
  ObjectHandlerCall (Some f) (_object_handler x) (address it)
    (Some (value it)) (state it).

(** The one event of each terminal method. *)
Definition got_it_event (f : fetcher_id) (x : CacheFetcher) (v : payload)
    (st : string) (e : event) : Prop :=
  e = ObjectHandlerCall (Some f) (_object_handler x) (fetcher_address x)
        (Some v) st.

Definition is_backup_event (f : fetcher_id) (x : CacheFetcher) (e : event)
    : Prop :=
  truthy_str (_backup_state x) = true /\
  exists it, e = backup_event f x it.

Definition error_outcome_event (f : fetcher_id) (x : CacheFetcher)
    (d : option string) (e : event) : Prop :=
  e = error_event f (_error_handler x) (fetcher_address x) d \/
  is_backup_event f x e.

Definition timeout_outcome_event (f : fetcher_id) (x : CacheFetcher)
    (e : event) : Prop :=
  e = timeout_event f x \/ is_backup_event f x e.

(** The world after [emit e]. *)
Definition emitted (e : event) (w : World) : World :=
  mkWorld (clock w) (reads w) (items_store w) (fetchers_store w) (cache w)
    (trace w ++ [e]).

(** ** request_object, step by step *)

(** After the lookup: the item found, if any, has been handed to the
    object handler. *)
Definition hit_world (object_handler : callable) (item : option item_id)
    (w : World) : World :=
  match item with
  | Some i =>
      match items_store w !! i with
      | Some it =>
          emitted (ObjectHandlerCall None object_handler (address it)
                     (Some (value it)) (state it)) w
      | None => w
      end
  | None => w
  end.

(** The fetcher [request_object] makes at time [now] from the class [cls]
    registered in the cache [c]. *)
Definition requested_fetcher (c : Cache) (now : datetime)
    (a : addr) (object_handler : callable)
    (error_handler timeout_handler : option callable)
    (backup_state : option string) (timeout_period : option timedelta)
    (freshness_period expiration_period purge_period : option timedelta)
    (cls : fetcher_class) : CacheFetcher :=
  mkCacheFetcher a
    (default (default_freshness_period c) freshness_period)
    (default (default_expiration_period c) expiration_period)
    (default (default_purge_period c) purge_period)
    object_handler
    (match error_handler with
     | Some h => UserErrorHandler h
     | None => DefaultErrorHandler object_handler
     end)
    timeout_handler
    (if truthy_period timeout_period
     then now + default 0 timeout_period else datetime_max)
    backup_state true cls.

(** After [CacheFetcher.__init__]: the clock has been read when there is
    a timeout period, and the fetcher is in the store. *)
Definition fetcher_world (x : CacheFetcher)
    (timeout_period : option timedelta) (w : World) : World :=
  mkWorld (clock w)
    (if truthy_period timeout_period then S (reads w) else reads w)
    (items_store w) (fetchers_store w ++ [x]) (cache w) (trace w).

(** After the fetcher has been put on the list and the list sorted. *)
Definition listed_world (x : CacheFetcher) (f : fetcher_id) (w : World)
    : World :=
  mkWorld (clock w) (reads w) (items_store w) (fetchers_store w)
    (set_active_fetchers (cache w)
       (merge_sort entry_le
          (_active_fetchers (cache w) ++ [(timeout_time x, f)])))
    (trace w).

(** The deadline of the new fetcher can be computed. *)
Definition deadline_in_range (now : datetime)
    (timeout_period : option timedelta) : Prop :=
  truthy_period timeout_period = true ->
  datetime_min <= now + default 0 timeout_period <= datetime_max.


(** ** The invariants of the item side, as the specification words them *)

(** The keys of [_items] are the addresses of the items of
    [_items_list]. *)
Definition keys_are_listed_addresses (w : World) : Prop :=
  forall a,
    is_Some (_items (cache w) !! a) <->
    exists i it, i ∈ _items_list (cache w) /\
      items_store w !! i = Some it /\ address it = a.

(** The keys of [_items] are among the addresses of the items of
    [_items_list]: every key leads to a listed item with that address. *)
Definition keys_lead_to_listed_items (w : World) : Prop :=
  forall a i, _items (cache w) !! a = Some i ->
    i ∈ _items_list (cache w) /\
    exists it, items_store w !! i = Some it /\ address it = a.

Definition size_within_bound (w : World) : Prop :=
  Z.of_nat (length (_items_list (cache w))) <= max_items (cache w).

(** Both hold after every sequence of calls on a new cache. *)
Definition size_and_keys_always_hold : Prop :=
  forall clk m fp ep pp cs,
    1 <= m ->
    let w := run_calls cs (initial_world clk m fp ep pp) in
    size_within_bound w /\ keys_are_listed_addresses w.

(** ** The life of a fetcher, as the specification words it *)






(** ** What the application does

    The handlers and the [fetch] methods are code of the application.  A
    handler returns or raises; an application is orderly when its
    handlers return and its [fetch] methods report the result after they
    have returned, as the documentation of [CacheFetcher] has it. *)

Definition handler_exn (h : callable) : option exn :=
  match h with
  | Handler _ => None
  | RaisingHandler _ e => Some e
  end.

Definition returns (h : callable) : bool :=
  match h with
  | Handler _ => true
  | RaisingHandler _ _ => false
  end.

(** The callable behind the error handler of a fetcher. *)
Definition error_callable_handler (h : error_callable) : callable :=
  match h with
  | UserErrorHandler h => h
  | DefaultErrorHandler object_handler => object_handler
  end.

(** The callable [timeout] calls when there is no backup item: the
    timeout handler, or the error handler when there is none. *)
Definition timeout_callable (x : CacheFetcher) : callable :=
  match _timeout_handler x with
  | Some h => h
  | None => error_callable_handler (_error_handler x)
  end.

(** [h] is one of the handlers of the fetcher [x]. *)
Definition handler_of (x : CacheFetcher) (h : callable) : Prop :=
  h = _object_handler x \/
  h = error_callable_handler (_error_handler x) \/
  _timeout_handler x = Some h.



(** The callable an event is a call of. *)
Definition event_handler (e : event) : option callable :=
  match e with
  | ObjectHandlerCall _ h _ _ _ => Some h
  | ErrorHandlerCall _ h _ _ => Some h
  | TimeoutHandlerCall _ h _ => Some h
  | FetchCall _ => None
  end.

(** The outcome of the call of [h] recorded as [e]. *)
Definition called (h : callable) (e : event) (w : World) : result unit :=
  match handler_exn h with
  | None => Ok tt (emitted e w)
  | Some ex => Raise ex (emitted e w)
  end.

(** ** What holds whatever the application does *)

(** The entries of [_active_fetchers] refer to fetchers of the store with
    the deadline recorded, the list is sorted and holds a fetcher once.
    (A listed fetcher need not be active.) *)
Record listing_inv (w : World) : Prop := mk_listing_inv {
  linv_entries :
    forall t f, (t, f) ∈ _active_fetchers (cache w) ->
      exists x, fetchers_store w !! f = Some x /\ timeout_time x = t;
  linv_sorted : StronglySorted entry_le (_active_fetchers (cache w));
  linv_nodup : NoDup (_active_fetchers (cache w)).*2
}.

Record general_inv (w : World) : Prop := mk_general_inv {
  ginv_cache : cache_inv w;
  ginv_listing : listing_inv w
}.

(** What every method but [request_object] and [set_fetcher] does to the
    fetcher side: no fetcher is made, the attribute [_fetcher] stays, and
    entries may leave the list of active fetchers but none is added. *)
Record fetcher_step (w w' : World) : Prop := mk_fetcher_step {
  fstep_world : world_step w w';
  fstep_store : length (fetchers_store w') = length (fetchers_store w);
  fstep_fetcher : _fetcher (cache w') = _fetcher (cache w);
  fstep_listed :
    _active_fetchers (cache w') `sublist_of` _active_fetchers (cache w)
}.

(** The outcome [r] of a terminal method ([got_it], [error], [timeout])
    called on the active fetcher [f], which is [x], in the world [w],
    whatever its handlers do.  When the method returns, the fetcher is
    finished: it is inactive and off the list, and one event, a callback
    of [f] that satisfies [P], has been added to the trace.  When it
    raises, the fetcher is as it was, active and listed if it was listed:
    either nothing has been said to the application, or the callback has
    been made and the handler has raised the exception. *)
Definition terminal_result (P : event -> Prop) (f : fetcher_id)
    (x : CacheFetcher) (w : World) (r : result unit) : Prop :=
  cache_inv (final_world r) /\ fetcher_step w (final_world r) /\
  match r with
  | Ok _ w' => finished P f x w w'
  | Raise ex w' =>
      fetchers_store w' = fetchers_store w /\
      _active_fetchers (cache w') = _active_fetchers (cache w) /\
      (trace w' = trace w \/
       exists e h,
         trace w' = trace w ++ [e] /\ is_callback_by f e = true /\ P e /\
         event_handler e = Some h /\ handler_of x h /\
         handler_exn h = Some ex)
  end.

(** ** Orderly applications *)



(** The outcome [r] of a method run from [w]: the invariant of the item
    side holds and the world has made a fetcher step.  With the invariant
    of the list of fetchers, for the methods that make or register
    fetchers: [steady]. *)
Definition settled {A} (w : World) (r : result A) : Prop :=
  cache_inv (final_world r) /\ fetcher_step w (final_world r).

Definition steady {A} (w : World) (r : result A) : Prop :=
  general_inv (final_world r) /\ world_step w (final_world r).




(** ** CacheSuite

    A suite holds one [Cache] for each object class.  The caches are
    separate objects: each has its items and its fetchers, and the calls
    it makes to the handlers are recorded for each cache; the clock is
    the one clock of the program. *)

(** An object class: a class object of the program ([classobj]).  The
    suite uses it as a key of [_caches] and formats it with [%r]: the
    model keeps the name that tells the class from the others, and the
    text [repr] gives for it, which the interpreter makes up. *)
Record object_class : Type := mkObjectClass {
  class_name : string;
  class_repr : string
}.

#[global] Instance object_class_eq_dec : EqDecision object_class.
Proof. solve_decision. Defined.

#[global] Instance object_class_countable : Countable object_class.
Proof.
  apply (inj_countable' (fun c => (class_name c, class_repr c))
           (fun p => mkObjectClass p.1 p.2)).
  by intros [].
Defined.

(** What belongs to one cache of the suite. *)
Record CacheSpace : Type := mkCacheSpace {
  space_items : list CacheItem;
  space_fetchers : list CacheFetcher;
  space_cache : Cache;
  space_trace : list event
}.

Record CacheSuite : Type := mkCacheSuite {
  suite_default_freshness_period : timedelta;
  suite_default_expiration_period : timedelta;
  suite_default_purge_period : timedelta;
  suite_max_items : Z;
  _caches : gmap object_class CacheSpace
}.

Record SuiteWorld : Type := mkSuiteWorld {
  suite_clock : nat -> datetime;
  suite_reads : nat;
  suite : CacheSuite
}.

Inductive suite_result (A : Type) : Type :=
| SOk (a : A) (sw : SuiteWorld)
| SRaise (e : exn) (sw : SuiteWorld).
Arguments SOk {A} a sw.
Arguments SRaise {A} e sw.

Definition SM (A : Type) : Type := SuiteWorld -> suite_result A.

Definition suite_final {A} (r : suite_result A) : SuiteWorld :=
  match r with SOk _ sw => sw | SRaise _ sw => sw end.

Definition set_caches (s : CacheSuite) (m : gmap object_class CacheSpace)
    : CacheSuite :=
  mkCacheSuite (suite_default_freshness_period s)
    (suite_default_expiration_period s) (suite_default_purge_period s)
    (suite_max_items s) m.

(** The world a method of the cache [sp] runs in, and the suite after the
    method has left the world [w]. *)
Definition space_world (sw : SuiteWorld) (sp : CacheSpace) : World :=
  mkWorld (suite_clock sw) (suite_reads sw) (space_items sp)
    (space_fetchers sp) (space_cache sp) (space_trace sp).

Definition world_space (w : World) : CacheSpace :=
  mkCacheSpace (items_store w) (fetchers_store w) (cache w) (trace w).

Definition put_space (oc : object_class) (w : World) (sw : SuiteWorld)
    : SuiteWorld :=
  mkSuiteWorld (suite_clock sw) (reads w)
    (set_caches (suite sw) (<[oc := world_space w]> (_caches (suite sw)))).

(** A method of the cache of the class [oc], which is [sp], called from
    the suite. *)
Definition on_cache {A} (oc : object_class) (sp : CacheSpace) (m : M A)
    : SM A :=
  fun sw =>
    match m (space_world sw sp) with
    | Ok a w => SOk a (put_space oc w sw)
    | Raise e w => SRaise e (put_space oc w sw)
    end.

Definition CacheSuite__init__ (max_items : Z)
    (default_freshness_period default_expiration_period
       default_purge_period : timedelta) : CacheSuite :=
  mkCacheSuite default_freshness_period default_expiration_period
    default_purge_period max_items ∅.

(** [CacheSuite.request_object]; the message of the [TypeError] is
    ["No cache for %r" % (object_class,)]. *)
Definition suite_request_object (oc : object_class) (a : addr) (st : string)
    (object_handler : callable) (error_handler : option callable)
    (timeout_handler : option callable) (backup_state : option string)
    (timeout_period : option timedelta)
    (freshness_period expiration_period purge_period : option timedelta)
    : SM unit :=
  fun sw =>
    match _caches (suite sw) !! oc with
    | None => SRaise (TypeError ("No cache for " ++ class_repr oc)) sw
    | Some sp =>
        on_cache oc sp
          (request_object a st object_handler error_handler timeout_handler
             backup_state timeout_period freshness_period expiration_period
             purge_period) sw
    end.

(** [CacheSuite.tick]: [for cache in self._caches.values(): cache.tick()].
    The order in which a dictionary gives its values is not fixed: the
    loop runs over the classes in the order [order], an enumeration of
    the keys. *)
Fixpoint suite_tick_loop (order : list object_class) : SM unit :=
  match order with
  | [] => fun sw => SOk tt sw
  | oc :: rest =>
      fun sw =>
        match _caches (suite sw) !! oc with
        | Some sp =>
            match on_cache oc sp tick sw with
            | SOk _ sw' => suite_tick_loop rest sw'
            | SRaise e sw' => SRaise e sw'
            end
        | None => suite_tick_loop rest sw
        end
  end.

Definition suite_tick (order : list object_class) : SM unit :=
  suite_tick_loop order.

(** [order] enumerates the keys of [m], each once. *)
Definition enumerates (order : list object_class)
    (m : gmap object_class CacheSpace) : bool :=
  bool_decide (NoDup order)
  && forallb (fun oc => bool_decide (is_Some (m !! oc))) order
  && bool_decide (length order = size m).

(** [CacheSuite.register_fetcher]: the cache of the class is made, with
    the settings of the suite, when there is none; a [Cache] instance is
    always true. *)
Definition register_fetcher (oc : object_class)
    (fetcher_class : option fetcher_class) : SM unit :=
  fun sw =>
    let sp :=
      match _caches (suite sw) !! oc with
      | Some sp => sp
      | None =>
          mkCacheSpace [] []
            (Cache__init__ (suite_max_items (suite sw))
               (suite_default_freshness_period (suite sw))
               (suite_default_expiration_period (suite sw))
               (suite_default_purge_period (suite sw))) []
      end in
    on_cache oc sp (set_fetcher fetcher_class) sw.

Definition unregister_fetcher (oc : object_class) : SM unit :=
  fun sw =>
    match _caches (suite sw) !! oc with
    | None => SOk tt sw
    | Some sp => on_cache oc sp (set_fetcher None) sw
    end.

(** The calls on a suite: its four methods, and the calls that the
    fetchers of a cache and the code that drives them make on the cache,
    its items and its fetchers. *)
Inductive suite_call : Type :=
| Suite_request_object (oc : object_class) (a : addr) (st : string)
    (object_handler : callable)
    (error_handler timeout_handler : option callable)
    (backup_state : option string) (timeout_period : option timedelta)
    (freshness_period expiration_period purge_period : option timedelta)
| Suite_tick (order : list object_class)
| Suite_register_fetcher (oc : object_class)
    (fetcher_class : option fetcher_class)
| Suite_unregister_fetcher (oc : object_class)
| Suite_on_cache (oc : object_class) (c : api_call).

Definition run_suite_call (c : suite_call) : SM unit :=
  match c with
  | Suite_request_object oc a st oh eh th bs tp fp ep pp =>
      suite_request_object oc a st oh eh th bs tp fp ep pp
  | Suite_tick order => suite_tick order
  | Suite_register_fetcher oc fc => register_fetcher oc fc
  | Suite_unregister_fetcher oc => unregister_fetcher oc
  | Suite_on_cache oc c =>
      fun sw =>
        match _caches (suite sw) !! oc with
        | Some sp => on_cache oc sp (run_call c) sw
        | None => SOk tt sw
        end
  end.

(** A call that can be made: the order of a tick enumerates the caches,
    and a call on a cache refers to a cache and to objects that exist. *)
Definition suite_call_ok (sw : SuiteWorld) (c : suite_call) : bool :=
  match c with
  | Suite_tick order => enumerates order (_caches (suite sw))
  | Suite_on_cache oc c =>
      match _caches (suite sw) !! oc with
      | Some sp => call_ok (space_world sw sp) c
      | None => false
      end
  | _ => true
  end.

Fixpoint run_suite_calls (cs : list suite_call) (sw : SuiteWorld)
    : SuiteWorld :=
  match cs with
  | [] => sw
  | c :: cs' =>
      run_suite_calls cs'
        (if suite_call_ok sw c then suite_final (run_suite_call c sw) else sw)
  end.

(** The world with a new suite and nothing else. *)
Definition initial_suite (clk : nat -> datetime) (max_items : Z)
    (default_freshness_period default_expiration_period
       default_purge_period : timedelta) : SuiteWorld :=
  mkSuiteWorld clk 0
    (CacheSuite__init__ max_items default_freshness_period
       default_expiration_period default_purge_period).

(** The invariant of a suite: every cache satisfies the invariant of a
    cache, has the attribute [_fetcher], and has the limit of the
    suite. *)
Record suite_inv (sw : SuiteWorld) : Prop := mk_suite_inv {
  sinv_world :
    forall oc sp, _caches (suite sw) !! oc = Some sp ->
      general_inv (space_world sw sp);
  sinv_fetcher :
    forall oc sp, _caches (suite sw) !! oc = Some sp ->
      is_Some (_fetcher (space_cache sp));
  sinv_max :
    forall oc sp, _caches (suite sw) !! oc = Some sp ->
      max_items (space_cache sp) = suite_max_items (suite sw)
}.

(** A class is registered by one of the calls. *)
Definition registers (oc : object_class) (c : suite_call) : bool :=
  match c with
  | Suite_register_fetcher oc' _ => bool_decide (oc' = oc)
  | _ => false
  end.

(** ** Concrete states used to instantiate the statements *)

Definition example_clock : nat -> datetime := fun n => 1000 + Z.of_nat n.

Definition example_new_item : CacheItem :=
  mkCacheItem "v" "a" "new" 0 10 20 5000 0.

Definition example_world_one_item : World :=
  mkWorld example_clock 0 [example_new_item] []
    (Cache__init__ 10 _hour (12 * _hour) (24 * _hour)) [].

(** A cache of at most ten items that holds one fresh item for the
    address [a] and has a fetcher class registered. *)
Definition example_fresh_item : CacheItem :=
  mkCacheItem "v" "a" "fresh" 0 5000 6000 7000 1.

Definition example_cache_one_item : Cache :=
  mkCache _hour (12 * _hour) (24 * _hour) 10 {["a" := 0%nat]} [0%nat]
    (Some (Some FetcherSubclass)) [] 0.

Definition example_world_cached : World :=
  mkWorld example_clock 0 [example_fresh_item] [] example_cache_one_item [].

(** The same cache holding an item that is old and not yet expired. *)
Definition example_old_item : CacheItem :=
  mkCacheItem "v" "a" "old" 0 500 6000 7000 2.

Definition example_world_old : World :=
  mkWorld example_clock 0 [example_old_item] [] example_cache_one_item [].

(** Three items are made and added to a cache of at most two items; the
    first two have the same address. *)
Definition example_calls_same_address : list api_call :=
  [Call_CacheItem "a" "v1" _hour (12 * _hour) (24 * _hour) "new";
   Call_add_item 0;
   Call_CacheItem "a" "v2" _hour (12 * _hour) (24 * _hour) "new";
   Call_add_item 1;
   Call_CacheItem "b" "v3" _hour (12 * _hour) (24 * _hour) "new";
   Call_add_item 2].

Definition example_world_same_address : World :=
  run_calls example_calls_same_address
    (initial_world example_clock 2 _hour (12 * _hour) (24 * _hour)).

(** A clock that advances by ten microseconds at each reading. *)
Definition example_clock_fast : nat -> datetime :=
  fun n => 1000 + 10 * Z.of_nat n.

(** A fetcher class is registered and two objects are requested, the
    first with a timeout of 5 microseconds, the second with one of 500;
    no error handler and no timeout handler is given. *)
Definition example_calls_two_requests : list api_call :=
  [Call_set_fetcher (Some FetcherSubclass);
   Call_request_object "a" "fresh" (Handler 7) None None None (Some 5) None None
     None;
   Call_request_object "b" "fresh" (Handler 7) None None None (Some 500) None
     None None].

Definition example_world_two_requests : World :=
  run_calls example_calls_two_requests
    (initial_world example_clock_fast 10 _hour (12 * _hour) (24 * _hour)).


(** A fetcher class whose [fetch] has the object at hand and calls
    [got_it] before it returns is registered, and an object is requested
    with a timeout of 5 microseconds. *)
Definition example_calls_got_it_in_fetch : list api_call :=
  [Call_set_fetcher (Some (FetcherCallingGotIt "v" "new"));
   Call_request_object "a" "fresh" (Handler 7) None None None (Some 5) None
     None None].

(** A handler that raises. *)
Definition example_raising_handler : callable :=
  RaisingHandler 9 (RuntimeError "handler failed").

(** An object is requested with a timeout of 5 microseconds and a timeout
    handler that raises. *)
Definition example_calls_handler_raises : list api_call :=
  [Call_set_fetcher (Some FetcherSubclass);
   Call_request_object "a" "fresh" (Handler 7) None
     (Some example_raising_handler) None (Some 5) None None None].

(** ** Further notions *)

(** The state the deadlines of an item dictate at the time [now], for an
    item whose deadlines are in order. *)
Definition clock_state (now : datetime) (it : CacheItem) : string :=
  if now >? purge_time it then "purged"
  else if now >? expire_time it then "stale"
  else if now >? freshness_time it then "old"
  else "fresh".

(** The one of two states that comes later in the chain. *)
Definition later_state (s s' : string) : string :=
  match chain_position s, chain_position s' with
  | Some p, Some p' => if (p <=? p')%nat then s' else s
  | _, _ => s
  end.

(** The deadlines of an item are in order. *)
Definition deadlines_ordered (it : CacheItem) : Prop :=
  freshness_time it <= expire_time it <= purge_time it.

(** The addresses of the items [l], as the store has them. *)
Definition addresses_of (store : list CacheItem) (l : list item_id)
    : list addr :=
  omap (fun j => address <$> store !! j) l.

(** The cache of [w'] is the one of [w] without the first [k] items of
    its list and without the keys that are their addresses. *)
Definition purged_of (k : nat) (w w' : World) : Prop :=
  _items_list (cache w') = drop k (_items_list (cache w)) /\
  forall a,
    _items (cache w') !! a =
      if decide (a ∈ addresses_of (items_store w)
                       (take k (_items_list (cache w))))
      then None else _items (cache w) !! a.

(** ** Further concrete states *)


(** The same after a request without a backup state. *)
Definition example_world_requested : World :=
  final_world
    (request_object "a" "fresh" (Handler 7) (Some (Handler 8))
       (Some (Handler 9)) None (Some 50) None None None
       example_world_cached).

(** Two object classes. *)
Definition DiscoInfo : object_class :=
  mkObjectClass "DiscoInfo" "<class 'pyxmpp.jabber.disco.DiscoInfo'>".

Definition DiscoItems : object_class :=
  mkObjectClass "DiscoItems" "<class 'pyxmpp.jabber.disco.DiscoItems'>".

(** A suite in which a fetcher class has been registered for the class
    [DiscoInfo] and then unregistered. *)
Definition example_suite_calls_unregistered : list suite_call :=
  [Suite_register_fetcher DiscoInfo (Some FetcherSubclass);
   Suite_unregister_fetcher DiscoInfo].




(** The exception [e] has come out of the [fetch] of the fetcher [f] of
    the class [cls], which has left the world [w']. *)
Definition fetch_raised (cls : fetcher_class) (f : fetcher_id) (e : exn)
    (w' : World) : Prop :=
  cls <> FetcherSubclass /\
  (cls = CacheFetcherItself -> e = RuntimeError "Pure virtual method called") /\
  exists x w,
    fetchers_store w !! f = Some x /\ fetcher_class_of x = cls /\
    fetch f w = Raise e w'.

(** Why [Cache.request_object], called for the address [a] with the state
    name [st], the object handler [oh] and the timeout [tp] in the world
    [w], has raised [e] and left the world [w']: the state name is
    unknown; the object handler, called with the item found, has raised
    [e]; the cache has no attribute [_fetcher], or no fetcher class; the
    deadline of the fetcher is out of range; or the [fetch] of the new
    fetcher has raised [e]. *)
Definition request_raised (a : addr) (st : string) (oh : callable)
    (tp : option timedelta) (w : World) (e : exn) (w' : World) : Prop :=
  (e = KeyError st /\ _state_values st = None) \/
  (handler_exn oh = Some e /\ is_Some (_items (cache w) !! a)) \/
  (e = AttributeError "Cache instance has no attribute '_fetcher'" /\
   _fetcher (cache w) = None) \/
  (e = TypeError "No cache fetcher defined" /\
   _fetcher (cache w) = Some None) \/
  (e = OverflowError "date value out of range" /\
   truthy_period tp = true /\
   exists cls, _fetcher (cache w) = Some (Some cls)) \/
  (exists cls,
     _fetcher (cache w) = Some (Some cls) /\
     fetch_raised cls (length (fetchers_store w)) e w').


(** A suite whose cache for the class [DiscoInfo] is the cache with one
    fresh item for the address [a]. *)
Definition example_suite_cached : SuiteWorld :=
  mkSuiteWorld example_clock 0
    (mkCacheSuite _hour (12 * _hour) (24 * _hour) 10
       {[DiscoInfo := world_space example_world_cached]}).

(** ** Language tags *)

(** Every character of [s] is in the class [cl]. *)
Fixpoint all_in_class (cl : char_class) (s : string) : bool :=
  match s with
  | EmptyString => true
  | String c s' => class_matches cl c && all_in_class cl s'
  end.

(** [p] is a tag [pre-sub] with a last subtag [sub] of letters and digits,
    possibly followed by the line end [nl]. *)
Definition tag_with_subtag (p pre sub nl : string) : Prop :=
  p = (pre ++ "-" ++ sub ++ nl)%string /\
  sub <> "" /\ all_in_class AlnumClass sub = true /\
  all_in_class AnyChar pre = true /\
  (nl = "" \/ nl = String newline "").

(** The part of [LANG_SPLIT_RE] after the group. *)
Definition LANG_SPLIT_RE_tail : regex :=
  Seq (Opt (Seq (Chr (Literal "-"%char)) (Chr AlnumClass)))
    (Seq (Chr (Literal "-"%char)) (Seq (Plus AlnumClass) EndOfString)).

(** The last three parts of [LANG_SPLIT_RE]. *)
Definition LANG_SPLIT_RE_subtag : regex :=
  Seq (Chr (Literal "-"%char)) (Seq (Plus AlnumClass) EndOfString).

(** ** The attribute [_fetcher]

    A method keeps the attribute [_fetcher] of the cache, run from the
    world [w], or from any world. *)
Definition keeps_fetcher_at {A} (w : World) (m : M A) : Prop :=
  _fetcher (cache (final_world (m w))) = _fetcher (cache w).

Definition keeps_fetcher {A} (m : M A) : Prop :=
  forall w, keeps_fetcher_at w m.


(** * Properties *)

(** ** State names *)

Lemma _state_values_Some k v :
  _state_values k = Some v ->
  k = "new" \/ k = "fresh" \/ k = "old" \/ k = "stale" \/ k = "purged".
Proof.
  unfold _state_values.
  repeat (match goal with
          | |- context [String.eqb k ?s] =>
              destruct (String.eqb_spec k s); [tauto |]
          end).
  discriminate.
Qed.

Lemma _state_values_bounds k v : _state_values k = Some v -> 0 <= v <= 3.
Proof.
  intros H.
  destruct (_state_values_Some _ _ H) as [-> | [-> | [-> | [-> | ->]]]];
    vm_compute in H; inversion H; lia.
Qed.

(** ** CacheItem.update_state *)

Lemma advance_state_valid now it v :
  _state_values (state it) = Some v ->
  is_Some (_state_values (advance_state now it)).
Proof.
  intros H. unfold advance_state.
  destruct (_state_values_Some _ _ H) as [-> | [-> | [-> | [-> | ->]]]];
    cbn;
    repeat (match goal with
            | |- context [if ?b then _ else _] => destruct b; cbn
            end); eauto.
Qed.

Lemma advance_state_chain_le now it :
  chain_le (state it) (advance_state now it).
Proof.
  intros p Hp. unfold advance_state.
  assert (Hv : exists v, _state_values (state it) = Some v).
  { revert Hp. unfold chain_position, _state_values.
    repeat (match goal with
            | |- context [String.eqb ?k ?s] => destruct (String.eqb k s)
            end); eauto; discriminate. }
  destruct Hv as [v Hv].
  destruct (_state_values_Some _ _ Hv) as [Hs | [Hs | [Hs | [Hs | Hs]]]];
    rewrite Hs in *; cbn in *; injection Hp as <-;
    repeat (match goal with
            | |- context [if ?b then _ else _] => destruct b; cbn
            end); eexists; (split; [reflexivity | lia]).
Qed.

Lemma update_state_run w i it :
  items_store w !! i = Some it ->
  is_Some (_state_values (state it)) ->
  exists sv,
    _state_values (advance_state (clock w (reads w)) it) = Some sv /\
    update_state i w =
      Ok (advance_state (clock w (reads w)) it)
         (mkWorld (clock w) (S (reads w))
            (<[i := set_state_value
                      (set_state it (advance_state (clock w (reads w)) it))
                      sv]> (items_store w))
            (fetchers_store w) (cache w) (trace w)).
Proof.
  intros Hi [v Hv].
  destruct (advance_state_valid (clock w (reads w)) it v Hv) as [sv Hsv].
  exists sv. split; [done |].
  unfold update_state, utcnow, read_item, write_item, subscript_state_values.
  unfold mbind, M_bind, bind. cbn. rewrite Hi. cbn. rewrite Hsv. cbn.
  rewrite list_insert_insert_eq. done.
Qed.

(** C7: [update_state] moves the state along the chain New, Fresh, Old,
    Stale, Purged.  For an item in one of these states the call returns;
    the new state is reached from the old one by steps that are due at the
    time read (Fresh to Old after [freshness_time], Old to Stale after
    [expire_time], Stale to Purged after [purge_time]; New to Fresh
    always), no further step is due, the position in the chain does not
    decrease, and [state_value] is the value of the new state. *)
Theorem update_state_advances_along_chain w i it :
  items_store w !! i = Some it ->
  is_Some (_state_values (state it)) ->
  let now := clock w (reads w) in
  exists it' w' p p',
    update_state i w = Ok (state it') w' /\
    items_store w' !! i = Some it' /\
    rtc (promotes now it) (state it) (state it') /\
    (forall s, ~ promotes now it (state it') s) /\
    chain_position (state it) = Some p /\
    chain_position (state it') = Some p' /\
    (p <= p')%nat /\
    _state_values (state it') = Some (state_value it').
Proof.
  intros Hi Hv now.
  destruct (update_state_run w i it Hi Hv) as (sv & Hsv & Hrun).
  fold now in Hsv, Hrun.
  set (it' := set_state_value (set_state it (advance_state now it)) sv) in *.
  assert (Hlt : (i < length (items_store w))%nat)
    by (eapply lookup_lt_Some; eauto).
  assert (Hchain :
    exists p p',
      rtc (promotes now it) (state it) (advance_state now it) /\
      (forall s, ~ promotes now it (advance_state now it) s) /\
      chain_position (state it) = Some p /\
      chain_position (advance_state now it) = Some p' /\ (p <= p')%nat).
  { destruct Hv as [v Hv]. unfold advance_state.
    destruct (_state_values_Some _ _ Hv) as [-> | [-> | [-> | [-> | ->]]]];
      cbn;
      destruct (Z.gtb_spec now (freshness_time it));
      destruct (Z.gtb_spec now (expire_time it));
      destruct (Z.gtb_spec now (purge_time it)); cbn;
      do 2 eexists;
      (split; [| split; [| split; [reflexivity | split; [reflexivity | lia]]]]);
      try (intros s Hs; inversion Hs; lia);
      repeat (first [apply rtc_refl
                    | eapply rtc_l; [constructor; lia |]]). }
  destruct Hchain as (p & p' & Hrtc & Hmax & Hp & Hp' & Hle).
  eexists it', _, p, p'.
  split; [exact Hrun |]. cbn.
  split; [by apply list_lookup_insert_eq |].
  repeat split; auto.
Qed.

Lemma update_state_advances_along_chain_witness :
  let w := example_world_one_item in
  let it := example_new_item in
  let now := clock w (reads w) in
  exists it' w' p p',
    update_state 0%nat w = Ok (state it') w' /\
    items_store w' !! 0%nat = Some it' /\
    rtc (promotes now it) (state it) (state it') /\
    (forall s, ~ promotes now it (state it') s) /\
    chain_position (state it) = Some p /\
    chain_position (state it') = Some p' /\
    (p <= p')%nat /\
    _state_values (state it') = Some (state_value it').
Proof.
  apply (update_state_advances_along_chain example_world_one_item 0%nat
           example_new_item).
  - reflexivity.
  - exists 0. reflexivity.
Defined.

(** ** CacheItem.__init__ *)

(** C9: with [freshness_period] 2 greater than [expiration_period] 1 the
    constructor does not raise the validation error: the guard returns the
    pair of [ValueError] and the message from [__init__], and the call
    fails with the [TypeError] of an [__init__] that returns a value. *)
Theorem CacheItem__init__periods_out_of_order w :
  CacheItem__init__ "a" "v" 2 1 3 "new" w =
    Raise (TypeError "__init__() should return None, not 'tuple'") w.
Proof. reflexivity. Qed.

Lemma datetime_add_Ok t d r w w' :
  datetime_add t d w = Ok r w' ->
  r = t + d /\ w' = w /\ datetime_min <= r <= datetime_max.
Proof.
  unfold datetime_add.
  destruct (datetime_min <=? t + d) eqn:H1;
    destruct (t + d <=? datetime_max) eqn:H2; cbn; try discriminate.
  intros [= <- <-]. apply Z.leb_le in H1, H2. auto.
Qed.

(** An item that was constructed has its deadlines in order. *)
Lemma CacheItem__init__deadlines_ordered a v fp ep pp st w i w' :
  CacheItem__init__ a v fp ep pp st w = Ok i w' ->
  exists it,
    items_store w' !! i = Some it /\
    address it = a /\ value it = v /\ state it = st /\
    _state_values st = Some (state_value it) /\
    freshness_time it <= expire_time it <= purge_time it.
Proof.
  unfold CacheItem__init__.
  destruct (Z.gtb_spec fp ep); [discriminate |].
  destruct (Z.gtb_spec ep pp); [discriminate |].
  unfold utcnow, subscript_state_values, new_item.
  unfold mbind, M_bind, bind. cbn.
  set (now := clock w (reads w)).
  destruct (datetime_add now fp _) as [ft w1 |] eqn:H1; [| discriminate].
  apply datetime_add_Ok in H1 as (-> & -> & Hft).
  destruct (datetime_add now ep _) as [et w2 |] eqn:H2; [| discriminate].
  apply datetime_add_Ok in H2 as (-> & -> & Het).
  destruct (Z.eqb_spec pp 0) as [-> | Hpp]; cbn.
  - destruct (_state_values st) as [sv |] eqn:Hsv; cbn; [| discriminate].
    intros [= <- <-]. cbn.
    eexists. split; [apply list_lookup_middle; reflexivity |].
    cbn. repeat split; auto; lia.
  - destruct (datetime_add now pp _) as [pt w3 |] eqn:H3; [| discriminate].
    apply datetime_add_Ok in H3 as (-> & -> & Hpt).
    destruct (_state_values st) as [sv |] eqn:Hsv; cbn; [| discriminate].
    intros [= <- <-]. cbn.
    eexists. split; [apply list_lookup_middle; reflexivity |].
    cbn. repeat split; auto; lia.
Qed.

(** ** Running the monad *)

Lemma run_bind {A B} (m : M A) (k : A -> M B) w :
  (m ≫= k) w =
    match m w with Ok a w' => k a w' | Raise e w' => Raise e w' end.
Proof. reflexivity. Qed.

Lemma run_ret {A} (a : A) w : (mret a : M A) w = Ok a w.
Proof. reflexivity. Qed.

(** ** Steps *)

#[global] Instance same_identity_refl : Reflexive same_identity.
Proof. intros it. unfold same_identity. tauto. Qed.

#[global] Instance same_identity_trans : Transitive same_identity.
Proof.
  intros a b c. unfold same_identity.
  intros (? & ? & ? & ? & ? & ?) (? & ? & ? & ? & ? & ?).
  repeat split; congruence.
Qed.

#[global] Instance chain_le_refl : Reflexive chain_le.
Proof. intros s p Hp. exists p. auto. Qed.

#[global] Instance chain_le_trans : Transitive chain_le.
Proof.
  intros a b c H1 H2 p Hp.
  destruct (H1 p Hp) as (p1 & Hp1 & ?).
  destruct (H2 p1 Hp1) as (p2 & Hp2 & ?).
  exists p2. split; [done | lia].
Qed.

#[global] Instance item_evolves_refl : Reflexive item_evolves.
Proof. intros it. split; reflexivity. Qed.

#[global] Instance item_evolves_trans : Transitive item_evolves.
Proof. intros a b c (? & ?) (? & ?). split; etrans; eauto. Qed.

Lemma consistent_valid it : consistent it -> valid_item it.
Proof. intros H. unfold valid_item. rewrite H. eauto. Qed.

#[global] Instance same_fetcher_refl : Reflexive same_fetcher.
Proof. intros x. unfold same_fetcher. tauto. Qed.

#[global] Instance same_fetcher_trans : Transitive same_fetcher.
Proof.
  intros a b c. unfold same_fetcher. intros [? ?] [? ?].
  split; [congruence | auto].
Qed.

#[global] Instance world_step_refl : Reflexive world_step.
Proof.
  intros w. constructor; eauto; try reflexivity.
  - intros i it H. exists it. split; [done | reflexivity].
  - intros f x H. exists x. split; [done | reflexivity].
Qed.

#[global] Instance world_step_trans : Transitive world_step.
Proof.
  intros a b c [] []. constructor; try congruence; try lia;
    try (etrans; eauto; fail).
  - intros i it H.
    destruct (step_items0 i it H) as (it1 & H1 & S1).
    destruct (step_items1 i it1 H1) as (it2 & H2 & S2).
    exists it2. split; [done | etrans; eauto].
  - intros f x H.
    destruct (step_fetchers0 f x H) as (x1 & H1 & S1).
    destruct (step_fetchers1 f x1 H1) as (x2 & H2 & S2).
    exists x2. split; [done | etrans; eauto].
Qed.

#[global] Instance item_step_refl : Reflexive item_step.
Proof. intros w. constructor; auto. reflexivity. Qed.

#[global] Instance item_step_trans : Transitive item_step.
Proof.
  intros a b c [] []. constructor; try congruence. etrans; eauto.
Qed.

Lemma world_step_length_items w w' :
  world_step w w' ->
  (length (items_store w) <= length (items_store w'))%nat.
Proof.
  intros Hs.
  destruct (decide (length (items_store w) = 0%nat)) as [-> | Hne]; [lia |].
  destruct (lookup_lt_is_Some_2 (items_store w) (length (items_store w) - 1))
    as [it Hit]; [lia |].
  destruct (step_items _ _ Hs _ _ Hit) as (it' & Hit' & _).
  apply lookup_lt_Some in Hit'. lia.
Qed.

Lemma world_step_length_fetchers w w' :
  world_step w w' ->
  (length (fetchers_store w) <= length (fetchers_store w'))%nat.
Proof.
  intros Hs.
  destruct (decide (length (fetchers_store w) = 0%nat)) as [-> | Hne];
    [lia |].
  destruct (lookup_lt_is_Some_2 (fetchers_store w)
              (length (fetchers_store w) - 1)) as [x Hx]; [lia |].
  destruct (step_fetchers _ _ Hs _ _ Hx) as (x' & Hx' & _).
  apply lookup_lt_Some in Hx'. lia.
Qed.

(** ** Outcomes of item methods *)

Lemma good_intro {A} (E : exn -> Prop) w (r : result A) :
  cache_inv (final_world r) -> item_step w (final_world r) ->
  match r with Ok _ _ => True | Raise e _ => E e end ->
  good E w r.
Proof. intros. split; [| split]; assumption. Qed.

Lemma good_weaken {A} (E E' : exn -> Prop) w (r : result A) :
  (forall e, E e -> E' e) -> good E w r -> good E' w r.
Proof.
  intros HE (? & ? & He). apply good_intro; auto. destruct r; auto.
Qed.

Lemma good_bind {A B} (E : exn -> Prop) (m : M A) (k : A -> M B) w :
  good E w (m w) ->
  (forall a w1, m w = Ok a w1 -> cache_inv w1 -> item_step w w1 ->
     good E w1 (k a w1)) ->
  good E w ((m ≫= k) w).
Proof.
  intros (Hinv & Hstep & He) Hk. rewrite run_bind.
  destruct (m w) as [a w1 | e w1] eqn:Hm; cbn in *.
  - destruct (Hk a w1 eq_refl Hinv Hstep) as (Hinv' & Hstep' & He').
    apply good_intro; auto. etrans; eauto.
  - apply good_intro; auto.
Qed.

Lemma good_ret {A} (E : exn -> Prop) (a : A) w :
  cache_inv w -> good E w (ret a w).
Proof. intros H. apply good_intro; cbn; auto. reflexivity. Qed.

Lemma good_raise {A} (E : exn -> Prop) e w :
  cache_inv w -> E e -> good (A := A) E w (raise e w).
Proof. intros H He. apply good_intro; cbn; auto. reflexivity. Qed.

Lemma good_get_cache E w : cache_inv w -> good E w (get_cache w).
Proof. intros H. apply good_intro; cbn; auto. reflexivity. Qed.

Lemma good_read_item E i w :
  cache_inv w -> (i < length (items_store w))%nat ->
  good E w (read_item i w).
Proof.
  intros H Hi.
  destruct (lookup_lt_is_Some_2 _ _ Hi) as [it Hit].
  unfold read_item. rewrite Hit.
  apply good_intro; cbn; auto. reflexivity.
Qed.

Lemma good_subscript_state_values E k w :
  cache_inv w -> (_state_values k = None -> E (KeyError k)) ->
  good E w (subscript_state_values k w).
Proof.
  intros H He. unfold subscript_state_values.
  destruct (_state_values k); [apply good_ret | apply good_raise]; auto.
Qed.

(** ** Language negotiation *)

Lemma match_star_continues {X} cl s (k : string -> option X) x :
  match_star cl s k = Some x -> exists s', k s' = Some x.
Proof.
  induction s as [| c s IH]; cbn; [eauto |].
  destruct (class_matches cl c); [| eauto].
  destruct (match_star cl s k) as [y |] eqn:H; [| eauto].
  intros [= <-]. by apply IH.
Qed.

(** A match ends in the continuation. *)
Lemma match_regex_continues {X} r st (k : match_state -> option X) x :
  match_regex r st k = Some x -> exists st', k st' = Some x.
Proof.
  revert st k. induction r as [cl | cl | cl | r IH | r1 IH1 r2 IH2 | r IH |];
    intros st k; cbn.
  - destruct (rest st) as [| c s]; [discriminate |].
    destruct (class_matches cl c); [eauto | discriminate].
  - intros H. apply match_star_continues in H as [s' H]. eauto.
  - destruct (rest st) as [| c s]; [discriminate |].
    destruct (class_matches cl c); [| discriminate].
    intros H. apply match_star_continues in H as [s' H]. eauto.
  - destruct (match_regex r st k) as [y |] eqn:H; [| eauto].
    intros [= <-]. by apply IH in H.
  - intros H. apply IH1 in H as [st1 H]. by apply IH2 in H.
  - intros H. apply IH in H as [st1 H]. eauto.
  - destruct (_ || _); [eauto | discriminate].
Qed.

Lemma match_regex_seq {X} r1 r2 st (k : match_state -> option X) :
  match_regex (Seq r1 r2) st k
  = match_regex r1 st (fun st' => match_regex r2 st' k).
Proof. reflexivity. Qed.

Lemma substring_whole s : String.substring 0 (String.length s) s = s.
Proof. induction s as [| c s IH]; cbn; [done |]. by rewrite IH. Qed.

(** What [match.group(0)] is for [LANG_SPLIT_RE]: the tag itself, or the
    tag without its last character when the match ended before a final
    newline. *)
Lemma LANG_SPLIT_RE_group0 p m :
  re_match LANG_SPLIT_RE p = Some m ->
  group0 m = p \/ group0 m = consumed p (String newline "").
Proof.
  unfold re_match, LANG_SPLIT_RE. intros H.
  rewrite match_regex_seq in H.
  apply match_regex_continues in H as [st1 H].
  rewrite match_regex_seq in H.
  apply match_regex_continues in H as [st2 H].
  rewrite match_regex_seq in H.
  apply match_regex_continues in H as [st3 H].
  rewrite match_regex_seq in H.
  apply match_regex_continues in H as [st4 H].
  cbn in H.
  destruct (String.eqb_spec (rest st4) "") as [He | _].
  - cbn in H. injection H as <-. left.
    cbn [group0]. rewrite He. unfold consumed.
    cbn [String.length]. rewrite Nat.sub_0_r. apply substring_whole.
  - destruct (String.eqb_spec (rest st4) (String newline "")) as [He | _];
      [| discriminate].
    cbn in H. injection H as <-. right. cbn [group0]. by rewrite He.
Qed.

Lemma LANG_SPLIT_RE_en_US :
  re_match LANG_SPLIT_RE "en-US" = Some (mkMatch "en-US" (Some "en")).
Proof. vm_compute. reflexivity. Qed.

(** A tag that is not supported and that the expression matches as a
    whole is never replaced by another one: the loop goes on. *)
Lemma negotiate_language_stuck fuel languages p lang m :
  p <> "" -> p ∉ languages ->
  re_match LANG_SPLIT_RE p = Some m -> group0 m = p ->
  negotiate_language fuel languages (Some p) lang = StillRunning p.
Proof.
  intros Hne Hnot Hm Hg.
  induction fuel as [| fuel IH]; cbn [negotiate_language].
  - destruct (String.eqb_spec p ""); [done | reflexivity].
  - destruct (String.eqb_spec p ""); [done |].
    rewrite bool_decide_eq_false_2 by done.
    rewrite Hm, Hg. exact IH.
Qed.

(** C8: for the peer language [en-US] and the supported languages [en]
    the loop of [stream_start] is still running after any number of
    iterations, with the tag unchanged: [match.group(0)] is the whole
    matched text, so the tag never gets shorter. *)
Theorem negotiate_language_en_US_never_finishes fuel :
  negotiate_language fuel ["en"] (Some "en-US") None = StillRunning "en-US".
Proof.
  apply (negotiate_language_stuck fuel ["en"] "en-US" None
           (mkMatch "en-US" (Some "en"))).
  - discriminate.
  - intros H. apply list_elem_of_singleton in H. discriminate.
  - exact LANG_SPLIT_RE_en_US.
  - reflexivity.
Qed.


(** ** The item side of the cache *)

Lemma cache_inv_world_step w w' :
  cache_inv w -> world_step w w' ->
  (forall i it, items_store w' !! i = Some it -> consistent it) ->
  _items (cache w') = _items (cache w) ->
  _items_list (cache w') = _items_list (cache w) ->
  cache_inv w'.
Proof.
  intros [] Hs Hv Hm Hl. constructor; auto.
  - rewrite Hl. intros i Hi.
    pose proof (world_step_length_items _ _ Hs).
    specialize (inv_list0 i Hi). lia.
  - rewrite Hm, Hl. intros a i Ha.
    destruct (inv_map0 a i Ha) as (Hin & it & Hit & Haddr).
    split; [done |].
    destruct (step_items _ _ Hs _ _ Hit) as (it' & Hit' & Hid).
    exists it'. split; [done |]. destruct Hid as ((-> & _) & _). done.
  - rewrite (step_max_items _ _ Hs). done.
  - rewrite Hl, (step_max_items _ _ Hs). done.
Qed.

(** Changing the list and the dictionary of the cache only. *)
Lemma cache_inv_put_cache w c :
  cache_inv w ->
  max_items c = max_items (cache w) ->
  (forall i, i ∈ _items_list c -> i ∈ _items_list (cache w)) ->
  (length (_items_list c) <= length (_items_list (cache w)))%nat ->
  (forall a i, _items c !! a = Some i ->
     i ∈ _items_list c /\ _items (cache w) !! a = Some i) ->
  cache_inv (mkWorld (clock w) (reads w) (items_store w) (fetchers_store w)
               c (trace w)).
Proof.
  intros [] Hmax Hsub Hlen Hmap. constructor; cbn; auto.
  - intros a i Ha. destruct (Hmap a i Ha) as [Hin Hold].
    split; [done |]. destruct (inv_map0 a i Hold) as (_ & it & ? & ?). eauto.
  - lia.
  - lia.
Qed.

Lemma item_step_put_cache w c :
  max_items c = max_items (cache w) ->
  default_freshness_period c = default_freshness_period (cache w) ->
  default_expiration_period c = default_expiration_period (cache w) ->
  default_purge_period c = default_purge_period (cache w) ->
  _active_fetchers c = _active_fetchers (cache w) ->
  _fetcher c = _fetcher (cache w) ->
  item_step w (mkWorld (clock w) (reads w) (items_store w)
                 (fetchers_store w) c (trace w)).
Proof.
  intros. constructor; cbn; auto.
  constructor; cbn; auto.
  - intros i it Hi. exists it. split; [done | reflexivity].
  - intros f x Hx. exists x. split; [done | reflexivity].
Qed.

Lemma update_state_good E i w :
  cache_inv w -> (i < length (items_store w))%nat ->
  good E w (update_state i w) /\
  exists s w', update_state i w = Ok s w' /\ cache w' = cache w /\
    (exists it', items_store w' !! i = Some it' /\ state it' = s /\
       _state_values s = Some (state_value it')) /\
    length (items_store w') = length (items_store w).
Proof.
  intros Hinv Hi.
  destruct (lookup_lt_is_Some_2 _ _ Hi) as [it Hit].
  destruct (update_state_run w i it Hit
              (consistent_valid _ (inv_valid _ Hinv _ _ Hit)))
    as (sv & Hsv & Hrun).
  rewrite Hrun.
  set (s := advance_state (clock w (reads w)) it) in *.
  set (it' := set_state_value (set_state it s) sv).
  assert (Hstep : world_step w
    (mkWorld (clock w) (S (reads w)) (<[i:=it']> (items_store w))
       (fetchers_store w) (cache w) (trace w))).
  { constructor; cbn; auto.
    - intros j itj Hj. destruct (decide (i = j)) as [<- | Hne].
      + exists it'. rewrite list_lookup_insert_eq by done.
        split; [done |]. rewrite Hit in Hj. injection Hj as <-.
        split.
        * unfold same_identity. cbn. tauto.
        * apply advance_state_chain_le.
      + exists itj. rewrite list_lookup_insert_ne by done.
        split; [done | reflexivity].
    - intros f x Hx. exists x. split; [done | reflexivity]. }
  split.
  - apply good_intro; cbn; auto.
    + eapply cache_inv_world_step; eauto. cbn.
      intros j itj Hj. destruct (decide (i = j)) as [<- | Hne].
      * rewrite list_lookup_insert_eq in Hj by done. injection Hj as <-.
        exact Hsv.
      * rewrite list_lookup_insert_ne in Hj by done.
        eapply inv_valid; eauto.
    + constructor; cbn; auto.
  - eexists _, _. split; [reflexivity |]. cbn. split; [done |].
    split; [| by rewrite length_insert].
    exists it'. rewrite list_lookup_insert_eq by done. auto.
Qed.

Lemma sort_items_list_good E w :
  cache_inv w -> good E w (sort_items_list w).
Proof.
  intros Hinv. unfold sort_items_list, put_cache.
  pose proof (merge_sort_Permutation (item_le (items_store w))
                (_items_list (cache w))) as Hp.
  apply good_intro; cbn; auto.
  - apply (cache_inv_put_cache w); auto; cbn.
    + intros i. by rewrite Hp.
    + by rewrite Hp.
    + intros a i Ha. split; [| done].
      rewrite Hp. by destruct (inv_map _ Hinv a i Ha).
  - apply (item_step_put_cache w); reflexivity.
Qed.

Lemma sort_items_list_run w :
  sort_items_list w =
    Ok tt (mkWorld (clock w) (reads w) (items_store w) (fetchers_store w)
             (set_items_list (cache w)
                (merge_sort (item_le (items_store w))
                   (_items_list (cache w))))
             (trace w)).
Proof. reflexivity. Qed.

(** [pop_head] where the list of the cache is [i :: il]. *)
Lemma pop_head_good E i il w :
  cache_inv w -> _items_list (cache w) = i :: il ->
  good E w (pop_head i il w) /\
  exists w', pop_head i il w = Ok tt w' /\ _items_list (cache w') = il /\
    items_store w' = items_store w /\ reads w' = reads w.
Proof.
  intros Hinv Hl.
  assert (Hi : (i < length (items_store w))%nat).
  { apply (inv_list _ Hinv). rewrite Hl. apply elem_of_cons. by left. }
  destruct (lookup_lt_is_Some_2 _ _ Hi) as [it Hit].
  unfold pop_head, get_cache, put_cache, read_item.
  unfold mbind, M_bind, bind. cbn. rewrite Hit. cbn.
  split; [| eexists; split; [reflexivity |]; cbn; auto].
  apply good_intro; cbn; auto.
  - apply (cache_inv_put_cache w); auto; cbn.
    + intros j Hj. rewrite Hl. set_solver.
    + rewrite Hl. cbn. lia.
    + intros a j Ha.
      apply lookup_delete_Some in Ha as [Hne Ha].
      split; [| done].
      destruct (inv_map _ Hinv a j Ha) as (Hin & itj & Hitj & Haddr).
      rewrite Hl in Hin. apply elem_of_cons in Hin as [-> | Hin]; [| done].
      rewrite Hit in Hitj. injection Hitj as <-. congruence.
  - apply (item_step_put_cache w); reflexivity.
Qed.

Lemma purge_overlimit_good E n w :
  cache_inv w -> (n <= length (_items_list (cache w)))%nat ->
  good E w (purge_overlimit n w) /\
  exists w', purge_overlimit n w = Ok tt w' /\
    _items_list (cache w') = drop n (_items_list (cache w)).
Proof.
  revert w. induction n as [| n IH]; intros w Hinv Hn.
  - cbn. split; [by apply good_ret |]. eexists. split; [reflexivity |].
    by rewrite drop_0.
  - cbn [purge_overlimit]. rewrite run_bind. cbn.
    destruct (_items_list (cache w)) as [| i il] eqn:Hl; [cbn in Hn; lia |].
    destruct (pop_head_good E i il w Hinv Hl)
      as (Hg & w1 & Hrun & Hl1 & _).
    assert (Hinv1 : cache_inv w1).
    { destruct Hg as (Hg & _). by rewrite Hrun in Hg. }
    destruct (IH w1 Hinv1) as (Hg2 & w2 & Hrun2 & Hl2).
    { rewrite Hl1. cbn in Hn. lia. }
    split.
    + apply good_bind; [done |].
      intros [] w1' Hw1' _ _. rewrite Hrun in Hw1'. injection Hw1' as <-.
      done.
    + exists w2. rewrite run_bind, Hrun. split; [done |].
      rewrite Hl2, Hl1. done.
Qed.

Lemma purge_purged_good E il w :
  cache_inv w -> _items_list (cache w) = il ->
  good E w (purge_purged il w) /\
  exists w', purge_purged il w = Ok tt w' /\
    (length (_items_list (cache w')) <= length il)%nat.
Proof.
  revert w. induction il as [| i il IH]; intros w Hinv Hl.
  - cbn. split; [by apply good_ret |]. eexists. split; [reflexivity |].
    rewrite Hl. done.
  - cbn [purge_purged].
    assert (Hi : (i < length (items_store w))%nat).
    { apply (inv_list _ Hinv). rewrite Hl. apply elem_of_cons. by left. }
    destruct (update_state_good E i w Hinv Hi)
      as (Hg & s & w1 & Hrun & Hc & _ & _).
    assert (Hinv1 : cache_inv w1).
    { destruct Hg as (Hg & _). by rewrite Hrun in Hg. }
    assert (Hl1 : _items_list (cache w1) = i :: il) by (by rewrite Hc).
    destruct (pop_head_good E i il w1 Hinv1 Hl1)
      as (Hg2 & w2 & Hrun2 & Hl2 & _).
    assert (Hinv2 : cache_inv w2).
    { destruct Hg2 as (Hg2 & _). by rewrite Hrun2 in Hg2. }
    destruct (IH w2 Hinv2 Hl2) as (Hg3 & w3 & Hrun3 & Hlen3).
    split.
    + apply good_bind; [done |].
      intros s' w1' Hw1' _ _. rewrite Hrun in Hw1'.
      injection Hw1' as <- <-.
      destruct (String.eqb s "purged"); [| by apply good_ret].
      apply good_bind; [done |].
      intros [] w2' Hw2' _ _. rewrite Hrun2 in Hw2'. injection Hw2' as <-.
      done.
    + rewrite run_bind, Hrun.
      destruct (String.eqb s "purged").
      * rewrite run_bind, Hrun2. exists w3. split; [done |]. cbn. lia.
      * eexists. split; [reflexivity |]. rewrite Hl1. done.
Qed.

Lemma three_quarters_bounds n : 1 <= n -> 0 <= three_quarters n < n.
Proof.
  intros Hn. unfold three_quarters.
  split; [apply Z.quot_pos; lia |].
  apply Z.quot_lt_upper_bound; lia.
Qed.

Lemma good_Ok_inv {A} E w (r : result A) a w' :
  good E w r -> r = Ok a w' -> cache_inv w' /\ item_step w w'.
Proof. intros (H1 & H2 & _) ->. auto. Qed.

Lemma purge_items_good E w :
  cache_inv w ->
  good E w (purge_items w) /\
  exists w', purge_items w = Ok tt w' /\
    Z.of_nat (length (_items_list (cache w')))
      <= three_quarters (max_items (cache w)) /\
    (length (_items_list (cache w')) <= length (_items_list (cache w)))%nat.
Proof.
  intros Hinv. unfold purge_items. rewrite run_bind. cbn.
  pose proof (three_quarters_bounds _ (inv_max _ Hinv)) as Htq.
  set (n := Z.to_nat (Z.of_nat (length (_items_list (cache w)))
                      - three_quarters (max_items (cache w)))).
  assert (Hn : (n <= length (_items_list (cache w)))%nat) by lia.
  destruct (purge_overlimit_good E n w Hinv Hn) as (Hg1 & w1 & Hrun1 & Hl1).
  destruct (good_Ok_inv _ _ _ _ _ Hg1 Hrun1) as (Hinv1 & Hstep1).
  destruct (purge_purged_good E (_items_list (cache w1)) w1 Hinv1 eq_refl)
    as (Hg2 & w2 & Hrun2 & Hlen2).
  split.
  - apply good_bind; [done |].
    intros [] w1' Hw1' _ _. rewrite Hrun1 in Hw1'. injection Hw1' as <-.
    apply good_bind; [by apply good_get_cache |].
    intros c w1' [= <- <-] _ _. done.
  - exists w2. rewrite run_bind, Hrun1. cbn. split; [done |].
    rewrite Hl1, length_drop in Hlen2. lia.
Qed.

Lemma good_no_exn_Ok {A} w (r : result A) :
  good no_exn w r -> exists a w', r = Ok a w'.
Proof. intros (_ & _ & H). destruct r; [eauto | destruct H]. Qed.

Lemma good_put_purged E w :
  cache_inv w ->
  good E w (put_cache (set_purged (cache w) (_purged (cache w) + 1)) w).
Proof.
  intros Hinv. apply good_intro; cbn; auto.
  - apply (cache_inv_put_cache w); cbn; auto. intros a j Ha.
    split; [| done]. by destruct (inv_map _ Hinv a j Ha).
  - apply (item_step_put_cache w); reflexivity.
Qed.

Lemma update_item_good E i w :
  cache_inv w -> (i < length (items_store w))%nat ->
  good E w (update_item i w).
Proof.
  intros Hinv Hi. unfold update_item.
  apply good_bind; [by apply update_state_good |].
  intros s w1 _ Hinv1 Hstep1.
  apply good_bind; [by apply sort_items_list_good |].
  intros [] w2 _ Hinv2 Hstep2.
  assert (Hi2 : (i < length (items_store w2))%nat).
  { pose proof (world_step_length_items _ _ (item_world_step _ _ Hstep1)).
    pose proof (world_step_length_items _ _ (item_world_step _ _ Hstep2)).
    lia. }
  apply good_bind; [by apply good_read_item |].
  intros it w2' Hread _ _.
  assert (w2' = w2) as ->.
  { unfold read_item in Hread. destruct (_ !! _); congruence. }
  apply good_bind; [| intros; by apply good_ret].
  destruct (String.eqb (state it) "purged"); [| by apply good_ret].
  apply good_bind; [by apply good_get_cache |].
  intros c w2' [= <- <-] _ _.
  apply good_bind; [by apply good_put_purged |].
  intros [] w3 _ Hinv3 _.
  apply good_bind; [by apply good_get_cache |].
  intros c w3' [= <- <-] _ _.
  unfold when. destruct (_ >? _); [| by apply good_ret].
  by apply purge_items_good.
Qed.

Lemma read_item_Ok i w it w' :
  read_item i w = Ok it w' -> w' = w /\ items_store w !! i = Some it.
Proof.
  unfold read_item. destruct (_ !! _) eqn:H; [| discriminate].
  intros [= <- <-]. auto.
Qed.

Lemma subscript_state_values_Ok k w v w' :
  subscript_state_values k w = Ok v w' -> w' = w /\ _state_values k = Some v.
Proof.
  unfold subscript_state_values. destruct (_state_values k); [| discriminate].
  intros [= <- <-]. auto.
Qed.

Lemma item_step_valid_id w w' i :
  item_step w w' -> (i < length (items_store w))%nat ->
  (i < length (items_store w'))%nat.
Proof.
  intros Hs Hi.
  pose proof (world_step_length_items _ _ (item_world_step _ _ Hs)). lia.
Qed.

Lemma good_step_l {A} E w w1 (r : result A) :
  item_step w w1 -> good E w1 r -> good E w r.
Proof.
  intros Hs (? & ? & ?). apply good_intro; auto. etrans; eauto.
Qed.

Lemma inv_map_valid_id w a i :
  cache_inv w -> _items (cache w) !! a = Some i ->
  (i < length (items_store w))%nat.
Proof.
  intros Hinv Ha. destruct (inv_map _ Hinv a i Ha) as (_ & it & Hit & _).
  eapply lookup_lt_Some; eauto.
Qed.

Lemma get_item_good E a st w :
  cache_inv w -> (_state_values st = None -> E (KeyError st)) ->
  good E w (get_item a st w).
Proof.
  intros Hinv HE. unfold get_item.
  apply good_bind; [by apply good_get_cache |].
  intros c w' [= <- <-] _ _.
  destruct (_items (cache w) !! a) as [i |] eqn:Ha; [| by apply good_ret].
  pose proof (inv_map_valid_id _ _ _ Hinv Ha) as Hi.
  apply good_bind; [by apply update_item_good |].
  intros s w1 _ Hinv1 Hstep1.
  apply good_bind; [by apply good_subscript_state_values |].
  intros v w1' _ Hinv1' Hstep1'.
  apply good_bind.
  { apply good_read_item; [done |]. eauto using item_step_valid_id. }
  intros it w2 _ Hinv2 _.
  destruct (_ >=? _); by apply good_ret.
Qed.

(** What [get_item] returns, when it returns. *)
Lemma get_item_result a st w r w' :
  get_item a st w = Ok r w' ->
  match r with
  | Some i =>
      _items (cache w) !! a = Some i /\
      exists it v, items_store w' !! i = Some it /\
        _state_values st = Some v /\ state_value it <= v
  | None =>
      _items (cache w) !! a = None \/
      exists i it v, _items (cache w) !! a = Some i /\
        items_store w' !! i = Some it /\
        _state_values st = Some v /\ v < state_value it
  end.
Proof.
  unfold get_item. rewrite run_bind. cbn.
  destruct (_items (cache w) !! a) as [i |] eqn:Ha.
  - rewrite run_bind. destruct (update_item i w) as [s w1 |]; [| discriminate].
    rewrite run_bind.
    destruct (subscript_state_values st w1) as [v w1' |] eqn:Hsub;
      [| discriminate].
    apply subscript_state_values_Ok in Hsub as [-> Hv].
    rewrite run_bind.
    destruct (read_item i w1) as [it w1' |] eqn:Hread; [| discriminate].
    apply read_item_Ok in Hread as [-> Hit].
    destruct (Z.geb_spec v (state_value it)); intros [= <- <-].
    + split; [done |]. exists it, v. split; [done |]. split; [done | lia].
    + right. exists i, it, v. auto.
  - intros [= <- <-]. auto.
Qed.

Lemma cache_inv_b_sound w : cache_inv_b w = true -> cache_inv w.
Proof.
  unfold cache_inv_b. rewrite !andb_true_iff, !forallb_forall.
  intros ((((Hv & Hl) & Hm) & Hmax) & Hsize).
  apply Z.leb_le in Hmax, Hsize.
  constructor; auto.
  - intros i it Hit. apply list_elem_of_lookup_2, list_elem_of_In in Hit.
    apply Hv in Hit. by apply bool_decide_eq_true in Hit.
  - intros i Hi. apply list_elem_of_In, Hl in Hi.
    by apply bool_decide_eq_true in Hi.
  - intros a i Ha. apply elem_of_map_to_list, list_elem_of_In, Hm in Ha.
    cbn in Ha. apply andb_true_iff in Ha as [H1 H2].
    apply bool_decide_eq_true in H1, H2. split; [done |].
    destruct (items_store w !! i) as [it |]; [| discriminate].
    exists it. cbn in H2. split; congruence.
Qed.






(** ** invalidate_object *)

Lemma value_lt_chain_le it st v :
  consistent it -> _state_values st = Some v -> state_value it < v ->
  chain_le (state it) st.
Proof.
  unfold consistent. intros Hc Hv Hlt p Hp.
  destruct (_state_values_Some _ _ Hc) as [Hs | [Hs | [Hs | [Hs | Hs]]]];
    rewrite Hs in *; cbn in Hc; injection Hc as Hc;
    cbn in Hp; injection Hp as <-;
    destruct (_state_values_Some _ _ Hv) as [-> | [-> | [-> | [-> | ->]]]];
    cbn in Hv; injection Hv as <-;
    try lia; eexists; (split; [reflexivity | lia]).
Qed.

Lemma assign_state_run i st w it :
  items_store w !! i = Some it ->
  assign_state i st w =
    Ok tt (mkWorld (clock w) (reads w)
             (<[i := set_state it st]> (items_store w))
             (fetchers_store w) (cache w) (trace w)).
Proof.
  intros Hit. unfold assign_state, read_item, write_item.
  rewrite run_bind, Hit. reflexivity.
Qed.

(** [item.state = state; item.update_state()] for a state above the one
    of the item. *)
Lemma raise_state_run i st v w it :
  cache_inv w -> items_store w !! i = Some it ->
  _state_values st = Some v -> state_value it < v ->
  exists it' w',
    (assign_state i st ≫= fun _ => update_state i) w = Ok (state it') w' /\
    items_store w' = <[i := it']> (items_store w) /\
    cache w' = cache w /\
    state it' = advance_state (clock w (reads w)) (set_state it st) /\
    consistent it' /\ chain_le st (state it') /\ item_evolves it it' /\
    cache_inv w' /\ item_step w w'.
Proof.
  intros Hinv Hit Hv Hlt.
  pose proof (lookup_lt_Some _ _ _ Hit) as Hi.
  rewrite run_bind, (assign_state_run _ _ _ _ Hit).
  set (w1 := mkWorld _ _ _ _ _ _).
  assert (Hit1 : items_store w1 !! i = Some (set_state it st))
    by (cbn; by rewrite list_lookup_insert_eq).
  destruct (update_state_run w1 i _ Hit1) as (sv & Hsv & Hrun).
  { cbn. rewrite Hv. eauto. }
  subst w1. cbn in Hrun, Hsv. rewrite list_insert_insert_eq in Hrun.
  rewrite Hrun. clear Hit1.
  set (s := advance_state (clock w (reads w)) (set_state it st)) in *.
  set (it' := set_state_value (set_state (set_state it st) s) sv).
  assert (Hev : item_evolves it it').
  { split; [unfold same_identity; cbn; tauto |]. cbn.
    etrans;
      [apply (value_lt_chain_le it st v);
         [eapply inv_valid; eauto | done | done] |].
    apply (advance_state_chain_le _ (set_state it st)). }
  assert (Hstep : world_step w
    (mkWorld (clock w) (S (reads w)) (<[i:=it']> (items_store w))
       (fetchers_store w) (cache w) (trace w))).
  { constructor; cbn; auto.
    - intros j itj Hj. destruct (decide (i = j)) as [<- | Hne].
      + exists it'. rewrite list_lookup_insert_eq by done.
        split; [done |]. congruence.
      + exists itj. rewrite list_lookup_insert_ne by done.
        split; [done | reflexivity].
    - intros f x Hx. exists x. split; [done | reflexivity]. }
  exists it'. eexists. split; [reflexivity |]. cbn.
  do 3 (split; [reflexivity |]).
  split; [exact Hsv |].
  split; [apply (advance_state_chain_le _ (set_state it st)) |].
  split; [exact Hev |].
  split.
  - eapply cache_inv_world_step; eauto. cbn.
    intros j itj Hj. destruct (decide (i = j)) as [<- | Hne].
    + rewrite list_lookup_insert_eq in Hj by done. injection Hj as <-.
      exact Hsv.
    + rewrite list_lookup_insert_ne in Hj by done.
      eapply inv_valid; eauto.
  - constructor; cbn; auto.
Qed.

Lemma invalidate_object_good E a st w :
  cache_inv w -> (_state_values st = None -> E (KeyError st)) ->
  good E w (invalidate_object a st w).
Proof.
  intros Hinv HE. unfold invalidate_object.
  apply good_bind; [apply get_item_good; [done | discriminate] |].
  intros [i |] w1 Hget Hinv1 Hstep1; [| by apply good_ret].
  destruct (get_item_result _ _ _ _ _ Hget) as (Ha & it & v & Hit & _ & _).
  apply good_bind.
  { apply good_read_item; [done |]. eapply lookup_lt_Some; eauto. }
  intros it' w1' Hread _ _.
  apply read_item_Ok in Hread as [-> Hit'].
  assert (it' = it) as -> by congruence.
  apply good_bind; [by apply good_subscript_state_values |].
  intros v' w1' Hsub _ _.
  apply subscript_state_values_Ok in Hsub as [-> Hv'].
  destruct (Z.ltb_spec (state_value it) v'); [| by apply good_ret].
  destruct (raise_state_run i st v' w1 it Hinv1 Hit Hv')
    as (it2 & w2 & Hrun & _ & _ & _ & _ & _ & _ & Hinv2 & Hstep2); [done |].
  rewrite run_bind in Hrun. rewrite run_bind.
  destruct (assign_state i st w1) as [[] w1a |]; [| discriminate].
  rewrite run_bind, Hrun.
  eapply good_step_l; [exact Hstep2 |].
  by apply sort_items_list_good.
Qed.

(** C5, as stated, fails: an old item (value 2) is not made stale (value
    3) by [invalidate_object("a", "stale")], because the item is looked up
    with [get_item(address)], whose default state is fresh. *)
Lemma invalidate_object_old_item_not_raised :
  ~ invalidate_object_raises_every_lower_item.
Proof.
  intros H.
  destruct (H example_world_old "a" "stale" 3 0%nat example_old_item)
    as (w' & it' & Hrun & Hit & Hst).
  - apply cache_inv_b_sound. vm_compute. reflexivity.
  - reflexivity.
  - reflexivity.
  - reflexivity.
  - cbn. lia.
  - vm_compute in Hrun. injection Hrun as <-.
    vm_compute in Hit. injection Hit as <-. discriminate.
Qed.

(** C5, amended: [invalidate_object a st] first runs
    [get_item a "fresh"].  When that returns no item (nothing stored, or
    the updated item is not fresh) nothing else happens.  When it returns
    the item, of [state_value] at most 1, and that value is below the value
    of [st], the item gets the state [st], [update_state] runs on it (so
    its final state is [st] or later in the chain) and the list is sorted
    again; otherwise nothing else happens. *)
Theorem invalidate_object_raises_fresh_items a st v w :
  cache_inv w ->
  _state_values st = Some v ->
  exists r w1,
    get_item a "fresh" w = Ok r w1 /\
    match r with
    | None => invalidate_object a st w = Ok tt w1
    | Some i =>
        exists it,
          items_store w1 !! i = Some it /\ state_value it <= 1 /\
          if state_value it <? v
          then
            exists it' w',
              invalidate_object a st w = Ok tt w' /\
              items_store w' = <[i := it']> (items_store w1) /\
              same_identity it it' /\
              state it' =
                advance_state (clock w1 (reads w1)) (set_state it st) /\
              chain_le st (state it') /\ consistent it' /\
              _items (cache w') = _items (cache w1) /\
              _items_list (cache w') =
                merge_sort (item_le (items_store w'))
                  (_items_list (cache w1))
          else invalidate_object a st w = Ok tt w1
    end.
Proof.
  intros Hinv Hv.
  assert (Hg : good no_exn w (get_item a "fresh" w)).
  { apply get_item_good; [done | discriminate]. }
  destruct (good_no_exn_Ok _ _ Hg) as (r & w1 & Hget).
  destruct (good_Ok_inv _ _ _ _ _ Hg Hget) as (Hinv1 & Hstep1).
  exists r, w1. split; [done |].
  destruct r as [i |];
    [| unfold invalidate_object; by rewrite run_bind, Hget].
  destruct (get_item_result _ _ _ _ _ Hget) as (Ha & it & v1 & Hit & Hv1 & Hle).
  cbn in Hv1. injection Hv1 as <-.
  exists it. split; [done |]. split; [done |].
  assert (Hio : invalidate_object a st w =
    if state_value it <? v
    then (assign_state i st
          ≫= fun _ => update_state i ≫= fun _ => sort_items_list) w1
    else Ok tt w1).
  { unfold invalidate_object. rewrite run_bind, Hget, run_bind.
    unfold read_item. rewrite Hit, run_bind.
    unfold subscript_state_values. rewrite Hv. cbn.
    destruct (_ <? _); reflexivity. }
  rewrite Hio.
  destruct (Z.ltb_spec (state_value it) v) as [Hlt |]; [| reflexivity].
  destruct (raise_state_run i st v w1 it Hinv1 Hit Hv Hlt)
    as (it2 & w2 & Hrun & Hstore & Hcache & Hstate & Hcons & Hchain & Hev
        & _ & _).
  rewrite run_bind in Hrun. rewrite run_bind.
  destruct (assign_state i st w1) as [[] w1a |]; [| discriminate].
  rewrite run_bind, Hrun, sort_items_list_run.
  exists it2. eexists. split; [reflexivity |]. cbn.
  rewrite Hstore, Hcache.
  split; [done |]. split; [apply Hev |]. done.
Qed.

Lemma invalidate_object_raises_fresh_items_witness :
  cache_inv example_world_cached /\
  _state_values "stale" = Some 3 /\
  exists r w1,
    get_item "a" "fresh" example_world_cached = Ok r w1 /\
    match r with
    | None => invalidate_object "a" "stale" example_world_cached = Ok tt w1
    | Some i =>
        exists it,
          items_store w1 !! i = Some it /\ state_value it <= 1 /\
          if state_value it <? 3
          then
            exists it' w',
              invalidate_object "a" "stale" example_world_cached = Ok tt w' /\
              items_store w' = <[i := it']> (items_store w1) /\
              same_identity it it' /\
              state it' =
                advance_state (clock w1 (reads w1)) (set_state it "stale") /\
              chain_le "stale" (state it') /\ consistent it' /\
              _items (cache w') = _items (cache w1) /\
              _items_list (cache w') =
                merge_sort (item_le (items_store w'))
                  (_items_list (cache w1))
          else invalidate_object "a" "stale" example_world_cached = Ok tt w1
    end.
Proof.
  assert (H : cache_inv example_world_cached)
    by (apply cache_inv_b_sound; vm_compute; reflexivity).
  split; [exact H |]. split; [reflexivity |].
  apply (invalidate_object_raises_fresh_items "a" "stale" 3
           example_world_cached H).
  reflexivity.
Defined.

(** ** add_item *)

Lemma make_room_good E w :
  cache_inv w ->
  good E w (make_room w) /\
  forall w', make_room w = Ok tt w' ->
    Z.of_nat (length (_items_list (cache w'))) < max_items (cache w').
Proof.
  intros Hinv. unfold make_room. rewrite run_bind. cbn. unfold when.
  destruct (Z.geb_spec (Z.of_nat (length (_items_list (cache w))))
              (max_items (cache w))) as [Hge | Hlt].
  - destruct (purge_items_good E w Hinv) as (Hg & w1 & Hrun & Hlen & _).
    split; [done |]. intros w' Hw'. rewrite Hrun in Hw'. injection Hw' as <-.
    destruct (good_Ok_inv _ _ _ _ _ Hg Hrun) as (_ & Hstep).
    rewrite (step_max_items _ _ (item_world_step _ _ Hstep)).
    pose proof (three_quarters_bounds _ (inv_max _ Hinv)). lia.
  - split; [by apply good_ret |]. intros w' [= <-]. done.
Qed.

Lemma store_item_good E i w :
  cache_inv w -> (i < length (items_store w))%nat ->
  Z.of_nat (length (_items_list (cache w))) < max_items (cache w) ->
  good E w (store_item i w).
Proof.
  intros Hinv Hi Hlen.
  destruct (lookup_lt_is_Some_2 _ _ Hi) as [it Hit].
  unfold store_item, read_item, get_cache, put_cache.
  unfold mbind, M_bind, bind. cbn. rewrite Hit. cbn.
  apply good_intro; cbn; auto.
  - destruct Hinv. constructor; cbn; auto.
    + intros j Hj. apply elem_of_app in Hj as [Hj | Hj]; [auto |].
      apply list_elem_of_singleton in Hj as ->. done.
    + intros a j Ha. rewrite elem_of_app.
      destruct (decide (address it = a)) as [<- | Hne].
      * rewrite lookup_insert_eq in Ha. injection Ha as <-.
        split; [right; by apply list_elem_of_singleton | eauto].
      * rewrite lookup_insert_ne in Ha by done.
        destruct (inv_map0 a j Ha). auto.
    + rewrite length_app. cbn. lia.
  - apply (item_step_put_cache w); reflexivity.
Qed.

Lemma add_item_good E i w :
  cache_inv w -> (i < length (items_store w))%nat ->
  good E w (add_item i w).
Proof.
  intros Hinv Hi. unfold add_item.
  apply good_bind; [by apply update_state_good |].
  intros s w1 _ Hinv1 Hstep1.
  pose proof (item_step_valid_id _ _ _ Hstep1 Hi) as Hi1.
  apply good_bind.
  - destruct (negb (String.eqb s "purged")); [| by apply good_ret].
    destruct (make_room_good E w1 Hinv1) as (Hg & Hlen).
    apply good_bind; [done |].
    intros [] w2 Hrun2 Hinv2 Hstep2.
    pose proof (item_step_valid_id _ _ _ Hstep2 Hi1) as Hi2.
    apply good_bind; [apply store_item_good; auto |].
    intros [] w3 _ Hinv3 _.
    by apply sort_items_list_good.
  - intros [] w2 _ Hinv2 Hstep2.
    pose proof (item_step_valid_id _ _ _ Hstep2 Hi1) as Hi2.
    apply good_bind; [by apply good_read_item |].
    intros it w2' _ Hinv2' _. by apply good_ret.
Qed.

(** ** Sorting

    The order on items and the one on entries are total orders, so a list
    has one sorted arrangement: [merge_sort] returns what [list.sort]
    returns. *)

Lemma tuple_leb_total k1 k2 : tuple_leb k1 k2 = true \/ tuple_leb k2 k1 = true.
Proof.
  destruct k1 as [[a1 b1] c1], k2 as [[a2 b2] c2]. cbn.
  destruct (Z.ltb_spec a1 a2), (Z.ltb_spec a2 a1), (Z.eqb_spec a1 a2),
    (Z.eqb_spec a2 a1), (Z.ltb_spec b1 b2), (Z.ltb_spec b2 b1),
    (Z.eqb_spec b1 b2), (Z.eqb_spec b2 b1), (Z.leb_spec c1 c2),
    (Z.leb_spec c2 c1); cbn; auto; lia.
Qed.

Lemma tuple_leb_trans k1 k2 k3 :
  tuple_leb k1 k2 = true -> tuple_leb k2 k3 = true -> tuple_leb k1 k3 = true.
Proof.
  destruct k1 as [[a1 b1] c1], k2 as [[a2 b2] c2], k3 as [[a3 b3] c3]. cbn.
  rewrite !orb_true_iff, !andb_true_iff, !orb_true_iff, !andb_true_iff,
    !Z.ltb_lt, !Z.eqb_eq, !Z.leb_le.
  lia.
Qed.

Lemma tuple_leb_antisym k1 k2 :
  tuple_leb k1 k2 = true -> tuple_leb k2 k1 = true -> k1 = k2.
Proof.
  destruct k1 as [[a1 b1] c1], k2 as [[a2 b2] c2]. cbn.
  rewrite !orb_true_iff, !andb_true_iff, !orb_true_iff, !andb_true_iff,
    !Z.ltb_lt, !Z.eqb_eq, !Z.leb_le.
  intros H1 H2. do 2 f_equal; lia.
Qed.

#[global] Instance item_le_total store : Total (item_le store).
Proof.
  intros i j. unfold item_le.
  destruct (tuple_leb_total (item_key store i) (item_key store j)) as [-> | ->];
    cbn; auto.
Qed.

#[global] Instance item_le_trans store : Transitive (item_le store).
Proof.
  intros i j k. unfold item_le. rewrite !Is_true_true.
  apply tuple_leb_trans.
Qed.

#[global] Instance item_le_antisym store : AntiSymm (=) (item_le store).
Proof.
  intros i j. unfold item_le. rewrite !Is_true_true. intros H1 H2.
  pose proof (tuple_leb_antisym _ _ H1 H2) as Heq.
  unfold item_key in Heq.
  destruct (store !! i), (store !! j); injection Heq; lia.
Qed.

Lemma sort_items_unique store l l' :
  l' ≡ₚ l -> Sorted (item_le store) l' -> l' = merge_sort (item_le store) l.
Proof.
  intros Hp Hs. apply (Sorted_unique (item_le store)); [done | |].
  - apply Sorted_merge_sort. apply _.
  - by rewrite merge_sort_Permutation.
Qed.

(** ** The list of active fetchers *)

#[global] Instance entry_le_total : Total entry_le.
Proof.
  intros [t1 f1] [t2 f2]. unfold entry_le. cbn.
  destruct (Z.ltb_spec t1 t2), (Z.ltb_spec t2 t1),
    (Z.eqb_spec t1 t2), (Z.eqb_spec t2 t1),
    (Nat.leb_spec f1 f2), (Nat.leb_spec f2 f1); cbn; auto; lia.
Qed.

#[global] Instance entry_le_trans : Transitive entry_le.
Proof.
  intros [t1 f1] [t2 f2] [t3 f3]. unfold entry_le. cbn.
  destruct (Z.ltb_spec t1 t2), (Z.ltb_spec t2 t3), (Z.ltb_spec t1 t3),
    (Z.eqb_spec t1 t2), (Z.eqb_spec t2 t3), (Z.eqb_spec t1 t3),
    (Nat.leb_spec f1 f2), (Nat.leb_spec f2 f3), (Nat.leb_spec f1 f3);
    cbn; auto; lia.
Qed.


Lemma list_remove_sublist e l : list_remove e l `sublist_of` l.
Proof.
  induction l as [| e' l IH]; cbn; [constructor |].
  destruct (decide (e' = e)).
  - by apply sublist_cons.
  - by apply sublist_skip.
Qed.

Lemma StronglySorted_sublist {A} (R : relation A) (l1 l2 : list A) :
  l1 `sublist_of` l2 -> StronglySorted R l2 -> StronglySorted R l1.
Proof.
  intros Hsub Hs. revert l1 Hsub.
  induction Hs as [| x l Hs IH Hall]; intros l1 Hsub.
  - apply sublist_nil_r in Hsub as ->. constructor.
  - apply sublist_cons_r in Hsub as [Hsub | (l1' & -> & Hsub)]; [auto |].
    constructor; [auto |].
    rewrite Forall_forall in Hall |- *. intros y Hy.
    apply Hall. eapply sublist_subseteq; eauto.
Qed.

Lemma list_remove_not_in e l : e ∉ l -> list_remove e l = l.
Proof.
  induction l as [| e' l IH]; cbn; [done |].
  intros Hn. apply not_elem_of_cons in Hn as [Hne Hn].
  destruct (decide (e' = e)); [congruence |]. by rewrite IH.
Qed.

Lemma list_remove_Permutation e l : e ∈ l -> l ≡ₚ e :: list_remove e l.
Proof.
  induction l as [| e' l IH]; cbn; [by intros ?%elem_of_nil |].
  intros Hin. destruct (decide (e' = e)) as [-> | Hne]; [done |].
  apply elem_of_cons in Hin as [-> | Hin]; [done |].
  rewrite (IH Hin) at 1. apply Permutation_swap.
Qed.

Lemma entry_of_Some f l e :
  entry_of f l = Some e -> e ∈ l /\ e.2 = f.
Proof.
  unfold entry_of. intros H. apply find_some in H as [H1 H2].
  apply list_elem_of_In in H1. by apply bool_decide_eq_true in H2.
Qed.

Lemma entry_of_None f l : entry_of f l = None <-> f ∉ l.*2.
Proof.
  unfold entry_of. induction l as [| [t g] l IH]; cbn.
  - split; [intros _; apply not_elem_of_nil | done].
  - destruct (decide (g = f)) as [-> | Hne].
    + rewrite bool_decide_eq_true_2 by done.
      split; [discriminate |]. intros H. destruct H. by left.
    + rewrite bool_decide_eq_false_2 by done. rewrite IH.
      rewrite not_elem_of_cons. intuition congruence.
Qed.

Lemma entry_of_listed f l t : (t, f) ∈ l -> is_Some (entry_of f l).
Proof.
  intros Hin. destruct (entry_of f l) eqn:H; [eauto |].
  apply entry_of_None in H. destruct H.
  apply list_elem_of_fmap. exists (t, f). auto.
Qed.

Lemma list_remove_entry_of_ids f l e :
  NoDup l.*2 -> entry_of f l = Some e -> f ∉ (list_remove e l).*2.
Proof.
  unfold entry_of. induction l as [| [t g] l IH]; cbn; [done |].
  intros Hnd. apply NoDup_cons in Hnd as [Hg Hnd].
  destruct (decide (g = f)) as [-> | Hne].
  - rewrite bool_decide_eq_true_2 by done. intros [= <-].
    rewrite decide_True by done. done.
  - rewrite bool_decide_eq_false_2 by done. intros Hfind.
    destruct (decide ((t, g) = e)) as [<- | Hne'].
    + apply find_some in Hfind as [_ H]. apply bool_decide_eq_true in H.
      cbn in H. congruence.
    + cbn. rewrite not_elem_of_cons. auto.
Qed.

(** ** Deactivation *)

Lemma _deactivated_run f x w :
  fetchers_store w !! f = Some x ->
  _deactivated f w =
    Ok tt (mkWorld (clock w) (reads w) (items_store w)
             (<[f := set_active x false]> (fetchers_store w)) (cache w)
             (trace w)).
Proof.
  intros Hx. unfold _deactivated, read_fetcher, write_fetcher.
  rewrite run_bind, Hx. reflexivity.
Qed.

Lemma remove_fetcher_loop_run f snapshot w :
  remove_fetcher_loop f snapshot w =
    match entry_of f snapshot with
    | Some e =>
        (c ← get_cache;
         put_cache
           (set_active_fetchers c (list_remove e (_active_fetchers c)));;
         _deactivated f) w
    | None => Ok tt w
    end.
Proof.
  unfold entry_of. induction snapshot as [| [t g] l IH]; cbn; [done |].
  destruct (decide (g = f)) as [-> | Hne].
  - rewrite bool_decide_eq_true_2 by done. reflexivity.
  - rewrite bool_decide_eq_false_2 by done. exact IH.
Qed.

Lemma set_active_false_id x : active x = false -> set_active x false = x.
Proof. destruct x. cbn. by intros ->. Qed.

Lemma set_active_false_twice x :
  set_active (set_active x false) false = set_active x false.
Proof. reflexivity. Qed.

Lemma set_active_fetchers_id c :
  set_active_fetchers c (_active_fetchers c) = c.
Proof. by destruct c. Qed.

Lemma world_eta w :
  mkWorld (clock w) (reads w) (items_store w) (fetchers_store w) (cache w)
    (trace w) = w.
Proof. by destruct w. Qed.

(** [_deactivate] on a fetcher of the store. *)
Lemma _deactivate_run f x w :
  fetchers_store w !! f = Some x ->
  _deactivate f w = Ok tt (deactivated_world f x w).
Proof.
  intros Hx. pose proof (lookup_lt_Some _ _ _ Hx) as Hf.
  unfold _deactivate, remove_fetcher. rewrite run_bind, run_bind. cbn.
  rewrite remove_fetcher_loop_run.
  unfold deactivated_world, without_fetcher.
  destruct (entry_of f (_active_fetchers (cache w))) as [e |] eqn:He.
  - unfold get_cache, put_cache. rewrite !run_bind. cbn.
    rewrite (_deactivated_run f x) by done. cbn.
    rewrite run_bind. unfold read_fetcher. cbn.
    rewrite list_lookup_insert_eq by done. reflexivity.
  - rewrite run_bind. unfold read_fetcher. rewrite Hx. cbn. unfold when.
    rewrite set_active_fetchers_id.
    destruct (active x) eqn:Hact.
    + by rewrite (_deactivated_run f x).
    + rewrite (set_active_false_id x Hact), list_insert_id by done.
      by rewrite world_eta.
Qed.

Lemma remove_fetcher_run f w :
  (forall t, (t, f) ∈ _active_fetchers (cache w) ->
     is_Some (fetchers_store w !! f)) ->
  exists w', remove_fetcher f w = Ok tt w' /\
    match entry_of f (_active_fetchers (cache w)) with
    | Some _ =>
        exists x, fetchers_store w !! f = Some x /\
          w' = deactivated_world f x w
    | None => w' = w
    end.
Proof.
  intros Hv. unfold remove_fetcher. rewrite run_bind. cbn.
  rewrite remove_fetcher_loop_run.
  destruct (entry_of f (_active_fetchers (cache w))) as [e |] eqn:He;
    [| eauto].
  destruct (entry_of_Some _ _ _ He) as [Hin Hid]. destruct e as [t g].
  cbn in Hid. subst g. destruct (Hv t Hin) as [x Hx].
  unfold get_cache, put_cache. rewrite !run_bind. cbn.
  rewrite (_deactivated_run f x) by done. cbn.
  eexists. split; [reflexivity |]. exists x. split; [done |].
  unfold deactivated_world, without_fetcher.
  by rewrite He.
Qed.

(** ** Invariants of the fetcher side *)

Lemma cache_inv_same_items w w' :
  items_store w' = items_store w ->
  _items (cache w') = _items (cache w) ->
  _items_list (cache w') = _items_list (cache w) ->
  max_items (cache w') = max_items (cache w) ->
  cache_inv w -> cache_inv w'.
Proof.
  intros Hs Hm Hl Hmax []. constructor; rewrite ?Hs, ?Hm, ?Hl, ?Hmax; auto.
Qed.





Lemma emit_run e w : emit e w = Ok tt (emitted e w).
Proof. reflexivity. Qed.

Lemma emitted_step e w : world_step w (emitted e w).
Proof.
  constructor; cbn; auto.
  - intros i it H. exists it. split; [done | reflexivity].
  - intros f x H. exists x. split; [done | reflexivity].
  - by apply prefix_app_r.
Qed.


Lemma deactivated_world_step f x w :
  fetchers_store w !! f = Some x -> world_step w (deactivated_world f x w).
Proof.
  intros Hx. pose proof (lookup_lt_Some _ _ _ Hx) as Hlt.
  constructor; cbn; auto.
  - intros i it H. exists it. split; [done | reflexivity].
  - intros g y H. destruct (decide (f = g)) as [<- | Hne].
    + exists (set_active x false). rewrite list_lookup_insert_eq by done.
      split; [done |]. assert (y = x) as -> by congruence.
      split; [done | discriminate].
    + exists y. rewrite list_lookup_insert_ne by done.
      split; [done | reflexivity].
Qed.

Lemma without_fetcher_sublist f l : without_fetcher f l `sublist_of` l.
Proof.
  unfold without_fetcher. destruct (entry_of f l); [| done].
  apply list_remove_sublist.
Qed.

Lemma without_fetcher_ids f l : NoDup l.*2 -> f ∉ (without_fetcher f l).*2.
Proof.
  intros Hnd. unfold without_fetcher.
  destruct (entry_of f l) as [e |] eqn:He.
  - by apply list_remove_entry_of_ids.
  - by apply entry_of_None.
Qed.



(** ** Constructing an item *)

Lemma CacheItem__init__Ok a v fp ep pp st w i w' :
  CacheItem__init__ a v fp ep pp st w = Ok i w' ->
  exists it,
    w' = mkWorld (clock w) (S (reads w)) (items_store w ++ [it])
           (fetchers_store w) (cache w) (trace w) /\
    i = length (items_store w) /\
    address it = a /\ value it = v /\ state it = st /\ consistent it /\
    timestamp it = clock w (reads w) /\
    freshness_time it <= expire_time it <= purge_time it.
Proof.
  unfold CacheItem__init__.
  destruct (Z.gtb_spec fp ep); [discriminate |].
  destruct (Z.gtb_spec ep pp); [discriminate |].
  unfold utcnow, subscript_state_values, new_item.
  unfold mbind, M_bind, bind. cbn.
  set (now := clock w (reads w)).
  destruct (datetime_add now fp _) as [ft w1 |] eqn:H1; [| discriminate].
  apply datetime_add_Ok in H1 as (-> & -> & Hft).
  destruct (datetime_add now ep _) as [et w2 |] eqn:H2; [| discriminate].
  apply datetime_add_Ok in H2 as (-> & -> & Het).
  destruct (Z.eqb_spec pp 0) as [-> | Hpp]; cbn.
  - destruct (_state_values st) as [sv |] eqn:Hsv; cbn; [| discriminate].
    intros [= <- <-]. cbn.
    eexists. split; [reflexivity |]. cbn. unfold consistent. cbn.
    repeat split; auto; lia.
  - destruct (datetime_add now pp _) as [pt w3 |] eqn:H3; [| discriminate].
    apply datetime_add_Ok in H3 as (-> & -> & Hpt).
    destruct (_state_values st) as [sv |] eqn:Hsv; cbn; [| discriminate].
    intros [= <- <-]. cbn.
    eexists. split; [reflexivity |]. cbn. unfold consistent. cbn.
    repeat split; auto; lia.
Qed.

Lemma datetime_add_Raise t d e w w' :
  datetime_add t d w = Raise e w' -> w' = w.
Proof.
  unfold datetime_add. destruct (_ && _); [discriminate | by intros [= _ <-]].
Qed.

Lemma CacheItem__init__Raise a v fp ep pp st w e w' :
  CacheItem__init__ a v fp ep pp st w = Raise e w' ->
  w' = w \/ w' = clock_read w.
Proof.
  unfold CacheItem__init__.
  destruct (fp >? ep); [intros [= _ <-]; by left |].
  destruct (ep >? pp); [intros [= _ <-]; by left |].
  rewrite run_bind. cbn. fold (clock_read w). intros H. right. revert H.
  rewrite run_bind.
  destruct (datetime_add _ fp _) as [ft w1 |] eqn:H1;
    [| intros [= _ <-]; by apply datetime_add_Raise in H1].
  apply datetime_add_Ok in H1 as (_ & -> & _).
  rewrite run_bind.
  destruct (datetime_add _ ep _) as [et w2 |] eqn:H2;
    [| intros [= _ <-]; by apply datetime_add_Raise in H2].
  apply datetime_add_Ok in H2 as (_ & -> & _).
  rewrite run_bind.
  destruct (negb (pp =? 0)).
  - destruct (datetime_add _ pp _) as [pt w3 |] eqn:H3;
      [| intros [= _ <-]; by apply datetime_add_Raise in H3].
    apply datetime_add_Ok in H3 as (_ & -> & _).
    rewrite run_bind. unfold subscript_state_values.
    destruct (_state_values st); [discriminate | by intros [= _ <-]].
  - cbn. rewrite run_bind. unfold subscript_state_values.
    destruct (_state_values st); [discriminate | by intros [= _ <-]].
Qed.

Lemma clock_read_good {A} E (a : A) w :
  cache_inv w -> good E w (Ok a (clock_read w)).
Proof.
  intros Hinv. apply good_intro; cbn; auto.
  - apply (cache_inv_same_items w); [reflexivity .. | done].
  - constructor; cbn; auto. constructor; cbn; auto.
    + intros i it H. exists it. split; [done | reflexivity].
    + intros f x H. exists x. split; [done | reflexivity].
Qed.

Lemma CacheItem__init__good a v fp ep pp st w :
  cache_inv w ->
  good (fun _ => True) w (CacheItem__init__ a v fp ep pp st w).
Proof.
  intros Hinv.
  destruct (CacheItem__init__ a v fp ep pp st w) as [i w' | e w'] eqn:Hrun.
  - apply CacheItem__init__Ok in Hrun
      as (it & -> & -> & Ha & Hv & Hst & Hcons & _).
    destruct Hinv. apply good_intro; cbn; auto.
    + constructor; cbn; auto.
      * intros i it' Hi. apply lookup_app_Some in Hi as [Hi | [_ Hi]]; eauto.
        apply list_lookup_singleton_Some in Hi as [_ <-]. done.
      * intros i Hi. rewrite length_app. specialize (inv_list0 i Hi). lia.
      * intros a' i Hi. destruct (inv_map0 a' i Hi) as (? & it' & ? & ?).
        split; [done |]. exists it'. split; [| done].
        by apply lookup_app_l_Some.
    + constructor; cbn; auto. constructor; cbn; auto.
      * intros i it' Hi. exists it'. split; [| reflexivity].
        by apply lookup_app_l_Some.
      * intros f x Hx. exists x. split; [done | reflexivity].
  - apply CacheItem__init__Raise in Hrun as [-> | ->].
    + apply good_intro; cbn; auto. reflexivity.
    + destruct (clock_read_good (A := unit) (fun _ => True) tt w Hinv)
        as (? & ? & _).
      apply good_intro; cbn; auto.
Qed.

#[global] Instance entry_le_antisym : AntiSymm (=) entry_le.
Proof.
  intros [t1 f1] [t2 f2]. unfold entry_le. cbn.
  rewrite !Is_true_true, !orb_true_iff, !andb_true_iff, !Z.ltb_lt,
    !Z.eqb_eq, !Nat.leb_le.
  intros H1 H2. f_equal; lia.
Qed.

Lemma sort_entries_unique (l l' : list (Z * nat)) :
  l' ≡ₚ l -> Sorted entry_le l' -> l' = merge_sort entry_le l.
Proof.
  intros Hp Hs. apply (Sorted_unique entry_le); [done | |].
  - apply Sorted_merge_sort. apply _.
  - by rewrite merge_sort_Permutation.
Qed.

(** ** Whatever the application does *)

Lemma read_fetcher_run f x w :
  fetchers_store w !! f = Some x -> read_fetcher f w = Ok x w.
Proof. intros H. unfold read_fetcher. by rewrite H. Qed.

Lemma read_fetcher_dangling f w :
  fetchers_store w !! f = None ->
  read_fetcher f w = Raise (DanglingReference f) w.
Proof. intros H. unfold read_fetcher. by rewrite H. Qed.

Lemma call_run h e w : call h e w = called h e w.
Proof. by destruct h. Qed.

Lemma called_final h e w : final_world (called h e w) = emitted e w.
Proof. unfold called. by destruct (handler_exn h). Qed.

Lemma called_returns h e w :
  returns h = true -> called h e w = Ok tt (emitted e w).
Proof. by destruct h. Qed.

Lemma returns_handler_exn h : returns h = true <-> handler_exn h = None.
Proof. by destruct h. Qed.

Lemma call_object_handler_called by_f h i it w :
  items_store w !! i = Some it ->
  call_object_handler by_f h i w =
    called h (ObjectHandlerCall by_f h (address it) (Some (value it))
                (state it)) w.
Proof.
  intros Hit. unfold call_object_handler, read_item.
  rewrite run_bind, Hit. apply call_run.
Qed.

Lemma call_error_handler_called f h a d w :
  call_error_handler f h a d w =
    called (error_callable_handler h) (error_event f h a d) w.
Proof. destruct h; apply call_run. Qed.

(** *** Fetcher steps *)

#[global] Instance fetcher_step_refl : Reflexive fetcher_step.
Proof. intros w. by constructor. Qed.

#[global] Instance fetcher_step_trans : Transitive fetcher_step.
Proof.
  intros w1 w2 w3 [] []. constructor.
  - by etrans.
  - congruence.
  - congruence.
  - by etrans.
Qed.

Lemma item_step_fetcher_step w w' : item_step w w' -> fetcher_step w w'.
Proof.
  intros []. constructor; auto.
  - by rewrite item_step_fetchers0.
  - by rewrite item_step_active0.
Qed.

Lemma emitted_fetcher_step e w : fetcher_step w (emitted e w).
Proof. constructor; [apply emitted_step | done ..]. Qed.

Lemma deactivated_world_fetcher_step f x w :
  fetchers_store w !! f = Some x -> fetcher_step w (deactivated_world f x w).
Proof.
  intros Hx. constructor; cbn.
  - by apply deactivated_world_step.
  - by rewrite length_insert.
  - done.
  - apply without_fetcher_sublist.
Qed.

Lemma same_fetcher_timeout_time x x' :
  same_fetcher x x' -> timeout_time x' = timeout_time x.
Proof. intros [H _]. destruct x, x'. cbn in *. by injection H. Qed.

Lemma fetcher_step_listing w w' :
  listing_inv w -> fetcher_step w w' -> listing_inv w'.
Proof.
  intros [He Hs Hnd] [Hw _ _ Hsub]. constructor.
  - intros t f Hin.
    destruct (He t f) as (x & Hx & Ht);
      [eapply sublist_subseteq; eauto |].
    destruct (step_fetchers _ _ Hw _ _ Hx) as (x' & Hx' & Hsame).
    exists x'. split; [done |].
    by rewrite (same_fetcher_timeout_time _ _ Hsame).
  - eapply StronglySorted_sublist; eauto.
  - eapply sublist_NoDup; [exact Hnd | by apply fmap_sublist].
Qed.

(** *** Methods that settle *)

Lemma settled_intro {A} w (r : result A) :
  cache_inv (final_world r) -> fetcher_step w (final_world r) ->
  settled w r.
Proof. by split. Qed.

Lemma settled_good {A} E w (r : result A) : good E w r -> settled w r.
Proof. intros (? & ? & _). split; [done | by apply item_step_fetcher_step]. Qed.

Lemma settled_step_l {A} w w1 (r : result A) :
  fetcher_step w w1 -> settled w1 r -> settled w r.
Proof. intros Hs [? ?]. split; [done | etrans; eauto]. Qed.

Lemma settled_bind {A B} (m : M A) (k : A -> M B) w :
  settled w (m w) ->
  (forall a w1, m w = Ok a w1 -> cache_inv w1 -> fetcher_step w w1 ->
     settled w1 (k a w1)) ->
  settled w ((m ≫= k) w).
Proof.
  intros (Hinv & Hstep) Hk. rewrite run_bind.
  destruct (m w) as [a w1 | e w1] eqn:Hm; cbn in *.
  - eapply settled_step_l; eauto.
  - by split.
Qed.

Lemma settled_ret {A} (a : A) w : cache_inv w -> settled w (ret a w).
Proof. intros H. by split. Qed.

Lemma settled_raise {A} e w : cache_inv w -> settled (A := A) w (raise e w).
Proof. intros H. by split. Qed.

Lemma settled_steady {A} w (r : result A) :
  listing_inv w -> settled w r -> steady w r.
Proof.
  intros Hl [Hc Hs]. split; [| apply Hs].
  constructor; [done | by eapply fetcher_step_listing].
Qed.

Lemma emitted_cache_inv e w : cache_inv w -> cache_inv (emitted e w).
Proof. intros H. apply (cache_inv_same_items w); [reflexivity .. | done]. Qed.

Lemma called_settled h e w : cache_inv w -> settled w (called h e w).
Proof.
  intros Hc. apply settled_intro; rewrite called_final.
  - by apply emitted_cache_inv.
  - apply emitted_fetcher_step.
Qed.

Lemma deactivated_world_cache_inv f x w :
  cache_inv w -> cache_inv (deactivated_world f x w).
Proof. intros H. apply (cache_inv_same_items w); [reflexivity .. | done]. Qed.

Lemma _deactivate_settled f w : cache_inv w -> settled w (_deactivate f w).
Proof.
  intros Hc. destruct (fetchers_store w !! f) as [x |] eqn:Hx.
  - rewrite (_deactivate_run f x) by done. apply settled_intro; cbn.
    + by apply deactivated_world_cache_inv.
    + by apply deactivated_world_fetcher_step.
  - unfold _deactivate, remove_fetcher. rewrite run_bind, run_bind. cbn.
    rewrite remove_fetcher_loop_run.
    destruct (entry_of f (_active_fetchers (cache w))) as [e |] eqn:He.
    + unfold get_cache, put_cache. rewrite !run_bind. cbn.
      unfold _deactivated. rewrite run_bind, read_fetcher_dangling by done.
      apply settled_intro; cbn.
      * apply (cache_inv_same_items w); [reflexivity .. | done].
      * constructor; cbn; auto; [| apply list_remove_sublist].
        constructor; cbn; auto.
        -- intros i it H. exists it. split; [done | reflexivity].
        -- intros g y H. exists y. split; [done | reflexivity].
    + rewrite run_bind, read_fetcher_dangling by done.
      by apply settled_intro.
Qed.

(** *** The terminal methods *)

Lemma good_Raise_inv {A} E w (r : result A) e w' :
  good E w r -> r = Raise e w' -> cache_inv w' /\ item_step w w'.
Proof. intros (H1 & H2 & _) ->. auto. Qed.

Lemma is_callback_by_object f g h a v st :
  is_callback_by g (ObjectHandlerCall (Some f) h a v st) = bool_decide (f = g).
Proof. reflexivity. Qed.

Lemma error_event_callback f g h a d :
  is_callback_by g (error_event f h a d) = bool_decide (f = g).
Proof. destruct h; reflexivity. Qed.

Lemma timeout_event_callback f g x :
  is_callback_by g (timeout_event f x) = bool_decide (f = g).
Proof.
  unfold timeout_event. destruct (_timeout_handler x); [reflexivity |].
  apply error_event_callback.
Qed.

Lemma backup_event_callback f g x it :
  is_callback_by g (backup_event f x it) = bool_decide (f = g).
Proof. reflexivity. Qed.

Lemma bool_decide_callback_self (f : nat) : bool_decide (f = f) = true.
Proof. by apply bool_decide_eq_true. Qed.

Lemma bool_decide_callback_other (f g : nat) :
  g <> f -> bool_decide (f = g) = false.
Proof. intros H. apply bool_decide_eq_false. congruence. Qed.


Lemma error_event_handler f h a d :
  event_handler (error_event f h a d) = Some (error_callable_handler h).
Proof. by destruct h. Qed.

Lemma timeout_event_handler f x :
  event_handler (timeout_event f x) = Some (timeout_callable x).
Proof.
  unfold timeout_event, timeout_callable.
  destruct (_timeout_handler x); [done | apply error_event_handler].
Qed.

Lemma handler_of_timeout_callable x : handler_of x (timeout_callable x).
Proof.
  unfold handler_of, timeout_callable.
  destruct (_timeout_handler x); auto.
Qed.

(** The call [timeout] makes when there is no backup item. *)
Lemma timeout_call_called f x w :
  match _timeout_handler x with
  | Some h => call h (TimeoutHandlerCall f h (fetcher_address x))
  | None =>
      call_error_handler f (_error_handler x) (fetcher_address x) None
  end w = called (timeout_callable x) (timeout_event f x) w.
Proof.
  unfold timeout_callable, timeout_event.
  destruct (_timeout_handler x); [apply call_run |].
  apply call_error_handler_called.
Qed.

(** [_try_backup_item]: either a backup item has been handed to the
    object handler, which has returned or raised, or nothing has been
    said to the application. *)
Lemma _try_backup_item_result f x w :
  cache_inv w -> fetchers_store w !! f = Some x ->
  match _try_backup_item f w with
  | Ok true w2 =>
      exists w1 i it,
        item_step w w1 /\ cache_inv w1 /\
        truthy_str (_backup_state x) = true /\
        items_store w1 !! i = Some it /\
        w2 = emitted (backup_event f x it) w1 /\
        handler_exn (_object_handler x) = None
  | Ok false w1 => item_step w w1 /\ cache_inv w1
  | Raise ex w2 =>
      (item_step w w2 /\ cache_inv w2) \/
      exists w1 i it,
        item_step w w1 /\ cache_inv w1 /\
        truthy_str (_backup_state x) = true /\
        items_store w1 !! i = Some it /\
        w2 = emitted (backup_event f x it) w1 /\
        handler_exn (_object_handler x) = Some ex
  end.
Proof.
  intros Hc Hx. unfold _try_backup_item.
  rewrite run_bind, (read_fetcher_run f x) by done.
  destruct (truthy_str (_backup_state x)) eqn:Hb; cbn [negb];
    [| split; [reflexivity | done]].
  rewrite run_bind.
  pose proof (get_item_good (fun _ => True) (fetcher_address x)
                (default "" (_backup_state x)) w Hc (fun _ => I)) as Hg.
  destruct (get_item _ _ w) as [[i |] w1 | e w1] eqn:Hget.
  - destruct (good_Ok_inv _ _ _ _ _ Hg eq_refl) as (Hc1 & Hs1).
    destruct (get_item_result _ _ _ _ _ Hget)
      as (_ & it & _ & Hit & _ & _).
    rewrite run_bind, (call_object_handler_called _ _ _ it) by done.
    unfold called.
    destruct (handler_exn (_object_handler x)) as [ex |] eqn:Hex.
    + right. exists w1, i, it. auto 10.
    + cbn. exists w1, i, it. auto 10.
  - destruct (good_Ok_inv _ _ _ _ _ Hg eq_refl) as (Hc1 & Hs1). cbn. auto.
  - destruct (good_Raise_inv _ _ _ _ _ Hg eq_refl) as (Hc1 & Hs1). auto.
Qed.

Lemma terminal_result_raised P f x e h ex w w1 :
  item_step w w1 -> cache_inv w1 ->
  is_callback_by f e = true -> P e ->
  event_handler e = Some h -> handler_of x h -> handler_exn h = Some ex ->
  terminal_result P f x w (Raise ex (emitted e w1)).
Proof.
  intros Hs Hc He HP Hh Hof Hex. split; [| split]; cbn.
  - by apply emitted_cache_inv.
  - etrans; [by apply item_step_fetcher_step |]. apply emitted_fetcher_step.
  - destruct Hs as [_ Hf Ht Ha _]. split; [done |]. split; [done |].
    right. exists e, h. rewrite Ht. auto 10.
Qed.

Lemma terminal_result_silent P f x ex w w1 :
  item_step w w1 -> cache_inv w1 ->
  terminal_result P f x w (Raise ex w1).
Proof.
  intros Hs Hc. split; [| split]; cbn; auto.
  - by apply item_step_fetcher_step.
  - destruct Hs as [_ Hf Ht Ha _]. auto.
Qed.

(** From the callback [e] of [f], once its handler has returned, to the
    end of [error] and [timeout]. *)
Lemma finish_after_callback (P : event -> Prop) f x e a w w1 :
  fetchers_store w !! f = Some x ->
  item_step w w1 -> cache_inv w1 ->
  is_callback_by f e = true -> P e ->
  let m := invalidate_object a "stale" ≫= fun _ => _deactivate f in
  terminal_result P f x w (m (emitted e w1)) /\
  exists w', m (emitted e w1) = Ok tt w'.
Proof.
  intros Hx Hs1 Hc1 He HP m. subst m.
  assert (Hg3 : good no_exn (emitted e w1)
                  (invalidate_object a "stale" (emitted e w1))).
  { apply invalidate_object_good; [by apply emitted_cache_inv | discriminate]. }
  destruct (good_no_exn_Ok _ _ Hg3) as ([] & w3 & Hrun3).
  rewrite run_bind, Hrun3.
  destruct (good_Ok_inv _ _ _ _ _ Hg3 Hrun3) as (Hc3 & Hs3).
  destruct Hs1 as [Hws1 Hf1 Ht1 Ha1 Hfc1].
  pose proof Hs3 as [Hws3 Hf3 Ht3 Ha3 Hfc3]. cbn in Hf3, Ht3, Ha3, Hfc3.
  assert (Hx3 : fetchers_store w3 !! f = Some x) by (by rewrite Hf3, Hf1).
  rewrite (_deactivate_run f x w3 Hx3).
  split; [| eauto]. split; [| split]; cbn [final_world].
  - by apply deactivated_world_cache_inv.
  - etrans; [apply item_step_fetcher_step; by constructor |].
    etrans; [apply (emitted_fetcher_step e) |].
    etrans; [by apply item_step_fetcher_step |].
    by apply deactivated_world_fetcher_step.
  - unfold finished. cbn. rewrite Hf3, Hf1, Ha3, Ha1, Ht3, Ht1.
    split; [done |]. split; [done |]. eauto.
Qed.

Lemma got_it_result f x v st w :
  cache_inv w -> fetchers_store w !! f = Some x -> active x = true ->
  terminal_result (got_it_event f x v st) f x w (got_it f v st w).
Proof.
  intros Hc Hx Hact.
  unfold got_it. rewrite run_bind, (read_fetcher_run f x) by done.
  rewrite Hact. cbn [negb]. rewrite run_bind.
  pose proof (CacheItem__init__good (fetcher_address x) v
                (_item_freshness_period x) (_item_expiration_period x)
                (_item_purge_period x) st w Hc) as Hg.
  destruct (CacheItem__init__ _ _ _ _ _ _ w) as [i w1 | e w1] eqn:Hrun.
  - destruct (good_Ok_inv _ _ _ _ _ Hg eq_refl) as (Hc1 & Hs1).
    apply CacheItem__init__Ok in Hrun as (it & Hw1 & Hi & Ha & Hv & Hst & _).
    assert (Hit : items_store w1 !! i = Some it).
    { rewrite Hw1, Hi. cbn. apply list_lookup_middle. reflexivity. }
    rewrite run_bind, (call_object_handler_called _ _ _ it) by done.
    rewrite Ha, Hv, Hst.
    set (e := ObjectHandlerCall _ _ _ _ _).
    assert (He : is_callback_by f e = true)
      by (subst e; rewrite is_callback_by_object;
          apply bool_decide_callback_self).
    unfold called.
    destruct (handler_exn (_object_handler x)) as [ex |] eqn:Hex.
    { apply (terminal_result_raised _ f x e (_object_handler x)); auto.
      - reflexivity.
      - by left. }
    assert (Hg3 : good no_exn (emitted e w1) (add_item i (emitted e w1))).
    { apply add_item_good; [by apply emitted_cache_inv |]. cbn.
      eapply lookup_lt_Some; eauto. }
    destruct (good_no_exn_Ok _ _ Hg3) as (s & w3 & Hrun3).
    rewrite run_bind, Hrun3.
    destruct (good_Ok_inv _ _ _ _ _ Hg3 Hrun3) as (Hc3 & Hs3).
    pose proof Hs1 as [Hws1 Hf1 Ht1 Ha1 Hfc1].
    pose proof Hs3 as [Hws3 Hf3 Ht3 Ha3 Hfc3]. cbn in Hf3, Ht3, Ha3, Hfc3.
    assert (Hx3 : fetchers_store w3 !! f = Some x) by (by rewrite Hf3, Hf1).
    rewrite (_deactivate_run f x w3 Hx3).
    split; [| split]; cbn [final_world].
    + by apply deactivated_world_cache_inv.
    + etrans; [by apply item_step_fetcher_step |].
      etrans; [apply (emitted_fetcher_step e) |].
      etrans; [by apply item_step_fetcher_step |].
      by apply deactivated_world_fetcher_step.
    + unfold finished. cbn. rewrite Hf3, Hf1, Ha3, Ha1, Ht3, Ht1.
      split; [done |]. split; [done |]. exists e. done.
  - destruct (good_Raise_inv _ _ _ _ _ Hg eq_refl) as (Hc1 & Hs1).
    by apply terminal_result_silent.
Qed.

Lemma got_it_inactive f x v st w :
  fetchers_store w !! f = Some x -> active x = false ->
  got_it f v st w = Ok tt w.
Proof.
  intros Hx Hact. unfold got_it.
  rewrite run_bind, (read_fetcher_run f x) by done. by rewrite Hact.
Qed.

Lemma error_result f x d w :
  cache_inv w -> fetchers_store w !! f = Some x -> active x = true ->
  terminal_result (error_outcome_event f x d) f x w (error f d w).
Proof.
  intros Hc Hx Hact.
  unfold error. rewrite run_bind, (read_fetcher_run f x) by done.
  rewrite Hact. cbn [negb]. rewrite run_bind.
  pose proof (_try_backup_item_result f x w Hc Hx) as Hb.
  destruct (_try_backup_item f w) as [[|] w1 | e w1].
  - destruct Hb as (w0 & i & it & Hs0 & Hc0 & Htruthy & _ & -> & _).
    cbn [negb when]. rewrite run_bind. cbn [ret].
    apply finish_after_callback; auto.
    + rewrite backup_event_callback. apply bool_decide_callback_self.
    + right. split; [done | eauto].
  - destruct Hb as (Hs1 & Hc1).
    cbn [negb when]. rewrite run_bind, call_error_handler_called.
    unfold called.
    destruct (handler_exn _) as [ex |] eqn:Hex.
    + apply (terminal_result_raised _ f x _
               (error_callable_handler (_error_handler x))); auto.
      * rewrite error_event_callback. apply bool_decide_callback_self.
      * by left.
      * apply error_event_handler.
      * right. by left.
    + apply finish_after_callback; auto.
      * rewrite error_event_callback. apply bool_decide_callback_self.
      * by left.
  - destruct Hb
      as [(Hs1 & Hc1) | (w0 & i & it & Hs0 & Hc0 & Ht & _ & -> & Hex)].
    + by apply terminal_result_silent.
    + apply (terminal_result_raised _ f x _ (_object_handler x)); auto.
      * rewrite backup_event_callback. apply bool_decide_callback_self.
      * right. split; [done | eauto].
      * by left.
Qed.

Lemma timeout_result f x w :
  cache_inv w -> fetchers_store w !! f = Some x -> active x = true ->
  terminal_result (timeout_outcome_event f x) f x w (timeout f w).
Proof.
  intros Hc Hx Hact.
  unfold timeout. rewrite run_bind, (read_fetcher_run f x) by done.
  rewrite Hact. cbn [negb]. rewrite run_bind.
  pose proof (_try_backup_item_result f x w Hc Hx) as Hb.
  destruct (_try_backup_item f w) as [[|] w1 | e w1].
  - destruct Hb as (w0 & i & it & Hs0 & Hc0 & Htruthy & _ & -> & _).
    cbn [negb when]. rewrite run_bind. cbn [ret].
    apply finish_after_callback; auto.
    + rewrite backup_event_callback. apply bool_decide_callback_self.
    + right. split; [done | eauto].
  - destruct Hb as (Hs1 & Hc1).
    cbn [negb when]. rewrite run_bind, timeout_call_called.
    unfold called.
    destruct (handler_exn _) as [ex |] eqn:Hex.
    + apply (terminal_result_raised _ f x _ (timeout_callable x)); auto.
      * rewrite timeout_event_callback. apply bool_decide_callback_self.
      * by left.
      * apply timeout_event_handler.
      * apply handler_of_timeout_callable.
    + apply finish_after_callback; auto.
      * rewrite timeout_event_callback. apply bool_decide_callback_self.
      * by left.
  - destruct Hb
      as [(Hs1 & Hc1) | (w0 & i & it & Hs0 & Hc0 & Ht & _ & -> & Hex)].
    + by apply terminal_result_silent.
    + apply (terminal_result_raised _ f x _ (_object_handler x)); auto.
      * rewrite backup_event_callback. apply bool_decide_callback_self.
      * right. split; [done | eauto].
      * by left.
Qed.

Lemma error_inactive f x d w :
  fetchers_store w !! f = Some x -> active x = false ->
  error f d w = Ok tt w.
Proof.
  intros Hx Hact. unfold error.
  rewrite run_bind, (read_fetcher_run f x) by done. by rewrite Hact.
Qed.

Lemma timeout_inactive f x w :
  fetchers_store w !! f = Some x -> active x = false ->
  timeout f w = Ok tt w.
Proof.
  intros Hx Hact. unfold timeout.
  rewrite run_bind, (read_fetcher_run f x) by done. by rewrite Hact.
Qed.

Lemma terminal_result_settled P f x w r :
  terminal_result P f x w r -> settled w r.
Proof. intros (? & ? & _). by split. Qed.

Lemma got_it_settled f v st w : cache_inv w -> settled w (got_it f v st w).
Proof.
  intros Hc. destruct (fetchers_store w !! f) as [x |] eqn:Hx.
  - destruct (active x) eqn:Hact.
    + eapply terminal_result_settled. by apply got_it_result.
    + rewrite (got_it_inactive f x) by done. by apply settled_intro.
  - unfold got_it. rewrite run_bind, read_fetcher_dangling by done.
    by apply settled_intro.
Qed.

Lemma error_settled f d w : cache_inv w -> settled w (error f d w).
Proof.
  intros Hc. destruct (fetchers_store w !! f) as [x |] eqn:Hx.
  - destruct (active x) eqn:Hact.
    + eapply terminal_result_settled. by apply error_result.
    + rewrite (error_inactive f x) by done. by apply settled_intro.
  - unfold error. rewrite run_bind, read_fetcher_dangling by done.
    by apply settled_intro.
Qed.

Lemma timeout_settled f w : cache_inv w -> settled w (timeout f w).
Proof.
  intros Hc. destruct (fetchers_store w !! f) as [x |] eqn:Hx.
  - destruct (active x) eqn:Hact.
    + eapply terminal_result_settled. by apply timeout_result.
    + rewrite (timeout_inactive f x) by done. by apply settled_intro.
  - unfold timeout. rewrite run_bind, read_fetcher_dangling by done.
    by apply settled_intro.
Qed.

(** ** The terminal methods in an orderly application *)



Lemma call_error_handler_run f h a d w :
  returns (error_callable_handler h) = true ->
  call_error_handler f h a d w = Ok tt (emitted (error_event f h a d) w).
Proof.
  intros Hh. rewrite call_error_handler_called. by apply called_returns.
Qed.













(** ** request_object *)

Lemma CacheFetcher__init__run cls a fp ep pp oh eh th tp bs w :
  deadline_in_range (clock w (reads w)) tp ->
  let x :=
    mkCacheFetcher a fp ep pp oh eh th
      (if truthy_period tp then clock w (reads w) + default 0 tp
       else datetime_max) bs true cls in
  CacheFetcher__init__ cls a fp ep pp oh eh th tp bs w =
    Ok (length (fetchers_store w)) (fetcher_world x tp w).
Proof.
  intros Hr x. unfold CacheFetcher__init__. rewrite run_bind.
  subst x. unfold fetcher_world, deadline_in_range in *.
  destruct (truthy_period tp).
  - rewrite run_bind. cbn. unfold datetime_add.
    destruct (Hr eq_refl) as [H1 H2].
    apply Z.leb_le in H1, H2. rewrite H1, H2. reflexivity.
  - reflexivity.
Qed.

Lemma CacheFetcher__init__Raise cls a fp ep pp oh eh th tp bs w e w' :
  CacheFetcher__init__ cls a fp ep pp oh eh th tp bs w = Raise e w' ->
  w' = clock_read w.
Proof.
  unfold CacheFetcher__init__. rewrite run_bind.
  destruct (truthy_period tp); [| discriminate].
  rewrite run_bind. cbn. fold (clock_read w).
  destruct (datetime_add _ _ _) as [d w1 |] eqn:H; [discriminate |].
  apply datetime_add_Raise in H as ->. by intros [= _ <-].
Qed.

Lemma CacheFetcher__init__Ok cls a fp ep pp oh eh th tp bs w f w' :
  CacheFetcher__init__ cls a fp ep pp oh eh th tp bs w = Ok f w' ->
  deadline_in_range (clock w (reads w)) tp /\
  f = length (fetchers_store w) /\
  w' = fetcher_world
         (mkCacheFetcher a fp ep pp oh eh th
            (if truthy_period tp then clock w (reads w) + default 0 tp
             else datetime_max) bs true cls) tp w.
Proof.
  unfold CacheFetcher__init__, deadline_in_range, fetcher_world.
  rewrite run_bind.
  destruct (truthy_period tp).
  - rewrite run_bind. cbn.
    destruct (datetime_add _ _ _) as [d w1 |] eqn:H; [| discriminate].
    apply datetime_add_Ok in H as (-> & -> & Hr).
    cbn. intros [= <- <-]. auto.
  - cbn. intros [= <- <-]. split; [discriminate | auto].
Qed.

Lemma fetch_run f x w :
  fetchers_store w !! f = Some x ->
  fetch f w =
    match fetcher_class_of x with
    | FetcherSubclass => Ok tt (emitted (FetchCall f) w)
    | FetcherCallingGotIt v st => got_it f v st (emitted (FetchCall f) w)
    | FetcherCallingError d => error f d (emitted (FetchCall f) w)
    | FetcherRaising e => Raise e (emitted (FetchCall f) w)
    | CacheFetcherItself =>
        Raise (RuntimeError "Pure virtual method called") w
    end.
Proof.
  intros Hx. unfold fetch. rewrite run_bind, (read_fetcher_run f x) by done.
  by destruct (fetcher_class_of x).
Qed.

Lemma fetch_settled f w : cache_inv w -> settled w (fetch f w).
Proof.
  intros Hc. destruct (fetchers_store w !! f) as [x |] eqn:Hx.
  - rewrite (fetch_run f x) by done.
    pose proof (emitted_cache_inv (FetchCall f) w Hc) as Hc1.
    pose proof (emitted_fetcher_step (FetchCall f) w) as Hs1.
    destruct (fetcher_class_of x); try (by apply settled_intro).
    + eapply settled_step_l; [done | by apply got_it_settled].
    + eapply settled_step_l; [done | by apply error_settled].
  - unfold fetch. rewrite run_bind, read_fetcher_dangling by done.
    by apply settled_intro.
Qed.

(** The call of the object handler with the item found. *)
Lemma hit_call oh item w1 :
  (forall i, item = Some i -> is_Some (items_store w1 !! i)) ->
  match item with
  | Some i => call_object_handler None oh i
  | None => ret tt
  end w1 =
  match item, handler_exn oh with
  | Some _, Some ex => Raise ex (hit_world oh item w1)
  | _, _ => Ok tt (hit_world oh item w1)
  end.
Proof.
  intros Hvalid. unfold hit_world. destruct item as [i |]; [| reflexivity].
  destruct (Hvalid i eq_refl) as [it Hit]. rewrite Hit.
  rewrite (call_object_handler_called _ _ _ it) by done.
  unfold called. by destruct (handler_exn oh).
Qed.

Lemma hit_world_cache oh item w : cache (hit_world oh item w) = cache w.
Proof.
  unfold hit_world. destruct item; [destruct (_ !! _) |]; reflexivity.
Qed.

Lemma hit_world_fetchers oh item w :
  fetchers_store (hit_world oh item w) = fetchers_store w.
Proof.
  unfold hit_world. destruct item; [destruct (_ !! _) |]; reflexivity.
Qed.

Lemma hit_world_fetcher_step oh item w : fetcher_step w (hit_world oh item w).
Proof.
  unfold hit_world. destruct item as [i |]; [| reflexivity].
  destruct (items_store w !! i); [apply emitted_fetcher_step | reflexivity].
Qed.

Lemma hit_world_cache_inv oh item w :
  cache_inv w -> cache_inv (hit_world oh item w).
Proof.
  intros Hc. unfold hit_world. destruct item as [i |]; [| done].
  destruct (items_store w !! i); [by apply emitted_cache_inv | done].
Qed.

Lemma fetcher_world_cache_inv x tp w :
  cache_inv w -> cache_inv (fetcher_world x tp w).
Proof. intros H. apply (cache_inv_same_items w); [reflexivity .. | done]. Qed.

Lemma fetcher_world_step x tp w : world_step w (fetcher_world x tp w).
Proof.
  constructor; cbn; auto.
  - destruct (truthy_period tp); lia.
  - intros i it Hi. exists it. split; [done | reflexivity].
  - intros f y Hy. exists y.
    split; [by apply lookup_app_l_Some | reflexivity].
Qed.

Lemma listed_world_step x f w : world_step w (listed_world x f w).
Proof.
  constructor; cbn; auto.
  - intros i it Hi. exists it. split; [done | reflexivity].
  - intros g y Hy. exists y. split; [done | reflexivity].
Qed.

(** The rest of [request_object] once the lookup has returned. *)
Lemma request_object_after_lookup a st oh eh th bs tp fp ep pp w item w1 :
  cache_inv w1 ->
  get_item a st w = Ok item w1 ->
  (forall i, item = Some i -> is_Some (items_store w1 !! i)) ->
  let w2 := hit_world oh item w1 in
  let f := length (fetchers_store w2) in
  request_object a st oh eh th bs tp fp ep pp w =
    match item, handler_exn oh with
    | Some _, Some ex => Raise ex w2
    | _, _ =>
    match _fetcher (cache w2) with
    | None =>
        Raise (AttributeError "Cache instance has no attribute '_fetcher'") w2
    | Some None => Raise (TypeError "No cache fetcher defined") w2
    | Some (Some cls) =>
        let x := requested_fetcher (cache w2) (clock w2 (reads w2))
                   a oh eh th bs tp fp ep pp cls in
        match CacheFetcher__init__ cls a
                (_item_freshness_period x) (_item_expiration_period x)
                (_item_purge_period x) oh (_error_handler x) th tp bs w2
        with
        | Raise e w3 => Raise e w3
        | Ok _ w3 =>
            match fetch f w3 with
            | Ok _ w4 => Ok tt (listed_world x f w4)
            | Raise e w4 => Raise e w4
            end
        end
    end
    end.
Proof.
  intros Hc1 Hget Hvalid w2 f. unfold request_object.
  rewrite run_bind, Hget, run_bind.
  rewrite hit_call by done. fold w2.
  assert (Hc2 : cache_inv w2) by (by apply hit_world_cache_inv).
  destruct item as [i |], (handler_exn oh) as [ex |]; try reflexivity.
  all: rewrite run_bind; cbn [get_cache].
  all: destruct (_fetcher (cache w2)) as [[cls |] |]; [| reflexivity ..].
  all: cbv zeta; rewrite run_bind.
  all: set (x := requested_fetcher _ _ _ _ _ _ _ _ _ _ _ _).
  all: change (match eh with
               | Some h => UserErrorHandler h
               | None => DefaultErrorHandler oh
               end) with (_error_handler x).
  all: change (default (default_freshness_period (cache w2)) fp)
         with (_item_freshness_period x).
  all: change (default (default_expiration_period (cache w2)) ep)
         with (_item_expiration_period x).
  all: change (default (default_purge_period (cache w2)) pp)
         with (_item_purge_period x).
  all: destruct (CacheFetcher__init__ _ _ _ _ _ _ _ _ _ _ w2)
         as [f' w3 | e w3] eqn:Hinit; [| reflexivity].
  all: apply CacheFetcher__init__Ok in Hinit as (_ & -> & ->); fold f; fold x.
  all: rewrite run_bind.
  all: pose proof (fetch_settled f (fetcher_world x tp w2)
                     (fetcher_world_cache_inv x tp w2 Hc2)) as [_ Hs4].
  all: destruct (fetch f _) as [[] w4 | e w4]; [| reflexivity].
  all: cbn [final_world] in Hs4.
  all: assert (Hx : fetchers_store (fetcher_world x tp w2) !! f = Some x)
         by (cbn; apply list_lookup_middle; reflexivity).
  all: destruct (step_fetchers _ _ (fstep_world _ _ Hs4) _ _ Hx)
         as (y & Hy & Hsame).
  all: rewrite run_bind, (read_fetcher_run f y) by done.
  all: rewrite (same_fetcher_timeout_time _ _ Hsame).
  all: reflexivity.
Qed.





Lemma listing_inv_ids_lt w f :
  listing_inv w -> f ∈ (_active_fetchers (cache w)).*2 ->
  (f < length (fetchers_store w))%nat.
Proof.
  intros Hf Hin. apply list_elem_of_fmap in Hin as ([t g] & -> & Hin).
  destruct (linv_entries _ Hf t g Hin) as (x & Hx & _).
  eapply lookup_lt_Some; eauto.
Qed.



Lemma steady_step_l {A} w w1 (r : result A) :
  world_step w w1 -> steady w1 r -> steady w r.
Proof. intros Hs [? ?]. split; [done | etrans; eauto]. Qed.

Lemma steady_intro {A} w (r : result A) :
  general_inv (final_world r) -> world_step w (final_world r) -> steady w r.
Proof. by split. Qed.


Lemma same_listing w w' :
  fetchers_store w' = fetchers_store w ->
  _active_fetchers (cache w') = _active_fetchers (cache w) ->
  listing_inv w -> listing_inv w'.
Proof. intros Hs Hl []. constructor; rewrite ?Hs, ?Hl; auto. Qed.

Lemma fetcher_world_listing x tp w :
  listing_inv w -> listing_inv (fetcher_world x tp w).
Proof.
  intros [He Hs Hnd]. constructor; cbn; auto.
  intros t f Hin. destruct (He t f Hin) as (y & Hy & ?).
  exists y. split; [by apply lookup_app_l_Some | done].
Qed.

Lemma listed_world_listing x y f w :
  listing_inv w -> fetchers_store w !! f = Some y ->
  timeout_time y = timeout_time x ->
  f ∉ (_active_fetchers (cache w)).*2 ->
  listing_inv (listed_world x f w).
Proof.
  intros [He Hs Hnd] Hy Ht Hf.
  pose proof (merge_sort_Permutation entry_le
                (_active_fetchers (cache w) ++ [(timeout_time x, f)])) as Hp.
  constructor; cbn.
  - intros t g Hin. rewrite Hp in Hin.
    apply elem_of_app in Hin as [Hin | Hin]; [auto |].
    apply list_elem_of_singleton in Hin as [= -> ->]. eauto.
  - apply StronglySorted_merge_sort; apply _.
  - rewrite Hp, fmap_app. cbn. apply NoDup_app.
    split; [done |]. split; [| apply NoDup_singleton].
    intros g Hg Hg'. apply list_elem_of_singleton in Hg' as ->. done.
Qed.

(** Whatever the application does, [request_object] keeps the invariants
    of the items and of the list of fetchers. *)
Lemma request_object_steady a st oh eh th bs tp fp ep pp w :
  general_inv w -> steady w (request_object a st oh eh th bs tp fp ep pp w).
Proof.
  intros [Hc Hl].
  pose proof (get_item_good (fun _ => True) a st w Hc (fun _ => I)) as Hg.
  destruct (get_item a st w) as [item w1 | e w1] eqn:Hget.
  - destruct (good_Ok_inv _ _ _ _ _ Hg eq_refl) as (Hc1 & Hs1).
    pose proof (fetcher_step_listing _ _ Hl (item_step_fetcher_step _ _ Hs1))
      as Hl1.
    rewrite (request_object_after_lookup _ _ _ _ _ _ _ _ _ _ _ _ _ Hc1 Hget).
    2:{ intros i ->. destruct (get_item_result _ _ _ _ _ Hget)
          as (_ & it & _ & Hit & _). eauto. }
    pose proof (hit_world_cache_inv oh item w1 Hc1) as Hc2.
    pose proof (hit_world_fetcher_step oh item w1) as Hs2.
    pose proof (fetcher_step_listing _ _ Hl1 Hs2) as Hl2.
    set (w2 := hit_world oh item w1) in *.
    apply (steady_step_l _ w1); [apply Hs1 |].
    apply (steady_step_l _ w2); [apply Hs2 |].
    assert (Hquit : forall ex, steady (A := unit) w2 (Raise ex w2))
      by (intros ex; by apply steady_intro).
    assert (Hrest :
      steady w2
        match _fetcher (cache w2) with
        | None =>
            Raise
              (AttributeError "Cache instance has no attribute '_fetcher'") w2
        | Some None => Raise (TypeError "No cache fetcher defined") w2
        | Some (Some cls) =>
            let x := requested_fetcher (cache w2) (clock w2 (reads w2))
                       a oh eh th bs tp fp ep pp cls in
            match CacheFetcher__init__ cls a
                    (_item_freshness_period x) (_item_expiration_period x)
                    (_item_purge_period x) oh (_error_handler x) th tp bs w2
            with
            | Raise e w3 => Raise e w3
            | Ok _ w3 =>
                match fetch (length (fetchers_store w2)) w3 with
                | Ok _ w4 =>
                    Ok tt (listed_world x (length (fetchers_store w2)) w4)
                | Raise e w4 => Raise e w4
                end
            end
        end).
    { destruct (_fetcher (cache w2)) as [[cls |] |]; [| by apply Hquit ..].
      cbv zeta.
      set (x := requested_fetcher _ _ _ _ _ _ _ _ _ _ _ _).
      destruct (CacheFetcher__init__ _ _ _ _ _ _ _ _ _ _ w2)
        as [f' w3 | e w3] eqn:Hinit.
      - apply CacheFetcher__init__Ok in Hinit as (_ & -> & ->). fold x.
        set (f := length (fetchers_store w2)).
        change (fetcher_world _ tp w2) with (fetcher_world x tp w2).
        set (w3 := fetcher_world x tp w2).
        pose proof (fetcher_world_cache_inv x tp w2 Hc2) as Hc3.
        pose proof (fetcher_world_listing x tp w2 Hl2) as Hl3.
        apply (steady_step_l _ w3); [apply fetcher_world_step |].
        destruct (fetch_settled f w3 Hc3) as [Hc4 Hs4].
        pose proof (fetcher_step_listing _ _ Hl3 Hs4) as Hl4.
        destruct (fetch f w3) as [[] w4 | e w4]; cbn [final_world] in *.
        + apply steady_intro; cbn [final_world].
          2:{ etrans; [apply Hs4 | apply listed_world_step]. }
          assert (Hx : fetchers_store w3 !! f = Some x)
            by (cbn; apply list_lookup_middle; reflexivity).
          destruct (step_fetchers _ _ (fstep_world _ _ Hs4) _ _ Hx)
            as (y & Hy & Hsame).
          constructor.
          * apply (cache_inv_same_items w4); [reflexivity .. | done].
          * apply (listed_world_listing x y); auto.
            -- by apply same_fetcher_timeout_time.
            -- intros Hin.
               assert (Hin3 : f ∈ (_active_fetchers (cache w3)).*2).
               { eapply sublist_subseteq; [| exact Hin].
                 apply fmap_sublist, Hs4. }
               pose proof (listing_inv_ids_lt _ _ Hl2 Hin3). subst f. lia.
        + apply steady_intro; [by constructor | apply Hs4].
      - apply CacheFetcher__init__Raise in Hinit as ->.
        destruct (clock_read_good (A := unit) no_exn tt w2 Hc2)
          as (Hc3 & Hs3 & _).
        apply steady_intro; cbn.
        + constructor; [done |].
          by apply (fetcher_step_listing w2), item_step_fetcher_step.
        + apply Hs3. }
    destruct item as [i |], (handler_exn oh) as [ex |]; auto.
  - destruct (good_Raise_inv _ _ _ _ _ Hg eq_refl) as (Hc1 & Hs1).
    assert (Hrun : request_object a st oh eh th bs tp fp ep pp w
                   = Raise e w1).
    { unfold request_object. by rewrite run_bind, Hget. }
    rewrite Hrun. apply steady_intro; cbn; [| apply Hs1].
    constructor; [done |].
    by apply (fetcher_step_listing w), item_step_fetcher_step.
Qed.


Lemma requested_fetcher_defaults c c' now a oh eh th bs tp fp ep pp cls :
  default_freshness_period c' = default_freshness_period c ->
  default_expiration_period c' = default_expiration_period c ->
  default_purge_period c' = default_purge_period c ->
  requested_fetcher c' now a oh eh th bs tp fp ep pp cls
  = requested_fetcher c now a oh eh th bs tp fp ep pp cls.
Proof. unfold requested_fetcher. by intros -> -> ->. Qed.

Lemma hit_world_trace oh item w1 :
  (forall i, item = Some i -> is_Some (items_store w1 !! i)) ->
  match item with
  | Some i =>
      exists it, items_store w1 !! i = Some it /\
        trace (hit_world oh item w1) =
          trace w1 ++ [ObjectHandlerCall None oh (address it)
                         (Some (value it)) (state it)]
  | None => trace (hit_world oh item w1) = trace w1
  end.
Proof.
  intros Hv. destruct item as [i |]; [| reflexivity].
  destruct (Hv i eq_refl) as [it Hit]. exists it. split; [done |].
  unfold hit_world. by rewrite Hit.
Qed.

(** What [request_object] does, called with a state name of
    [_state_values] and an object handler that returns on a cache that
    satisfies the invariant: it first looks the item up with [get_item];
    an item found is handed to the object handler at once, with its
    address, value and state.  Then, hit or miss: without the attribute
    [_fetcher] the call raises [AttributeError], with [_fetcher] being
    [None] it raises [TypeError] (no cache fetcher defined); otherwise a
    fetcher is made from the registered class with the given periods or
    the defaults of the cache and its [fetch] is called; when [fetch]
    returns, the pair of the deadline and the fetcher is added to
    [_active_fetchers], which is sorted, and when it raises, so does the
    call. *)
Lemma request_object_always_fetches a st oh eh th bs tp fp ep pp w :
  cache_inv w ->
  is_Some (_state_values st) ->
  returns oh = true ->
  exists item w1,
    get_item a st w = Ok item w1 /\
    match item with
    | Some i =>
        exists it, items_store w1 !! i = Some it /\
          trace (hit_world oh item w1) =
            trace w ++ [ObjectHandlerCall None oh (address it)
                          (Some (value it)) (state it)]
    | None => trace (hit_world oh item w1) = trace w
    end /\
    let w2 := hit_world oh item w1 in
    let f := length (fetchers_store w) in
    let call := request_object a st oh eh th bs tp fp ep pp w in
    match _fetcher (cache w) with
    | None =>
        call =
          Raise (AttributeError "Cache instance has no attribute '_fetcher'")
            w2
    | Some None => call = Raise (TypeError "No cache fetcher defined") w2
    | Some (Some cls) =>
        let x := requested_fetcher (cache w) (clock w2 (reads w2))
                   a oh eh th bs tp fp ep pp cls in
        deadline_in_range (clock w2 (reads w2)) tp ->
        let w3 := fetcher_world x tp w2 in
        match cls with
        | FetcherSubclass =>
            exists w',
              call = Ok tt w' /\
              fetchers_store w' = fetchers_store w ++ [x] /\
              trace w' = trace w2 ++ [FetchCall f] /\
              _active_fetchers (cache w') =
                merge_sort entry_le
                  (_active_fetchers (cache w) ++ [(timeout_time x, f)]) /\
              StronglySorted entry_le (_active_fetchers (cache w')) /\
              _active_fetchers (cache w')
                ≡ₚ (timeout_time x, f) :: _active_fetchers (cache w)
        | FetcherCallingGotIt v st' =>
            call =
              match got_it f v st' (emitted (FetchCall f) w3) with
              | Ok _ w4 => Ok tt (listed_world x f w4)
              | Raise e w4 => Raise e w4
              end
        | FetcherCallingError d =>
            call =
              match error f d (emitted (FetchCall f) w3) with
              | Ok _ w4 => Ok tt (listed_world x f w4)
              | Raise e w4 => Raise e w4
              end
        | FetcherRaising e => call = Raise e (emitted (FetchCall f) w3)
        | CacheFetcherItself =>
            call = Raise (RuntimeError "Pure virtual method called") w3
        end
    end.
Proof.
  intros Hc Hst Hoh.
  assert (Hg : good no_exn w (get_item a st w)).
  { apply get_item_good; [done |]. intros H. destruct Hst. congruence. }
  destruct (good_no_exn_Ok _ _ Hg) as (item & w1 & Hget).
  destruct (good_Ok_inv _ _ _ _ _ Hg Hget) as (Hc1 & Hs1).
  exists item, w1. split; [done |].
  assert (Hvalid : forall i, item = Some i -> is_Some (items_store w1 !! i)).
  { intros i ->. destruct (get_item_result _ _ _ _ _ Hget)
      as (_ & it & _ & Hit & _). eauto. }
  split.
  { pose proof (hit_world_trace oh item w1 Hvalid) as H.
    rewrite (item_step_trace _ _ Hs1) in H. exact H. }
  intros w2 f call. subst call.
  rewrite (request_object_after_lookup _ _ _ _ _ _ _ _ _ _ _ _ _ Hc1 Hget
             Hvalid).
  fold w2.
  apply returns_handler_exn in Hoh. rewrite Hoh.
  assert (Hcache : cache w2 = cache w1) by apply hit_world_cache.
  assert (Hstore : fetchers_store w2 = fetchers_store w).
  { rewrite <- (item_step_fetchers _ _ Hs1). apply hit_world_fetchers. }
  rewrite Hcache, (item_step_fetcher _ _ Hs1), Hstore. fold f.
  destruct (_fetcher (cache w)) as [[cls |] |];
    [| by destruct item ..].
  cbv zeta.
  pose proof (item_world_step _ _ Hs1) as Hws.
  rewrite (requested_fetcher_defaults (cache w) (cache w1))
    by (destruct Hws; done).
  set (x := requested_fetcher _ _ _ _ _ _ _ _ _ _ _ _).
  intros Hdl.
  rewrite (CacheFetcher__init__run cls a _ _ _ oh _ th tp bs w2 Hdl).
  change (fetcher_world _ tp w2) with (fetcher_world x tp w2).
  assert (Hx : fetchers_store (fetcher_world x tp w2) !! f = Some x).
  { cbn. rewrite Hstore. apply list_lookup_middle. reflexivity. }
  rewrite (fetch_run f x) by done.
  change (fetcher_class_of x) with cls.
  destruct cls; try (by destruct item).
  assert (Hgoal : exists w',
    Ok tt (listed_world x f (emitted (FetchCall f) (fetcher_world x tp w2)))
    = Ok tt w' /\
    fetchers_store w' = fetchers_store w ++ [x] /\
    trace w' = trace w2 ++ [FetchCall f] /\
    _active_fetchers (cache w') =
      merge_sort entry_le
        (_active_fetchers (cache w) ++ [(timeout_time x, f)]) /\
    StronglySorted entry_le (_active_fetchers (cache w')) /\
    _active_fetchers (cache w')
      ≡ₚ (timeout_time x, f) :: _active_fetchers (cache w)).
  { eexists. split; [reflexivity |]. cbn.
    rewrite Hstore, Hcache, (item_step_active _ _ Hs1).
    split; [done |]. split; [done |]. split; [done |].
    split; [apply StronglySorted_merge_sort; apply _ |].
    rewrite merge_sort_Permutation. by rewrite Permutation_app_comm. }
  by destruct item.
Qed.

Lemma request_object_always_fetches_example :
  cache_inv example_world_cached /\
  is_Some (_state_values "fresh") /\
  returns (Handler 7) = true /\
  exists w',
    request_object "a" "fresh" (Handler 7) None None None (Some 50) None None
      None example_world_cached = Ok tt w' /\
    trace w' =
      [ObjectHandlerCall None (Handler 7) "a" (Some "v") "fresh";
       FetchCall 0] /\
    _active_fetchers (cache w') = [(1051, 0%nat)].
Proof.
  assert (H : cache_inv example_world_cached)
    by (apply cache_inv_b_sound; vm_compute; reflexivity).
  assert (H' : is_Some (_state_values "fresh")) by (exists 1; reflexivity).
  split; [exact H |]. split; [exact H' |]. split; [reflexivity |].
  destruct (request_object_always_fetches "a" "fresh" (Handler 7) None None
              None (Some 50) None None None example_world_cached H H'
              eq_refl) as (item & w1 & Hget & _ & Hcall).
  assert (Hget' : get_item "a" "fresh" example_world_cached
                  = Ok (Some 0%nat) (final_world
                        (get_item "a" "fresh" example_world_cached)))
    by (vm_compute; reflexivity).
  rewrite Hget' in Hget. injection Hget as <- <-.
  cbv zeta in Hcall.
  change (_fetcher (cache example_world_cached))
    with (Some (Some FetcherSubclass)) in Hcall.
  cbv iota beta in Hcall.
  destruct Hcall as (w' & Hrun & _ & Htr & Hlist & _).
  { vm_compute. split; discriminate. }
  exists w'. split; [exact Hrun |]. rewrite Htr, Hlist.
  split; vm_compute; reflexivity.
Defined.

(** C1: on a cache on which [set_fetcher] was never called,
    [request_object] does not fail with the error for a missing fetcher
    class: [__init__] sets [_fetcher_class], the attribute [_fetcher] that
    [request_object] tests does not exist, and the call raises
    [AttributeError].  Once [set_fetcher(None)] has been called the same
    request raises the [TypeError] meant for this case. *)
Theorem request_object_before_set_fetcher :
  let w := initial_world example_clock 10 _hour (12 * _hour) (24 * _hour) in
  request_object "a" "fresh" (Handler 7) None None None (Some 50) None None
    None w
  = Raise (AttributeError "Cache instance has no attribute '_fetcher'") w /\
  request_object "a" "fresh" (Handler 7) None None None (Some 50) None None None
    (final_world (set_fetcher None w))
  = Raise (TypeError "No cache fetcher defined")
      (final_world (set_fetcher None w)).
Proof. split; reflexivity. Qed.

(** ** tick *)








(** *** [tick] returns *)






(** *** [tick], whatever the application does *)

Lemma tick_loop_settled now snapshot w :
  cache_inv w -> settled w (tick_loop now snapshot w).
Proof.
  revert w. induction snapshot as [| [t f] rest IH]; intros w Hc.
  - by apply settled_intro.
  - cbn [tick_loop]. destruct (t >? now); [by apply settled_intro |].
    apply settled_bind; [by apply timeout_settled |].
    intros [] w1 _ Hc1 _. by apply IH.
Qed.

Lemma clock_read_fetcher_step w : fetcher_step w (clock_read w).
Proof.
  constructor; cbn; auto. constructor; cbn; auto.
  - intros i it H. exists it. split; [done | reflexivity].
  - intros f x H. exists x. split; [done | reflexivity].
Qed.

Lemma clock_read_cache_inv w : cache_inv w -> cache_inv (clock_read w).
Proof. intros H. apply (cache_inv_same_items w); [reflexivity .. | done]. Qed.

Lemma tick_settled w : cache_inv w -> settled w (tick w).
Proof.
  intros Hc. unfold tick. rewrite run_bind. cbn [utcnow].
  fold (clock_read w). rewrite run_bind. cbn [get_cache].
  apply (settled_step_l _ (clock_read w)); [apply clock_read_fetcher_step |].
  apply settled_bind.
  - apply tick_loop_settled. by apply clock_read_cache_inv.
  - intros [] w1 _ Hc1 _. eapply settled_good.
    by apply (purge_items_good no_exn).
Qed.

(** *** What [tick] does to the list, whatever the application does *)









(** ** Every call keeps the invariants *)

Lemma settled_discard {A} (m : M A) w :
  settled w (m w) -> settled w (discard m w).
Proof. unfold discard. rewrite run_bind. by destruct (m w). Qed.

Lemma remove_fetcher_settled f w :
  cache_inv w -> settled w (remove_fetcher f w).
Proof.
  intros Hc. unfold remove_fetcher. rewrite run_bind. cbn.
  rewrite remove_fetcher_loop_run.
  destruct (entry_of f (_active_fetchers (cache w))) as [e |] eqn:He;
    [| by apply settled_intro].
  unfold get_cache, put_cache. rewrite !run_bind. cbn.
  set (w1 := mkWorld _ _ _ _ _ _).
  assert (Hc1 : cache_inv w1)
    by (apply (cache_inv_same_items w); [reflexivity .. | done]).
  assert (Hs1 : fetcher_step w w1).
  { constructor; cbn; auto; [| apply list_remove_sublist].
    constructor; cbn; auto.
    - intros i it H. exists it. split; [done | reflexivity].
    - intros g y H. exists y. split; [done | reflexivity]. }
  apply (settled_step_l _ w1); [done |].
  destruct (fetchers_store w1 !! f) as [x |] eqn:Hx.
  - rewrite (_deactivated_run f x) by done. apply settled_intro; cbn.
    + apply (cache_inv_same_items w1); [reflexivity .. | done].
    + pose proof (lookup_lt_Some _ _ _ Hx) as Hlt.
      constructor; cbn; auto; [| by rewrite length_insert].
      constructor; cbn; auto.
      * intros i it H. exists it. split; [done | reflexivity].
      * intros g y H. destruct (decide (f = g)) as [<- | Hne].
        -- exists (set_active x false).
           rewrite list_lookup_insert_eq by done.
           split; [done |]. assert (y = x) as -> by (cbn in Hx; congruence).
           split; [done | discriminate].
        -- exists y. rewrite list_lookup_insert_ne by done.
           split; [done | reflexivity].
  - unfold _deactivated. rewrite run_bind, read_fetcher_dangling by done.
    by apply settled_intro.
Qed.

Lemma set_fetcher_steady fc w : general_inv w -> steady w (set_fetcher fc w).
Proof.
  intros [Hc Hl]. apply steady_intro; cbn.
  - constructor.
    + apply (cache_inv_same_items w); [reflexivity .. | done].
    + apply (same_listing w); [reflexivity .. | done].
  - constructor; cbn; auto.
    + intros i it Hi. exists it. split; [done | reflexivity].
    + intros g y Hy. exists y. split; [done | reflexivity].
Qed.

(** Whatever the application does, a call keeps the invariant of the
    items and the one of the list of fetchers. *)
Lemma run_call_steady c w :
  general_inv w -> call_ok w c = true -> steady w (run_call c w).
Proof.
  intros Hw Hok. pose proof (ginv_cache _ Hw) as Hc.
  pose proof (ginv_listing _ Hw) as Hl.
  destruct c; cbn [run_call call_ok] in *;
    try apply bool_decide_eq_true in Hok.
  - apply settled_steady, settled_discard; [done |].
    eapply settled_good. by apply CacheItem__init__good.
  - by apply request_object_steady.
  - apply settled_steady; [done |]. eapply settled_good.
    by apply (invalidate_object_good (fun _ => True)).
  - apply settled_steady, settled_discard; [done |]. eapply settled_good.
    by apply (add_item_good no_exn).
  - apply settled_steady, settled_discard; [done |]. eapply settled_good.
    by apply (get_item_good (fun _ => True)).
  - apply settled_steady, settled_discard; [done |]. eapply settled_good.
    by apply (update_item_good no_exn).
  - apply settled_steady, settled_discard; [done |].
    unfold num_items. rewrite run_bind. cbn. by apply settled_intro.
  - apply settled_steady; [done |]. eapply settled_good.
    by apply (purge_items_good no_exn).
  - apply settled_steady; [done |]. by apply tick_settled.
  - apply settled_steady; [done |]. by apply remove_fetcher_settled.
  - by apply set_fetcher_steady.
  - apply settled_steady; [done |]. by apply got_it_settled.
  - apply settled_steady; [done |]. by apply error_settled.
  - apply settled_steady; [done |]. by apply timeout_settled.
Qed.

Lemma run_calls_steady cs w :
  general_inv w ->
  general_inv (run_calls cs w) /\ world_step w (run_calls cs w).
Proof.
  revert w. induction cs as [| c cs IH]; intros w Hw; [by split |].
  cbn [run_calls].
  destruct (call_ok w c) eqn:Hok; [| by apply IH].
  destruct (run_call_steady c w Hw Hok) as [Hw1 Hs1].
  destruct (IH _ Hw1) as [Hw2 Hs2]. split; [done | etrans; eauto].
Qed.

Lemma world_inv_general w : world_inv w -> general_inv w.
Proof.
  intros [Hc [He Hs Hnd] _]. constructor; [done |]. constructor; auto.
  intros t f Hin. destruct (He t f Hin) as (x & ? & _ & ?). eauto.
Qed.

Lemma initial_world_inv clk m fp ep pp :
  1 <= m -> world_inv (initial_world clk m fp ep pp).
Proof.
  intros Hm. constructor.
  - constructor; cbn; try done; try lia.
    intros i Hi. by apply elem_of_nil in Hi.
  - constructor; cbn; try constructor.
    intros t f Hin. by apply elem_of_nil in Hin.
  - intros f. unfold callbacks_left, callbacks_by. cbn.
    rewrite lookup_nil. cbn. lia.
Qed.

(** The invariants of the items and of the list of fetchers hold in every
    state that calls can lead to from a new cache with a positive
    [max_items], whatever the handlers and the fetchers do. *)
Lemma reachable_general_inv clk m fp ep pp cs :
  1 <= m -> general_inv (run_calls cs (initial_world clk m fp ep pp)).
Proof.
  intros Hm. by apply run_calls_steady, world_inv_general, initial_world_inv.
Qed.

(** *** Orderly applications *)















(** ** The invariants of the item side *)

(** C6, as stated, fails: after two items with the address [a] and then
    an item with the address [b] have been added to a cache of at most two
    items, the second item with the address [a] is on the list but [a] is
    no key of the dictionary: the purge that made room for the third item
    popped the first item and deleted its key. *)
Lemma keys_lost_after_same_address_added : ~ size_and_keys_always_hold.
Proof.
  intros H.
  assert (Hm : 1 <= 2) by lia.
  pose proof (H example_clock 2 _hour (12 * _hour) (24 * _hour)
                example_calls_same_address Hm) as [_ Hkeys].
  destruct (Hkeys "a") as [_ Hback].
  destruct Hback as [i Hi].
  - exists 1%nat, (mkCacheItem "v2" "a" "fresh" 1002 (1002 + _hour)
                     (1002 + 12 * _hour) (1002 + 24 * _hour) 1).
    split; [| split; [| reflexivity]].
    + vm_compute. apply elem_of_cons. by left.
    + vm_compute. reflexivity.
  - vm_compute in Hi. discriminate.
Qed.

(** C6, amended: after every sequence of calls on a new cache with a
    positive [max_items], whatever the handlers and the fetchers of the
    application do, the list of items is at most [max_items] long,
    and every key of the dictionary leads to an item of the list that has
    the key as its address.  (An item of the list need not have its
    address among the keys.) *)
Theorem size_bound_and_keys_listed clk m fp ep pp cs :
  1 <= m ->
  let w := run_calls cs (initial_world clk m fp ep pp) in
  max_items (cache w) = m /\
  size_within_bound w /\ keys_lead_to_listed_items w.
Proof.
  intros Hm w.
  destruct (run_calls_steady cs (initial_world clk m fp ep pp)
              (world_inv_general _ (initial_world_inv clk m fp ep pp Hm)))
    as [Hw Hs].
  fold w in Hw, Hs.
  split; [apply (step_max_items _ _ Hs) |].
  destruct (ginv_cache _ Hw). split; [done |].
  intros a i Ha. auto.
Qed.

Lemma size_bound_and_keys_listed_witness :
  1 <= 2 /\
  let w := run_calls example_calls_same_address
             (initial_world example_clock 2 _hour (12 * _hour) (24 * _hour)) in
  max_items (cache w) = 2 /\
  size_within_bound w /\ keys_lead_to_listed_items w.
Proof.
  assert (Hm : 1 <= 2) by lia.
  split; [exact Hm |].
  exact (size_bound_and_keys_listed example_clock 2 _hour (12 * _hour)
           (24 * _hour) example_calls_same_address Hm).
Defined.

(** ** The life of a fetcher *)





(** C3 (one terminal callback in the life of a fetcher, after which it
    is inactive and off the list), where the code breaks it.  A request
    is made with a timeout handler that raises.  When [tick] finds the
    deadline passed, [timeout] calls the handler, which raises before
    [_deactivate] is reached: the exception ends [tick], and the fetcher
    is still active and on the list.  The next [tick] calls the handler
    again: the fetcher has made two terminal callbacks.  And a fetcher
    whose [fetch] calls [got_it] before it returns is put on the list of
    the cache after [got_it] has run: it has made its callback, is
    inactive, and is listed. *)
Theorem fetcher_called_back_twice :
  let w0 :=
    initial_world example_clock_fast 10 _hour (12 * _hour) (24 * _hour) in
  (let w1 := run_calls example_calls_handler_raises w0 in
   let w2 := final_world (tick w1) in
   let w3 := final_world (tick w2) in
   tick w1 = Raise (RuntimeError "handler failed") w2 /\
   tick w2 = Raise (RuntimeError "handler failed") w3 /\
   trace w1 = [FetchCall 0] /\
   trace w2 =
     [FetchCall 0; TimeoutHandlerCall 0 example_raising_handler "a"] /\
   trace w3 =
     [FetchCall 0; TimeoutHandlerCall 0 example_raising_handler "a";
      TimeoutHandlerCall 0 example_raising_handler "a"] /\
   callbacks_by 0 (trace w3) = 2%nat /\
   active <$> fetchers_store w3 !! 0%nat = Some true /\
   _active_fetchers (cache w3) = [(1005, 0%nat)]) /\
  (let w := run_calls example_calls_got_it_in_fetch w0 in
   trace w =
     [FetchCall 0;
      ObjectHandlerCall (Some 0%nat) (Handler 7) "a" (Some "v") "new"] /\
   active <$> fetchers_store w !! 0%nat = Some false /\
   _active_fetchers (cache w) = [(1005, 0%nat)]).
Proof. vm_compute. repeat split. Qed.

(** ** tick *)

(** C2 (after [tick] every fetcher left on the list has a deadline
    after the current time), where the code breaks it.  A fetcher whose
    [fetch] calls [got_it] before it returns is inactive when
    [request_object] puts it on the list.  A [tick] after its deadline
    calls [timeout] on it, which does nothing for an inactive fetcher:
    [tick] returns and the entry, whose deadline is before the time
    [tick] read, is still on the list. *)
Theorem tick_leaves_finished_fetcher_listed :
  let w :=
    run_calls example_calls_got_it_in_fetch
      (initial_world example_clock_fast 10 _hour (12 * _hour) (24 * _hour)) in
  let now := clock w (reads w) in
  let w' := final_world (tick w) in
  tick w = Ok tt w' /\
  now = 1030 /\
  _active_fetchers (cache w) = [(1005, 0%nat)] /\
  _active_fetchers (cache w') = [(1005, 0%nat)] /\
  timeout_time <$> fetchers_store w' !! 0%nat = Some 1005 /\
  active <$> fetchers_store w' !! 0%nat = Some false /\
  trace w' = trace w.
Proof. vm_compute. repeat split. Qed.

(** ** The default error handler *)

Lemma _try_backup_item_without_backup f x w :
  fetchers_store w !! f = Some x ->
  truthy_str (_backup_state x) = false ->
  _try_backup_item f w = Ok false w.
Proof.
  intros Hx Hb. unfold _try_backup_item.
  rewrite run_bind, (read_fetcher_run f x) by done. by rewrite Hb.
Qed.






(** * Further properties of the cache *)

(** ** Items *)

(** The outcomes of the constructor of [CacheItem].  A call that returns
    has read the clock once and added one item to the store, made of the
    arguments, the time read and the three deadlines; the periods given
    were in order, so the deadlines are, and they lie in the range of
    [datetime]; [state_value] is the value of the state.  A call that
    raises has made no item: [TypeError] when the periods are out of
    order, [OverflowError] when a deadline is out of range, [KeyError]
    for a state name that [_state_values] does not have. *)
Theorem CacheItem__init__outcome a v fp ep pp st w :
  let now := clock w (reads w) in
  match CacheItem__init__ a v fp ep pp st w with
  | Ok i w' =>
      i = length (items_store w) /\
      fp <= ep <= pp /\
      exists sv,
        _state_values st = Some sv /\
        let it := mkCacheItem v a st now (now + fp) (now + ep)
                    (if pp =? 0 then datetime_max else now + pp) sv in
        w' = mkWorld (clock w) (S (reads w)) (items_store w ++ [it])
               (fetchers_store w) (cache w) (trace w) /\
        datetime_min <= freshness_time it <= expire_time it /\
        expire_time it <= purge_time it <= datetime_max
  | Raise e w' =>
      items_store w' = items_store w /\ cache w' = cache w /\
      match e with
      | TypeError _ => fp > ep \/ ep > pp
      | OverflowError _ =>
          fp <= ep <= pp /\
          ~ (datetime_min <= now + fp /\ now + ep <= datetime_max /\
             (pp <> 0 -> now + pp <= datetime_max))
      | KeyError k => k = st /\ _state_values st = None
      | _ => False
      end
  end.
Proof.
  intros now. unfold CacheItem__init__.
  destruct (Z.gtb_spec fp ep); [cbn; split; [done | split; [done | lia]] |].
  destruct (Z.gtb_spec ep pp); [cbn; split; [done | split; [done | lia]] |].
  unfold utcnow, subscript_state_values, new_item, datetime_add.
  unfold mbind, M_bind, bind. cbn. fold now.
  destruct (Z.leb_spec datetime_min (now + fp));
    destruct (Z.leb_spec (now + fp) datetime_max); cbn;
    try (split; [done | split; [done | split; [lia | lia]]]).
  destruct (Z.leb_spec datetime_min (now + ep));
    destruct (Z.leb_spec (now + ep) datetime_max); cbn;
    try (split; [done | split; [done | split; [lia | lia]]]).
  destruct (Z.eqb_spec pp 0) as [-> | Hpp]; cbn.
  - destruct (_state_values st) as [sv |] eqn:Hsv; cbn.
    + split; [done |]. split; [lia |]. exists sv. split; [done |].
      split; [done |]. unfold datetime_max in *. lia.
    + done.
  - destruct (Z.leb_spec datetime_min (now + pp));
      destruct (Z.leb_spec (now + pp) datetime_max); cbn;
      try (split; [done | split; [done | split; [lia | lia]]]).
    destruct (_state_values st) as [sv |] eqn:Hsv; cbn.
    + split; [done |]. split; [lia |]. exists sv. split; [done |].
      split; [done |]. lia.
    + done.
Qed.

(** An item made with the purge period 0, which stands for no purge by
    age, has [purge_time = datetime.max]; but the guards of the
    constructor let such a call through only when the two other periods
    are not positive: the item is past its expiry from the start, and at
    any time after its timestamp [update_state] finds it stale (or, after
    [datetime.max], purged), never fresh or old. *)
Theorem CacheItem__init__without_purge_is_expired a v fp ep st w i w' :
  CacheItem__init__ a v fp ep 0 st w = Ok i w' ->
  exists it,
    items_store w' !! i = Some it /\
    purge_time it = datetime_max /\
    freshness_time it <= expire_time it <= timestamp it /\
    forall now, timestamp it < now ->
      advance_state now it = "stale" \/ advance_state now it = "purged".
Proof.
  unfold CacheItem__init__.
  destruct (Z.gtb_spec fp ep); [discriminate |].
  destruct (Z.gtb_spec ep 0); [discriminate |].
  unfold utcnow, subscript_state_values, new_item.
  unfold mbind, M_bind, bind. cbn.
  set (t := clock w (reads w)).
  destruct (datetime_add t fp _) as [ft w1 |] eqn:H1; [| discriminate].
  apply datetime_add_Ok in H1 as (-> & -> & Hft).
  destruct (datetime_add t ep _) as [et w2 |] eqn:H2; [| discriminate].
  apply datetime_add_Ok in H2 as (-> & -> & Het).
  destruct (_state_values st) as [sv |] eqn:Hsv; cbn; [| discriminate].
  intros [= <- <-]. cbn.
  eexists. split; [apply list_lookup_middle; reflexivity |]. cbn.
  split; [done |]. split; [lia |].
  intros now Hnow. unfold advance_state. cbn.
  assert (H1 : (now >? t + fp) = true) by (apply Z.gtb_lt; lia).
  assert (H2 : (now >? t + ep) = true) by (apply Z.gtb_lt; lia).
  destruct (_state_values_Some _ _ Hsv) as [-> | [-> | [-> | [-> | ->]]]];
    cbn; rewrite ?H1; cbn; rewrite ?H2; cbn;
    destruct (now >? datetime_max); cbn; auto.
Qed.

Lemma CacheItem__init__without_purge_is_expired_witness :
  exists i w',
    CacheItem__init__ "a" "v" 0 0 0 "new" example_world_one_item = Ok i w' /\
    exists it,
      items_store w' !! i = Some it /\
      purge_time it = datetime_max /\
      freshness_time it <= expire_time it <= timestamp it /\
      forall now, timestamp it < now ->
        advance_state now it = "stale" \/ advance_state now it = "purged".
Proof.
  eexists. eexists.
  assert (H : CacheItem__init__ "a" "v" 0 0 0 "new" example_world_one_item
              = Ok _ _) by (vm_compute; reflexivity).
  split; [exact H |].
  exact (CacheItem__init__without_purge_is_expired _ _ _ _ _ _ _ _ H).
Defined.

(** [update_state] on an item with a state of the chain and with
    deadlines in order (as the constructor makes them) returns the later
    of two states: the state the item had, and the state its deadlines
    dictate at the time read (fresh up to [freshness_time], old up to
    [expire_time], stale up to [purge_time], purged after).  The item
    gets this state and its value. *)
Theorem update_state_by_the_clock w i it :
  items_store w !! i = Some it ->
  valid_item it ->
  deadlines_ordered it ->
  let now := clock w (reads w) in
  let s := later_state (state it) (clock_state now it) in
  exists w' it',
    update_state i w = Ok s w' /\
    items_store w' = <[i := it']> (items_store w) /\
    state it' = s /\ consistent it' /\ same_identity it it'.
Proof.
  intros Hi Hv Hord now s.
  destruct (update_state_run w i it Hi Hv) as (sv & Hsv & Hrun).
  fold now in Hsv, Hrun.
  assert (Hs : advance_state now it = s).
  { subst s. unfold advance_state, clock_state, later_state.
    destruct Hord as [Ho1 Ho2]. destruct Hv as [v Hv].
    destruct (_state_values_Some _ _ Hv) as [-> | [-> | [-> | [-> | ->]]]];
      cbn;
      destruct (Z.gtb_spec now (freshness_time it));
      destruct (Z.gtb_spec now (expire_time it));
      destruct (Z.gtb_spec now (purge_time it)); cbn; try reflexivity; lia. }
  rewrite Hs in Hsv, Hrun.
  eexists. eexists. split; [exact Hrun |]. cbn.
  split; [reflexivity |]. split; [reflexivity |].
  split; [exact Hsv |]. repeat split.
Qed.

Lemma update_state_by_the_clock_witness :
  items_store example_world_one_item !! 0%nat = Some example_new_item /\
  valid_item example_new_item /\
  deadlines_ordered example_new_item /\
  let now := clock example_world_one_item (reads example_world_one_item) in
  let s := later_state (state example_new_item)
             (clock_state now example_new_item) in
  s = "stale" /\
  exists w' it',
    update_state 0 example_world_one_item = Ok s w' /\
    items_store w' = <[0%nat := it']> (items_store example_world_one_item) /\
    state it' = s /\ consistent it' /\ same_identity example_new_item it'.
Proof.
  assert (H1 : items_store example_world_one_item !! 0%nat
               = Some example_new_item) by reflexivity.
  assert (H2 : valid_item example_new_item) by (exists 0; reflexivity).
  assert (H3 : deadlines_ordered example_new_item)
    by (unfold deadlines_ordered; cbn; lia).
  split; [exact H1 |]. split; [exact H2 |]. split; [exact H3 |].
  intros now s. split; [reflexivity |].
  exact (update_state_by_the_clock example_world_one_item 0
           example_new_item H1 H2 H3).
Defined.

(** [self._items_list.sort()] with the order of [CacheItem.__cmp__], the
    tuples of the negated [state_value], the timestamp and the identity:
    the list is rearranged into the one sorted arrangement there is (the
    order is total and no two objects compare equal), and nothing else
    changes.  Of two items of the sorted list the earlier one has the
    greater [state_value], or the same one and a timestamp that is not
    later: the items in the worst state come first, the oldest of them
    at the head, which is where [purge_items] removes. *)
Theorem sort_items_list_worst_first w :
  let store := items_store w in
  exists l,
    sort_items_list w =
      Ok tt (mkWorld (clock w) (reads w) store (fetchers_store w)
               (set_items_list (cache w) l) (trace w)) /\
    l ≡ₚ _items_list (cache w) /\
    (forall l', l' ≡ₚ _items_list (cache w) ->
       Sorted (item_le store) l' -> l' = l) /\
    forall n m i j iti itj,
      (n < m)%nat -> l !! n = Some i -> l !! m = Some j ->
      store !! i = Some iti -> store !! j = Some itj ->
      state_value itj < state_value iti \/
      (state_value itj = state_value iti /\ timestamp iti <= timestamp itj).
Proof.
  intros store. eexists. split; [apply sort_items_list_run |].
  fold store. split; [apply merge_sort_Permutation |].
  split; [intros l' Hp Hs; by apply sort_items_unique |].
  intros n m i j iti itj Hnm Hn Hm Hi Hj.
  pose proof (StronglySorted_merge_sort (item_le store)
                (_items_list (cache w))) as Hs.
  assert (Hle : item_le store i j).
  { revert Hs n m Hnm Hn Hm.
    generalize (merge_sort (item_le store) (_items_list (cache w))).
    intros l Hs. induction Hs as [| x l Hs IH Hall]; intros n m Hnm Hn Hm.
    - by rewrite lookup_nil in Hn.
    - destruct n as [| n], m as [| m]; try lia; cbn in Hn, Hm.
      + injection Hn as ->. rewrite Forall_forall in Hall.
        apply Hall. by eapply list_elem_of_lookup_2.
      + apply (IH n m); [lia | done | done]. }
  unfold item_le, item_key in Hle. rewrite Hi, Hj in Hle. cbn in Hle.
  apply Is_true_true in Hle.
  rewrite !orb_true_iff, !andb_true_iff, !orb_true_iff, !andb_true_iff,
    !Z.ltb_lt, !Z.eqb_eq in Hle.
  lia.
Qed.

(** ** What a purge removes *)

Lemma addresses_of_app store l1 l2 :
  addresses_of store (l1 ++ l2)
  = addresses_of store l1 ++ addresses_of store l2.
Proof. apply omap_app. Qed.

Lemma elem_of_addresses_of store l a :
  a ∈ addresses_of store l <->
  exists j it, j ∈ l /\ store !! j = Some it /\ address it = a.
Proof.
  unfold addresses_of. rewrite list_elem_of_omap. split.
  - intros (j & Hj & Ha). destruct (store !! j) as [it |] eqn:Hit;
      [| discriminate].
    cbn in Ha. injection Ha as <-. eauto.
  - intros (j & it & Hj & Hit & <-). exists j. split; [done |].
    by rewrite Hit.
Qed.

Lemma addresses_of_step w w' l :
  world_step w w' ->
  (forall j, j ∈ l -> (j < length (items_store w))%nat) ->
  addresses_of (items_store w') l = addresses_of (items_store w) l.
Proof.
  intros Hs. induction l as [| j l IH]; intros Hl; [done |].
  unfold addresses_of in *. cbn.
  rewrite IH by (intros j' Hj'; apply Hl; set_solver).
  assert (Hj : (j < length (items_store w))%nat) by (apply Hl; set_solver).
  destruct (lookup_lt_is_Some_2 _ _ Hj) as [it Hit].
  destruct (step_items _ _ Hs _ _ Hit) as (it' & Hit' & (Hid & _) & _).
  rewrite Hit, Hit'. cbn. by rewrite Hid.
Qed.

Lemma purged_of_same w w' :
  _items_list (cache w') = _items_list (cache w) ->
  _items (cache w') = _items (cache w) ->
  purged_of 0 w w'.
Proof.
  intros Hl Hm. split; [by rewrite drop_0 |].
  intros a. rewrite take_0. cbn.
  rewrite decide_False by apply not_elem_of_nil. by rewrite Hm.
Qed.

Lemma purged_of_trans k1 k2 w w1 w2 :
  cache_inv w -> world_step w w1 ->
  purged_of k1 w w1 -> purged_of k2 w1 w2 -> purged_of (k1 + k2) w w2.
Proof.
  intros Hinv Hs [Hl1 Hm1] [Hl2 Hm2]. split.
  - by rewrite Hl2, Hl1, drop_drop.
  - intros a. rewrite Hm2, Hm1, Hl1.
    rewrite <- take_take_drop, addresses_of_app.
    rewrite (addresses_of_step w w1) by
      (done || intros j Hj; apply (inv_list _ Hinv);
       by apply (subseteq_drop k1), (subseteq_take k2)).
    set (A1 := addresses_of (items_store w) (take k1 (_items_list (cache w)))).
    set (A2 := addresses_of (items_store w)
                 (take k2 (drop k1 (_items_list (cache w))))).
    destruct (decide (a ∈ A1)) as [H1 | H1],
      (decide (a ∈ A2)) as [H2 | H2].
    + rewrite decide_True by (apply elem_of_app; auto). done.
    + rewrite decide_True by (apply elem_of_app; auto). done.
    + rewrite decide_True by (apply elem_of_app; auto). done.
    + rewrite decide_False; [done |].
      intros H. apply elem_of_app in H as [H | H]; auto.
Qed.

Lemma pop_head_purged i il w :
  cache_inv w -> _items_list (cache w) = i :: il ->
  exists w',
    pop_head i il w = Ok tt w' /\ purged_of 1 w w' /\
    cache_inv w' /\ item_step w w'.
Proof.
  intros Hinv Hl.
  destruct (pop_head_good no_exn i il w Hinv Hl) as (Hg & _).
  assert (Hi : (i < length (items_store w))%nat).
  { apply (inv_list _ Hinv). rewrite Hl. apply elem_of_cons. by left. }
  destruct (lookup_lt_is_Some_2 _ _ Hi) as [it Hit].
  revert Hg. unfold pop_head, get_cache, put_cache, read_item.
  unfold mbind, M_bind, bind. cbn. rewrite Hit. cbn. intros (Hinv' & Hs' & _).
  eexists. split; [reflexivity |]. split; [| done].
  split; cbn; [by rewrite Hl |].
  intros a. rewrite Hl. cbn. unfold addresses_of. cbn. rewrite Hit. cbn.
  case_decide as Ha.
  - apply list_elem_of_singleton in Ha. subst a. apply lookup_delete_eq.
  - rewrite lookup_delete_ne; [done |]. intros <-. apply Ha.
    by apply list_elem_of_singleton.
Qed.

Lemma purge_overlimit_purged n w :
  cache_inv w -> (n <= length (_items_list (cache w)))%nat ->
  exists w',
    purge_overlimit n w = Ok tt w' /\ purged_of n w w' /\
    cache_inv w' /\ item_step w w'.
Proof.
  revert w. induction n as [| n IH]; intros w Hinv Hn.
  - exists w. split; [reflexivity |].
    split; [by apply purged_of_same |]. split; [done | reflexivity].
  - cbn [purge_overlimit]. rewrite run_bind. cbn.
    destruct (_items_list (cache w)) as [| i il] eqn:Hl; [cbn in Hn; lia |].
    destruct (pop_head_purged i il w Hinv Hl)
      as (w1 & Hrun & Hp1 & Hinv1 & Hs1).
    destruct (IH w1 Hinv1) as (w2 & Hrun2 & Hp2 & Hinv2 & Hs2).
    { destruct Hp1 as [-> _]. rewrite Hl. cbn in *. rewrite drop_0. lia. }
    exists w2. rewrite run_bind, Hrun. split; [done |].
    split; [| split; [done | by etrans]].
    change (S n) with (1 + n)%nat.
    eapply purged_of_trans; eauto. apply Hs1.
Qed.

Lemma purge_purged_purged il w :
  cache_inv w -> _items_list (cache w) = il ->
  exists k w',
    purge_purged il w = Ok tt w' /\ purged_of k w w' /\
    cache_inv w' /\ item_step w w'.
Proof.
  revert w. induction il as [| i il IH]; intros w Hinv Hl.
  - exists 0%nat, w. split; [reflexivity |].
    split; [by apply purged_of_same |]. split; [done | reflexivity].
  - cbn [purge_purged].
    assert (Hi : (i < length (items_store w))%nat).
    { apply (inv_list _ Hinv). rewrite Hl. apply elem_of_cons. by left. }
    destruct (update_state_good no_exn i w Hinv Hi)
      as (Hg & s & w1 & Hrun & Hc & _ & _).
    destruct (good_Ok_inv _ _ _ _ _ Hg Hrun) as (Hinv1 & Hs1).
    assert (Hp1 : purged_of 0 w w1) by (apply purged_of_same; by rewrite Hc).
    assert (Hl1 : _items_list (cache w1) = i :: il) by (by rewrite Hc).
    rewrite run_bind, Hrun.
    destruct (String.eqb s "purged").
    + destruct (pop_head_purged i il w1 Hinv1 Hl1)
        as (w2 & Hrun2 & Hp2 & Hinv2 & Hs2).
      destruct (IH w2 Hinv2) as (k & w3 & Hrun3 & Hp3 & Hinv3 & Hs3).
      { destruct Hp2 as [-> _]. rewrite Hl1. cbn. by rewrite drop_0. }
      exists (0 + (1 + k))%nat, w3. rewrite run_bind, Hrun2.
      split; [done |].
      split; [| split; [done | etrans; [done | by etrans]]].
      eapply purged_of_trans; [done | apply Hs1 | done |].
      eapply purged_of_trans; [done | apply Hs2 | done | done].
    + exists 0%nat, w1. split; [reflexivity |]. auto.
Qed.

Lemma purge_items_purged w :
  cache_inv w ->
  exists k w',
    purge_items w = Ok tt w' /\ purged_of k w w' /\
    cache_inv w' /\ item_step w w' /\
    Z.of_nat (length (_items_list (cache w')))
      <= three_quarters (max_items (cache w)).
Proof.
  intros Hinv. unfold purge_items. rewrite run_bind. cbn.
  pose proof (three_quarters_bounds _ (inv_max _ Hinv)) as Htq.
  set (n := Z.to_nat (Z.of_nat (length (_items_list (cache w)))
                      - three_quarters (max_items (cache w)))).
  assert (Hn : (n <= length (_items_list (cache w)))%nat) by lia.
  destruct (purge_overlimit_purged n w Hinv Hn)
    as (w1 & Hrun1 & Hp1 & Hinv1 & Hs1).
  destruct (purge_purged_purged (_items_list (cache w1)) w1 Hinv1 eq_refl)
    as (k & w2 & Hrun2 & Hp2 & Hinv2 & Hs2).
  exists (n + k)%nat, w2. rewrite run_bind, Hrun1. cbn.
  split; [done |].
  split; [eapply purged_of_trans; eauto; apply Hs1 |].
  split; [done |]. split; [by etrans |].
  destruct Hp2 as [-> _]. destruct Hp1 as [-> _].
  rewrite !length_drop. lia.
Qed.

(** [purge_items], on a cache that satisfies the invariant, returns.  It
    removes a number [k] of items from the head of [_items_list], where
    the items in the worst state are after a sort; what is left holds at
    most [int(0.75 * max_items)] items, whether or not the cache was
    full.  The keys of [_items] that are addresses of removed items are
    deleted, the other keys keep their items; the items themselves keep
    their identity. *)
Theorem purge_items_leaves_three_quarters w :
  cache_inv w ->
  exists k w',
    purge_items w = Ok tt w' /\
    _items_list (cache w') = drop k (_items_list (cache w)) /\
    Z.of_nat (length (_items_list (cache w')))
      <= three_quarters (max_items (cache w)) /\
    (forall a,
       (exists j it, j ∈ take k (_items_list (cache w)) /\
          items_store w !! j = Some it /\ address it = a) ->
       _items (cache w') !! a = None) /\
    (forall a,
       ~ (exists j it, j ∈ take k (_items_list (cache w)) /\
            items_store w !! j = Some it /\ address it = a) ->
       _items (cache w') !! a = _items (cache w) !! a) /\
    cache_inv w' /\ item_step w w'.
Proof.
  intros Hinv.
  destruct (purge_items_purged w Hinv)
    as (k & w' & Hrun & [Hl Hm] & Hinv' & Hs & Hlen).
  exists k, w'. split; [done |]. split; [done |]. split; [done |].
  split; [| split; [| done]].
  - intros a Ha. rewrite Hm. rewrite decide_True; [done |].
    by apply elem_of_addresses_of.
  - intros a Ha. rewrite Hm. rewrite decide_False; [done |].
    by rewrite elem_of_addresses_of.
Qed.

Lemma purge_items_leaves_three_quarters_witness :
  cache_inv example_world_same_address /\
  exists k w',
    purge_items example_world_same_address = Ok tt w' /\
    _items_list (cache w')
      = drop k (_items_list (cache example_world_same_address)) /\
    Z.of_nat (length (_items_list (cache w')))
      <= three_quarters (max_items (cache example_world_same_address)) /\
    (forall a,
       (exists j it,
          j ∈ take k (_items_list (cache example_world_same_address)) /\
          items_store example_world_same_address !! j = Some it /\
          address it = a) ->
       _items (cache w') !! a = None) /\
    (forall a,
       ~ (exists j it,
            j ∈ take k (_items_list (cache example_world_same_address)) /\
            items_store example_world_same_address !! j = Some it /\
            address it = a) ->
       _items (cache w') !! a
       = _items (cache example_world_same_address) !! a) /\
    cache_inv w' /\ item_step example_world_same_address w'.
Proof.
  assert (H : cache_inv example_world_same_address)
    by (apply cache_inv_b_sound; vm_compute; reflexivity).
  split; [exact H |].
  exact (purge_items_leaves_three_quarters example_world_same_address H).
Defined.

(** ** add_item, get_item, num_items *)

Lemma store_item_run i it w :
  items_store w !! i = Some it ->
  store_item i w =
    Ok tt (mkWorld (clock w) (reads w) (items_store w) (fetchers_store w)
             (set_items_list
                (set_items (cache w) (<[address it := i]> (_items (cache w))))
                (_items_list (cache w) ++ [i]))
             (trace w)).
Proof.
  intros Hit. unfold store_item, read_item, get_cache, put_cache.
  unfold mbind, M_bind, bind. cbn. by rewrite Hit.
Qed.

Lemma item_step_lookup w w' i it :
  item_step w w' -> items_store w !! i = Some it ->
  exists it', items_store w' !! i = Some it' /\ item_evolves it it'.
Proof.
  intros Hs Hit. apply (step_items _ _ (item_world_step _ _ Hs) _ _ Hit).
Qed.

(** What [make_room] does to the list and the keys. *)
Lemma make_room_purged w :
  cache_inv w ->
  exists k w',
    make_room w = Ok tt w' /\ purged_of k w w' /\
    cache_inv w' /\ item_step w w' /\
    Z.of_nat (length (_items_list (cache w'))) < max_items (cache w') /\
    (Z.of_nat (length (_items_list (cache w))) < max_items (cache w) ->
     k = 0%nat).
Proof.
  intros Hinv. unfold make_room. rewrite run_bind. cbn. unfold when.
  destruct (Z.geb_spec (Z.of_nat (length (_items_list (cache w))))
              (max_items (cache w))) as [Hge | Hlt].
  - destruct (purge_items_purged w Hinv)
      as (k & w' & Hrun & Hp & Hinv' & Hs & Hlen).
    exists k, w'. split; [done |]. split; [done |]. split; [done |].
    split; [done |]. split; [| lia].
    rewrite (step_max_items _ _ (item_world_step _ _ Hs)).
    pose proof (three_quarters_bounds _ (inv_max _ Hinv)). lia.
  - exists 0%nat, w. split; [reflexivity |].
    split; [by apply purged_of_same |]. split; [done |].
    split; [reflexivity |]. split; [lia | done].
Qed.

(** The run of [add_item], step by step. *)
Lemma add_item_run i it w :
  cache_inv w ->
  items_store w !! i = Some it ->
  let s0 := advance_state (clock w (reads w)) it in
  exists s w' it',
    add_item i w = Ok s w' /\
    items_store w' !! i = Some it' /\ state it' = s /\
    item_evolves it it' /\ cache_inv w' /\ item_step w w' /\
    if String.eqb s0 "purged"
    then cache w' = cache w /\ s = "purged"
    else
      _items (cache w') !! address it = Some i /\
      Sorted (item_le (items_store w')) (_items_list (cache w')) /\
      exists k,
        _items_list (cache w') ≡ₚ i :: drop k (_items_list (cache w)) /\
        (Z.of_nat (length (_items_list (cache w))) < max_items (cache w) ->
         k = 0%nat /\
         _items (cache w') = <[address it := i]> (_items (cache w))).
Proof.
  intros Hinv Hit s0.
  assert (Hi : (i < length (items_store w))%nat) by (by eapply lookup_lt_Some).
  destruct (update_state_run w i it Hit
              (consistent_valid _ (inv_valid _ Hinv _ _ Hit)))
    as (sv & Hsv & Hrun).
  fold s0 in Hsv, Hrun.
  destruct (update_state_good no_exn i w Hinv Hi) as (Hg1 & _).
  destruct (good_Ok_inv _ _ _ _ _ Hg1 Hrun) as (Hinv1 & Hs1).
  set (it1 := set_state_value (set_state it s0) sv) in *.
  set (w1 := mkWorld _ _ _ _ _ _) in *.
  assert (Hit1 : items_store w1 !! i = Some it1)
    by (cbn; by rewrite list_lookup_insert_eq).
  assert (Hev1 : item_evolves it it1).
  { split; [unfold same_identity; cbn; tauto |].
    apply advance_state_chain_le. }
  unfold add_item. rewrite run_bind, Hrun.
  destruct (String.eqb_spec s0 "purged") as [Hp | Hp].
  - cbn [negb]. rewrite run_bind. cbn [ret]. rewrite run_bind.
    unfold read_item. rewrite Hit1. cbn.
    exists (state it1), w1, it1. split; [done |]. split; [done |].
    split; [done |]. split; [done |]. split; [done |]. split; [done |].
    split; [done |]. done.
  - cbn [negb]. rewrite run_bind.
    destruct (make_room_purged w1 Hinv1)
      as (k & w2 & Hrun2 & [Hl2 Hm2] & Hinv2 & Hs2 & Hlen2 & Hk).
    rewrite run_bind, Hrun2.
    destruct (item_step_lookup _ _ _ _ Hs2 Hit1) as (it2 & Hit2 & Hev2).
    rewrite run_bind, (store_item_run i it2 w2 Hit2).
    rewrite sort_items_list_run. cbn beta iota. rewrite run_bind.
    unfold read_item. cbn. rewrite Hit2. cbn.
    assert (Haddr : address it2 = address it).
    { destruct Hev2 as ((-> & _) & _). done. }
    set (w3 := mkWorld _ _ _ _ _ _).
    assert (Hinv3 : cache_inv w3 /\ item_step w2 w3).
    { pose proof (store_item_good no_exn i w2 Hinv2
                    (item_step_valid_id _ _ _ Hs2
                       (item_step_valid_id _ _ _ Hs1 Hi)) Hlen2) as Hg3.
      rewrite (store_item_run i it2 w2 Hit2) in Hg3.
      destruct (good_Ok_inv _ _ _ _ _ Hg3 eq_refl) as (Hinv3' & Hs3').
      pose proof (sort_items_list_good no_exn _ Hinv3') as Hg4.
      rewrite sort_items_list_run in Hg4.
      destruct (good_Ok_inv _ _ _ _ _ Hg4 eq_refl) as (Hinv4 & Hs4).
      split; [done | by etrans]. }
    destruct Hinv3 as [Hinv3 Hs3].
    exists (state it2), w3, it2. split; [done |]. split; [done |].
    split; [done |]. split; [by etrans |]. split; [done |].
    split; [etrans; [done | by etrans] |].
    subst w3. cbn. rewrite Haddr.
    split; [apply lookup_insert_eq |].
    split; [apply Sorted_merge_sort; apply _ |].
    exists k. split.
    + rewrite merge_sort_Permutation, Hl2. cbn.
      by rewrite Permutation_app_comm.
    + intros Hnotfull. assert (k = 0%nat) as -> by auto.
      split; [done |]. f_equal.
      apply map_eq. intros a'. rewrite Hm2, take_0. cbn.
      by rewrite decide_False by apply not_elem_of_nil.
Qed.

(** [add_item] on an item of the store, in a cache that satisfies the
    invariant, returns the state of the item.  When [update_state] finds
    the item purged, the cache is left as it was.  Otherwise the item is
    stored: its address is a key of [_items] that leads to it, and
    [_items_list] is, up to the order the sort gives, the item and what
    [purge_items] left of the list ([k] items dropped from the head);
    when the cache was not full nothing is dropped and no other key
    changes. *)
Theorem add_item_stores_unless_purged i it w :
  cache_inv w ->
  items_store w !! i = Some it ->
  let s0 := advance_state (clock w (reads w)) it in
  exists s w' it',
    add_item i w = Ok s w' /\
    items_store w' !! i = Some it' /\ state it' = s /\
    item_evolves it it' /\ cache_inv w' /\
    if String.eqb s0 "purged"
    then cache w' = cache w /\ s = "purged"
    else
      _items (cache w') !! address it = Some i /\
      Sorted (item_le (items_store w')) (_items_list (cache w')) /\
      exists k,
        _items_list (cache w') ≡ₚ i :: drop k (_items_list (cache w)) /\
        (Z.of_nat (length (_items_list (cache w))) < max_items (cache w) ->
         k = 0%nat /\
         _items (cache w') = <[address it := i]> (_items (cache w))).
Proof.
  intros Hinv Hit s0.
  destruct (add_item_run i it w Hinv Hit)
    as (s & w' & it' & Hrun & Hit' & Hs & Hev & Hinv' & _ & Hrest).
  exists s, w', it'. auto 10.
Qed.

Lemma add_item_stores_unless_purged_witness :
  cache_inv example_world_cached /\
  items_store example_world_cached !! 0%nat = Some example_fresh_item /\
  let w := example_world_cached in
  let s0 := advance_state (clock w (reads w)) example_fresh_item in
  exists s w' it',
    add_item 0 w = Ok s w' /\
    items_store w' !! 0%nat = Some it' /\ state it' = s /\
    item_evolves example_fresh_item it' /\ cache_inv w' /\
    if String.eqb s0 "purged"
    then cache w' = cache w /\ s = "purged"
    else
      _items (cache w') !! address example_fresh_item = Some 0%nat /\
      Sorted (item_le (items_store w')) (_items_list (cache w')) /\
      exists k,
        _items_list (cache w') ≡ₚ 0%nat :: drop k (_items_list (cache w)) /\
        (Z.of_nat (length (_items_list (cache w))) < max_items (cache w) ->
         k = 0%nat /\
         _items (cache w')
         = <[address example_fresh_item := 0%nat]> (_items (cache w))).
Proof.
  assert (H : cache_inv example_world_cached)
    by (apply cache_inv_b_sound; vm_compute; reflexivity).
  assert (H' : items_store example_world_cached !! 0%nat
               = Some example_fresh_item) by reflexivity.
  split; [exact H |]. split; [exact H' |].
  exact (add_item_stores_unless_purged 0 example_fresh_item
           example_world_cached H H').
Defined.

(** [get_item] looks at the state name only after it has found an item
    and updated it.  For a name that [_state_values] does not have: when
    nothing is stored under the address the call returns [None] and
    nothing changes, not even the number of clock readings; when an item
    is stored the call raises [KeyError], in the state [update_item]
    leaves: the item has been updated and, if it was found purged,
    possibly removed. *)
Theorem get_item_unknown_state_name a st w :
  cache_inv w ->
  _state_values st = None ->
  match _items (cache w) !! a with
  | None => get_item a st w = Ok None w
  | Some i =>
      exists s w',
        update_item i w = Ok s w' /\
        get_item a st w = Raise (KeyError st) w' /\
        cache_inv w' /\ item_step w w'
  end.
Proof.
  intros Hinv Hst. unfold get_item. rewrite run_bind. cbn [get_cache].
  destruct (_items (cache w) !! a) as [i |] eqn:Ha; [| reflexivity].
  pose proof (inv_map_valid_id _ _ _ Hinv Ha) as Hi.
  pose proof (update_item_good no_exn i w Hinv Hi) as Hg.
  destruct (good_no_exn_Ok _ _ Hg) as (s & w' & Hrun).
  destruct (good_Ok_inv _ _ _ _ _ Hg Hrun) as (Hinv' & Hs').
  exists s, w'. split; [done |]. rewrite run_bind, Hrun, run_bind.
  unfold subscript_state_values. by rewrite Hst.
Qed.

Lemma get_item_unknown_state_name_witness :
  cache_inv example_world_cached /\
  _state_values "error" = None /\
  (_items (cache example_world_cached) !! "a" = Some 0%nat /\
   exists s w',
     update_item 0 example_world_cached = Ok s w' /\
     get_item "a" "error" example_world_cached = Raise (KeyError "error") w' /\
     cache_inv w' /\ item_step example_world_cached w') /\
  (_items (cache example_world_cached) !! "b" = None /\
   get_item "b" "error" example_world_cached = Ok None example_world_cached).
Proof.
  assert (H : cache_inv example_world_cached)
    by (apply cache_inv_b_sound; vm_compute; reflexivity).
  assert (H' : _state_values "error" = None) by reflexivity.
  split; [exact H |]. split; [exact H' |]. split.
  - split; [reflexivity |].
    exact (get_item_unknown_state_name "a" "error" example_world_cached H H').
  - split; [reflexivity |].
    exact (get_item_unknown_state_name "b" "error" example_world_cached H H').
Defined.

Lemma get_item_value3 a st i w :
  cache_inv w ->
  _state_values st = Some 3 ->
  _items (cache w) !! a = Some i ->
  exists w' it0 it,
    get_item a st w = Ok (Some i) w' /\
    items_store w !! i = Some it0 /\
    items_store w' !! i = Some it /\ item_evolves it0 it /\ address it = a /\
    cache_inv w' /\ item_step w w'.
Proof.
  intros Hinv Hst Ha.
  assert (Hg : good no_exn w (get_item a st w)).
  { apply get_item_good; [done |]. intros H. congruence. }
  destruct (good_no_exn_Ok _ _ Hg) as (r & w' & Hrun).
  destruct (good_Ok_inv _ _ _ _ _ Hg Hrun) as (Hinv' & Hs').
  pose proof (get_item_result _ _ _ _ _ Hrun) as Hr.
  destruct (inv_map _ Hinv a i Ha) as (_ & it0 & Hit0 & Haddr).
  destruct (item_step_lookup _ _ _ _ Hs' Hit0) as (it & Hit & Hev).
  destruct r as [i' |].
  - destruct Hr as (Ha' & _). rewrite Ha in Ha'. injection Ha' as <-.
    exists w', it0, it.
    assert (Hid : address it = address it0)
      by (by destruct Hev as ((? & _) & _)).
    rewrite Hid. auto 10.
  - destruct Hr as [Hnone | (i' & it' & v & Ha' & Hit' & Hv & Hlt)];
      [congruence |].
    rewrite Hst in Hv. injection Hv as <-.
    pose proof (inv_valid _ Hinv' _ _ Hit') as Hc.
    apply _state_values_bounds in Hc. lia.
Qed.

(** [get_item] with a state name of value 3 (stale, purged) returns the
    item stored under the address, whatever its state: also an item that
    [update_item] has just found purged, and that the purge it may start
    has removed from the cache. *)
Theorem get_item_stale_returns_stored a st i w :
  cache_inv w ->
  _state_values st = Some 3 ->
  _items (cache w) !! a = Some i ->
  exists w' it,
    get_item a st w = Ok (Some i) w' /\
    items_store w' !! i = Some it /\ address it = a /\
    cache_inv w' /\ item_step w w'.
Proof.
  intros Hinv Hst Ha.
  destruct (get_item_value3 a st i w Hinv Hst Ha)
    as (w' & it0 & it & Hrun & _ & Hit & _ & Haddr & Hinv' & Hs').
  exists w', it. auto.
Qed.

Lemma get_item_stale_returns_stored_witness :
  cache_inv example_world_old /\
  _state_values "stale" = Some 3 /\
  _items (cache example_world_old) !! "a" = Some 0%nat /\
  exists w' it,
    get_item "a" "stale" example_world_old = Ok (Some 0%nat) w' /\
    items_store w' !! 0%nat = Some it /\ address it = "a" /\
    cache_inv w' /\ item_step example_world_old w'.
Proof.
  assert (H : cache_inv example_world_old)
    by (apply cache_inv_b_sound; vm_compute; reflexivity).
  split; [exact H |]. split; [reflexivity |]. split; [reflexivity |].
  exact (get_item_stale_returns_stored "a" "stale" 0 example_world_old H
           eq_refl eq_refl).
Defined.

(** The keys of [_items] lead to different items of [_items_list]. *)
Lemma items_size_le_list w :
  cache_inv w ->
  (size (_items (cache w)) <= length (_items_list (cache w)))%nat.
Proof.
  intros Hinv.
  rewrite <- (length_map_to_list (_items (cache w))).
  rewrite <- (length_fmap snd).
  apply submseteq_length, NoDup_submseteq.
  - apply NoDup_fmap_2_strong; [| apply NoDup_map_to_list].
    intros [a1 i1] [a2 i2] H1 H2 Heq. cbn in Heq. subst i2.
    apply elem_of_map_to_list in H1, H2.
    destruct (inv_map _ Hinv _ _ H1) as (_ & it1 & Hit1 & <-).
    destruct (inv_map _ Hinv _ _ H2) as (_ & it2 & Hit2 & <-).
    congruence.
  - intros i Hi. apply list_elem_of_fmap in Hi as ([a i'] & -> & Hi).
    apply elem_of_map_to_list in Hi.
    by destruct (inv_map _ Hinv _ _ Hi).
Qed.

(** [num_items], in every state that calls can lead to from a new cache
    with a positive [max_items], returns the length of [_items_list] and
    changes nothing; the number is at most [max_items] and at least the
    number of addresses that can be looked up, the keys of [_items]. *)
Theorem num_items_bounds clk m fp ep pp cs :
  1 <= m ->
  let w := run_calls cs (initial_world clk m fp ep pp) in
  exists n,
    num_items w = Ok n w /\
    n = length (_items_list (cache w)) /\
    (size (_items (cache w)) <= n)%nat /\ Z.of_nat n <= m.
Proof.
  intros Hm w.
  destruct (run_calls_steady cs (initial_world clk m fp ep pp)
              (world_inv_general _ (initial_world_inv clk m fp ep pp Hm)))
    as [Hw Hs].
  fold w in Hw, Hs. pose proof (ginv_cache _ Hw) as Hinv.
  exists (length (_items_list (cache w))).
  split; [reflexivity |]. split; [reflexivity |].
  split; [by apply items_size_le_list |].
  pose proof (inv_size _ Hinv) as Hsize.
  by rewrite (step_max_items _ _ Hs) in Hsize.
Qed.

Lemma num_items_bounds_witness :
  1 <= 2 /\
  let w := run_calls example_calls_same_address
             (initial_world example_clock 2 _hour (12 * _hour) (24 * _hour)) in
  exists n,
    num_items w = Ok n w /\
    n = length (_items_list (cache w)) /\
    (size (_items (cache w)) <= n)%nat /\ Z.of_nat n <= 2.
Proof.
  assert (Hm : 1 <= 2) by lia.
  split; [exact Hm |].
  exact (num_items_bounds example_clock 2 _hour (12 * _hour) (24 * _hour)
           example_calls_same_address Hm).
Defined.

(** [tick] is the loop over the fetchers followed by [purge_items]. *)
Lemma tick_Ok_inv w w' :
  cache_inv w -> tick w = Ok tt w' ->
  exists w1,
    tick_loop (clock w (reads w)) (_active_fetchers (cache w)) (clock_read w)
    = Ok tt w1 /\
    cache_inv w1 /\ fetcher_step w w1 /\ purge_items w1 = Ok tt w'.
Proof.
  intros Hc Htick.
  pose proof (tick_loop_settled (clock w (reads w))
                (_active_fetchers (cache w)) (clock_read w)
                (clock_read_cache_inv w Hc)) as [Hc1 Hs1].
  unfold tick in Htick. rewrite run_bind in Htick. cbn [utcnow] in Htick.
  fold (clock_read w) in Htick.
  rewrite run_bind in Htick. cbn [get_cache] in Htick.
  rewrite run_bind in Htick.
  change (cache (clock_read w)) with (cache w) in Htick.
  destruct (tick_loop _ _ (clock_read w)) as [[] w1 | e w1];
    [| discriminate].
  cbn [final_world] in Hc1, Hs1.
  exists w1. split; [done |]. split; [done |]. split; [| done].
  etrans; [apply clock_read_fetcher_step | done].
Qed.

(** After [tick] has returned, in a state that calls can lead to from a
    new cache with a positive [max_items], whatever the application
    does, the cache holds at most
    [int(0.75 * max_items)] items, not [max_items]: each tick cuts the
    list down to three quarters of the limit.  A cache with
    [max_items = 1] is empty after every tick. *)
Theorem tick_leaves_three_quarters clk m fp ep pp cs w' :
  1 <= m ->
  let w := run_calls cs (initial_world clk m fp ep pp) in
  tick w = Ok tt w' ->
  Z.of_nat (length (_items_list (cache w'))) <= three_quarters m /\
  (m = 1 -> _items_list (cache w') = [] /\ _items (cache w') = ∅).
Proof.
  intros Hm w Htick.
  destruct (run_calls_steady cs (initial_world clk m fp ep pp)
              (world_inv_general _ (initial_world_inv clk m fp ep pp Hm)))
    as [Hw Hs].
  fold w in Hw, Hs.
  destruct (tick_Ok_inv w w' (ginv_cache _ Hw) Htick)
    as (w1 & _ & Hw1 & Hs1 & Hpurge).
  destruct (purge_items_purged w1 Hw1)
    as (k & w2 & Hrun & _ & Hinv2 & _ & Hlen).
  rewrite Hpurge in Hrun. injection Hrun as <-.
  rewrite (step_max_items _ _ (fstep_world _ _ Hs1)),
    (step_max_items _ _ Hs) in Hlen.
  cbn in Hlen. split; [done |].
  intros ->. change (three_quarters 1) with 0 in Hlen.
  assert (Hnil : _items_list (cache w') = [])
    by (apply length_zero_iff_nil; lia).
  split; [done |]. apply map_empty. intros a.
  destruct (_items (cache w') !! a) as [i |] eqn:Ha; [| done].
  destruct (inv_map _ Hinv2 _ _ Ha) as (Hin & _).
  rewrite Hnil in Hin. by apply elem_of_nil in Hin.
Qed.

Lemma tick_leaves_three_quarters_witness :
  1 <= 2 /\
  let w := run_calls example_calls_same_address
             (initial_world example_clock 2 _hour (12 * _hour) (24 * _hour)) in
  exists w',
    tick w = Ok tt w' /\
    Z.of_nat (length (_items_list (cache w'))) <= three_quarters 2 /\
    (2 = 1 -> _items_list (cache w') = [] /\ _items (cache w') = ∅).
Proof.
  assert (Hm : 1 <= 2) by lia.
  split; [exact Hm |]. intros w.
  assert (Ht : exists w', tick w = Ok tt w')
    by (eexists; vm_compute; reflexivity).
  destruct Ht as [w' Ht]. exists w'. split; [exact Ht |].
  exact (tick_leaves_three_quarters example_clock 2 _hour (12 * _hour)
           (24 * _hour) example_calls_same_address w' Hm Ht).
Defined.

(** ** Fetchers *)

(** [got_it] on an active fetcher, when it returns, has made one item
    from the value and the address and periods of the fetcher, with the
    time read as its timestamp; the object handler has been called once,
    with the address, the value and the state as given (not yet
    updated); and the item is what the cache now holds for the address:
    the address is a key of [_items] that leads to the new item, unless
    [update_state] found the item purged at once. *)
Theorem got_it_stores_value f x v st w w' :
  cache_inv w ->
  fetchers_store w !! f = Some x ->
  active x = true ->
  got_it f v st w = Ok tt w' ->
  let i := length (items_store w) in
  exists it,
    items_store w' !! i = Some it /\
    address it = fetcher_address x /\ value it = v /\
    timestamp it = clock w (reads w) /\
    freshness_time it <= expire_time it <= purge_time it /\
    trace w' =
      trace w ++ [ObjectHandlerCall (Some f) (_object_handler x)
                    (fetcher_address x) (Some v) st] /\
    (state it = "purged" \/
     (_items (cache w') !! fetcher_address x = Some i /\
      i ∈ _items_list (cache w'))).
Proof.
  intros Hc Hx Hact Hrun i.
  unfold got_it in Hrun.
  rewrite run_bind, (read_fetcher_run f x) in Hrun by done.
  rewrite Hact in Hrun. cbn [negb] in Hrun. rewrite run_bind in Hrun.
  pose proof (CacheItem__init__good (fetcher_address x) v
                (_item_freshness_period x) (_item_expiration_period x)
                (_item_purge_period x) st w Hc) as Hg.
  destruct (CacheItem__init__ _ _ _ _ _ _ w) as [i' w1 | e w1] eqn:Hinit;
    [| discriminate].
  destruct (good_Ok_inv _ _ _ _ _ Hg eq_refl) as (Hc1 & Hs1).
  apply CacheItem__init__Ok in Hinit
    as (it & Hw1 & Hi & Ha & Hv & Hst & Hcons & Hts & Hord).
  subst i'. fold i in Hrun.
  assert (Hit : items_store w1 !! i = Some it).
  { rewrite Hw1. cbn. apply list_lookup_middle. reflexivity. }
  rewrite run_bind, (call_object_handler_called _ _ _ it) in Hrun by done.
  rewrite Ha, Hv, Hst in Hrun.
  set (e := ObjectHandlerCall _ _ _ _ _) in Hrun.
  unfold called in Hrun.
  destruct (handler_exn (_object_handler x)); [discriminate |].
  assert (Hc2 : cache_inv (emitted e w1))
    by (apply (cache_inv_same_items w1); [reflexivity .. | done]).
  destruct (add_item_run i it (emitted e w1) Hc2 Hit)
    as (s & w3 & it3 & Hadd & Hit3 & Hs3 & Hev3 & Hc3 & Hstep3 & Hrest).
  rewrite run_bind, Hadd in Hrun.
  assert (Hx3 : fetchers_store w3 !! f = Some x).
  { rewrite (item_step_fetchers _ _ Hstep3). cbn.
    by rewrite (item_step_fetchers _ _ Hs1). }
  rewrite (_deactivate_run f x w3 Hx3) in Hrun. injection Hrun as <-.
  destruct Hev3 as ((Ha3 & Hv3 & Hts3 & Hft3 & Het3 & Hpt3) & _).
  exists it3. cbn.
  split; [done |]. split; [congruence |]. split; [congruence |].
  split; [congruence |]. split; [lia |].
  split.
  { rewrite (item_step_trace _ _ Hstep3). cbn.
    by rewrite (item_step_trace _ _ Hs1). }
  cbv zeta in Hrest.
  destruct (String.eqb _ "purged").
  - left. destruct Hrest as [_ Hp]. congruence.
  - right. destruct Hrest as (Hkey & _ & k & Hperm & _).
    rewrite <- Ha. split; [done |]. rewrite Hperm. by left.
Qed.

Lemma got_it_stores_value_witness :
  let w := run_calls example_calls_two_requests
             (initial_world example_clock_fast 10 _hour (12 * _hour)
                (24 * _hour)) in
  cache_inv w /\
  exists x w',
    fetchers_store w !! 0%nat = Some x /\ active x = true /\
    got_it 0 "v" "new" w = Ok tt w' /\
    let i := length (items_store w) in
    exists it,
      items_store w' !! i = Some it /\
      address it = fetcher_address x /\ value it = "v" /\
      timestamp it = clock w (reads w) /\
      freshness_time it <= expire_time it <= purge_time it /\
      trace w' =
        trace w ++ [ObjectHandlerCall (Some 0%nat) (_object_handler x)
                      (fetcher_address x) (Some "v") "new"] /\
      (state it = "purged" \/
       (_items (cache w') !! fetcher_address x = Some i /\
        i ∈ _items_list (cache w'))).
Proof.
  intros w.
  assert (Hm : 1 <= 10) by lia.
  assert (Hw : cache_inv w)
    by exact (ginv_cache _
                (reachable_general_inv example_clock_fast 10 _hour
                   (12 * _hour) (24 * _hour) example_calls_two_requests Hm)).
  split; [exact Hw |].
  eexists. eexists.
  assert (Hx : fetchers_store w !! 0%nat = Some _)
    by (vm_compute; reflexivity).
  assert (Hrun : got_it 0 "v" "new" w = Ok tt _)
    by (vm_compute; reflexivity).
  split; [exact Hx |]. split; [reflexivity |]. split; [exact Hrun |].
  exact (got_it_stores_value 0 _ "v" "new" w _ Hw Hx eq_refl Hrun).
Defined.




(** ** After a failed retrieval *)

(** [invalidate_object] with the default state on an address that is
    stored: the call returns and the item is not fresh any more. *)
Lemma invalidate_object_not_fresh a i w :
  cache_inv w ->
  _items (cache w) !! a = Some i ->
  exists w' it',
    invalidate_object a "stale" w = Ok tt w' /\
    cache_inv w' /\ item_step w w' /\
    items_store w' !! i = Some it' /\ 2 <= state_value it'.
Proof.
  intros Hinv Ha.
  assert (Hg : good no_exn w (invalidate_object a "stale" w))
    by (apply invalidate_object_good; [done | discriminate]).
  destruct (good_no_exn_Ok _ _ Hg) as ([] & w' & Hrun).
  destruct (good_Ok_inv _ _ _ _ _ Hg Hrun) as (Hinv' & Hs').
  exists w'.
  cut (exists it', items_store w' !! i = Some it' /\ 2 <= state_value it').
  { intros (it' & ? & ?). exists it'. auto. }
  assert (Hgi : good no_exn w (get_item a "fresh" w))
    by (apply get_item_good; [done | discriminate]).
  destruct (good_no_exn_Ok _ _ Hgi) as (r & w1 & Hget).
  destruct (good_Ok_inv _ _ _ _ _ Hgi Hget) as (Hinv1 & Hs1).
  pose proof (get_item_result _ _ _ _ _ Hget) as Hr.
  destruct r as [i' |].
  - destruct Hr as (Ha' & it1 & v & Hit1 & Hv & Hle).
    rewrite Ha in Ha'. injection Ha' as <-. injection Hv as <-.
    assert (Hlt : state_value it1 < 3) by lia.
    destruct (raise_state_run i "stale" 3 w1 it1 Hinv1 Hit1 eq_refl Hlt)
      as (it' & w2 & Hraise & Hstore2 & _ & _ & Hcons & Hchain & _).
    assert (Hio : invalidate_object a "stale" w =
              (assign_state i "stale"
               ≫= fun _ => update_state i ≫= fun _ => sort_items_list) w1).
    { unfold invalidate_object. rewrite run_bind, Hget, run_bind.
      unfold read_item. rewrite Hit1, run_bind. cbn.
      destruct (Z.ltb_spec (state_value it1) 3); [reflexivity | lia]. }
    rewrite Hio in Hrun.
    rewrite run_bind in Hraise. rewrite run_bind in Hrun.
    destruct (assign_state i "stale" w1) as [[] w1a |]; [| discriminate].
    rewrite run_bind, Hraise, sort_items_list_run in Hrun.
    injection Hrun as <-. exists it'. cbn. rewrite Hstore2.
    split; [apply list_lookup_insert_eq; by eapply lookup_lt_Some |].
    destruct (Hchain 3%nat eq_refl) as (p & Hp & Hge).
    unfold consistent in Hcons. revert Hp Hcons.
    unfold chain_position, _state_values.
    repeat (match goal with
            | |- context [String.eqb ?k ?s] => destruct (String.eqb k s)
            end); intros [= <-] [= <-]; lia.
  - assert (Hio : invalidate_object a "stale" w = Ok tt w1).
    { unfold invalidate_object. by rewrite run_bind, Hget. }
    rewrite Hio in Hrun. injection Hrun as <-.
    destruct Hr as [Hnone | (i' & it' & v & Ha' & Hit' & Hv & Hlt)];
      [congruence |].
    rewrite Ha in Ha'. injection Ha' as <-. injection Hv as <-.
    exists it'. split; [done | lia].
Qed.





(** A failed retrieval without a backup state, when the address of the
    fetcher is stored in the cache.  When the handler called (the error
    handler; for [timeout] the timeout handler, or the error handler when
    there is none) returns, [error] and [timeout] return, and afterwards
    the stored item is not fresh any more ([state_value] at least 2):
    [invalidate_object] has made a fresh item stale.  When the handler
    raises, the method raises its exception right after the call, and
    nothing else has changed. *)
Theorem failure_leaves_item_not_fresh f x i w :
  cache_inv w ->
  fetchers_store w !! f = Some x ->
  active x = true ->
  truthy_str (_backup_state x) = false ->
  _items (cache w) !! fetcher_address x = Some i ->
  let outcome (h : callable) (e : event) (r : result unit) :=
    match handler_exn h with
    | None =>
        exists w' it',
          r = Ok tt w' /\
          items_store w' !! i = Some it' /\ 2 <= state_value it'
    | Some ex => r = Raise ex (emitted e w)
    end in
  (forall d,
     outcome (error_callable_handler (_error_handler x))
       (error_event f (_error_handler x) (fetcher_address x) d)
       (error f d w)) /\
  outcome (timeout_callable x) (timeout_event f x) (timeout f w).
Proof.
  intros Hc Hx Hact Hb Ha outcome.
  assert (Hrest : forall e, exists w3 it',
            (invalidate_object (fetcher_address x) "stale"
             ≫= fun _ => _deactivate f) (emitted e w)
            = Ok tt (deactivated_world f x w3) /\
            items_store w3 !! i = Some it' /\ 2 <= state_value it').
  { intros e.
    assert (Hc2 : cache_inv (emitted e w))
      by (apply (cache_inv_same_items w); [reflexivity .. | done]).
    destruct (invalidate_object_not_fresh (fetcher_address x) i
                (emitted e w) Hc2 Ha)
      as (w3 & it' & Hrun & _ & Hs3 & Hit' & Hge).
    exists w3, it'. split; [| done].
    rewrite run_bind, Hrun. apply _deactivate_run.
    by rewrite (item_step_fetchers _ _ Hs3). }
  unfold outcome. split.
  - intros d.
    destruct (Hrest (error_event f (_error_handler x) (fetcher_address x) d))
      as (w3 & it' & Hrun & Hit' & Hge).
    unfold error. rewrite run_bind, (read_fetcher_run f x) by done.
    rewrite Hact. cbn [negb].
    rewrite run_bind, (_try_backup_item_without_backup f x) by done.
    cbn [negb when]. rewrite run_bind, call_error_handler_called.
    unfold called.
    destruct (handler_exn (error_callable_handler (_error_handler x)));
      [reflexivity |].
    exists (deactivated_world f x w3), it'. by split.
  - destruct (Hrest (timeout_event f x)) as (w3 & it' & Hrun & Hit' & Hge).
    unfold timeout. rewrite run_bind, (read_fetcher_run f x) by done.
    rewrite Hact. cbn [negb].
    rewrite run_bind, (_try_backup_item_without_backup f x) by done.
    cbn [negb when]. rewrite run_bind, timeout_call_called.
    unfold called.
    destruct (handler_exn (timeout_callable x)); [reflexivity |].
    exists (deactivated_world f x w3), it'. by split.
Qed.

(** [remove_fetcher] calls no handler and touches no item.  On a
    fetcher that is on the list it returns, takes the entry of the
    fetcher off the list and marks the fetcher inactive; from then on the
    [got_it], [error] and [timeout] of the fetcher do nothing.  On a
    fetcher that is not on the list the call changes nothing.  The
    hypothesis holds in every state of the cache, whatever the handlers
    and the [fetch] methods of the application do. *)
Theorem remove_fetcher_cancels f w :
  listing_inv w ->
  exists w',
    remove_fetcher f w = Ok tt w' /\
    trace w' = trace w /\ items_store w' = items_store w /\
    (f ∉ (_active_fetchers (cache w)).*2 -> w' = w) /\
    forall t, (t, f) ∈ _active_fetchers (cache w) ->
      exists x,
        fetchers_store w !! f = Some x /\
        fetchers_store w' = <[f := set_active x false]> (fetchers_store w) /\
        _active_fetchers (cache w')
          = list_remove (t, f) (_active_fetchers (cache w)) /\
        (f ∉ (_active_fetchers (cache w')).*2) /\
        (forall v st, got_it f v st w' = Ok tt w') /\
        (forall d, error f d w' = Ok tt w') /\
        timeout f w' = Ok tt w'.
Proof.
  intros Hf.
  destruct (remove_fetcher_run f w) as (w' & Hrun & Hcase).
  { intros t Hin. destruct (linv_entries _ Hf t f Hin) as (x & Hx & _).
    eauto. }
  exists w'. split; [done |].
  destruct (entry_of f (_active_fetchers (cache w))) as [e |] eqn:He.
  - destruct Hcase as (x & Hx & ->).
    split; [reflexivity |]. split; [reflexivity |]. split.
    { intros Hnot. apply entry_of_None in Hnot. congruence. }
    intros t Hin. exists x. split; [done |]. split; [reflexivity |].
    destruct (entry_of_Some _ _ _ He) as [Hin' Hid]. destruct e as [t' g].
    cbn in Hid. subst g.
    assert (t' = t) as ->.
    { destruct (linv_entries _ Hf t f Hin) as (y & Hy & <-).
      destruct (linv_entries _ Hf t' f Hin') as (y' & Hy' & <-).
      congruence. }
    assert (Hl : _active_fetchers (cache (deactivated_world f x w))
                 = list_remove (t, f) (_active_fetchers (cache w))).
    { cbn. unfold without_fetcher. by rewrite He. }
    rewrite Hl. split; [done |].
    assert (Hnot : f ∉ (list_remove (t, f) (_active_fetchers (cache w))).*2).
    { pose proof (without_fetcher_ids f _ (linv_nodup _ Hf)) as H.
      unfold without_fetcher in H. by rewrite He in H. }
    split; [done |].
    pose proof (lookup_lt_Some _ _ _ Hx) as Hlt.
    set (w' := deactivated_world f x w).
    assert (Hx' : fetchers_store w' !! f = Some (set_active x false))
      by (cbn; by apply list_lookup_insert_eq).
    split; [intros v st; by apply (got_it_inactive f _ v st w' Hx') |].
    split; [intros d; by apply (error_inactive f _ d w' Hx') |].
    by apply (timeout_inactive f _ w' Hx').
  - subst w'. split; [done |]. split; [done |]. split; [done |].
    intros t Hin. apply entry_of_None in He. exfalso. apply He.
    apply list_elem_of_fmap. exists (t, f). done.
Qed.


Lemma failure_leaves_item_not_fresh_witness :
  let w := example_world_requested in
  cache_inv w /\
  exists x,
    fetchers_store w !! 0%nat = Some x /\
    active x = true /\
    truthy_str (_backup_state x) = false /\
    _items (cache w) !! fetcher_address x = Some 0%nat /\
    let outcome (h : callable) (e : event) (r : result unit) :=
      match handler_exn h with
      | None =>
          exists w' it',
            r = Ok tt w' /\
            items_store w' !! 0%nat = Some it' /\ 2 <= state_value it'
      | Some ex => r = Raise ex (emitted e w)
      end in
    (forall d,
       outcome (error_callable_handler (_error_handler x))
         (error_event 0 (_error_handler x) (fetcher_address x) d)
         (error 0 d w)) /\
    outcome (timeout_callable x) (timeout_event 0 x) (timeout 0 w).
Proof.
  intros w.
  assert (Hc : cache_inv w)
    by (apply cache_inv_b_sound; vm_compute; reflexivity).
  split; [exact Hc |]. eexists.
  assert (Hx : fetchers_store w !! 0%nat = Some _)
    by (vm_compute; reflexivity).
  split; [exact Hx |]. do 3 (split; [reflexivity |]).
  exact (failure_leaves_item_not_fresh 0 _ 0 w Hc Hx eq_refl eq_refl
           eq_refl).
Defined.

Lemma remove_fetcher_cancels_witness :
  let w := run_calls example_calls_two_requests
             (initial_world example_clock_fast 10 _hour (12 * _hour)
                (24 * _hour)) in
  listing_inv w /\
  (1005, 0%nat) ∈ _active_fetchers (cache w) /\
  exists w',
    remove_fetcher 0 w = Ok tt w' /\
    trace w' = trace w /\ items_store w' = items_store w /\
    (0%nat ∉ (_active_fetchers (cache w)).*2 -> w' = w) /\
    forall t, (t, 0%nat) ∈ _active_fetchers (cache w) ->
      exists x,
        fetchers_store w !! 0%nat = Some x /\
        fetchers_store w'
          = <[0%nat := set_active x false]> (fetchers_store w) /\
        _active_fetchers (cache w')
          = list_remove (t, 0%nat) (_active_fetchers (cache w)) /\
        (0%nat ∉ (_active_fetchers (cache w')).*2) /\
        (forall v st, got_it 0 v st w' = Ok tt w') /\
        (forall d, error 0 d w' = Ok tt w') /\
        timeout 0 w' = Ok tt w'.
Proof.
  intros w.
  assert (Hm : 1 <= 10) by lia.
  assert (Hw : listing_inv w)
    by exact (ginv_listing _
                (reachable_general_inv example_clock_fast 10 _hour
                   (12 * _hour) (24 * _hour) example_calls_two_requests Hm)).
  split; [exact Hw |].
  split; [vm_compute; apply elem_of_cons; left; reflexivity |].
  exact (remove_fetcher_cancels 0 w Hw).
Defined.

(** ** tick, whatever the application does *)



(** ** Orderly applications *)





(** * CacheSuite *)

(** ** The attribute [_fetcher] is written by [set_fetcher] only *)

Lemma keeps_bind {A B} (m : M A) (k : A -> M B) w :
  keeps_fetcher_at w m ->
  (forall a w1, m w = Ok a w1 -> keeps_fetcher_at w1 (k a)) ->
  keeps_fetcher_at w (m ≫= k).
Proof.
  unfold keeps_fetcher_at. intros Hm Hk. rewrite run_bind.
  destruct (m w) as [a w1 | e w1] eqn:Hrun; cbn in *; [| done].
  rewrite <- Hm. by apply Hk.
Qed.

Lemma keeps_bind_all {A B} (m : M A) (k : A -> M B) :
  keeps_fetcher m -> (forall a, keeps_fetcher (k a)) ->
  keeps_fetcher (m ≫= k).
Proof. intros Hm Hk w. apply keeps_bind; [apply Hm |]. intros. apply Hk. Qed.

Lemma keeps_get_cache {A} (k : Cache -> M A) w :
  keeps_fetcher_at w (k (cache w)) -> keeps_fetcher_at w (get_cache ≫= k).
Proof. done. Qed.

Lemma keeps_put_cache c w :
  _fetcher c = _fetcher (cache w) -> keeps_fetcher_at w (put_cache c).
Proof. done. Qed.

Lemma keeps_put_then {A} c (k : M A) w :
  _fetcher c = _fetcher (cache w) -> keeps_fetcher k ->
  keeps_fetcher_at w (put_cache c ≫= fun _ => k).
Proof.
  intros Hc Hk. apply keeps_bind; [done |].
  intros [] w1 _. apply Hk.
Qed.

Lemma keeps_ret {A} (a : A) : keeps_fetcher (ret a).
Proof. done. Qed.

Lemma keeps_raise {A} e : keeps_fetcher (raise (A := A) e).
Proof. done. Qed.

Lemma keeps_utcnow : keeps_fetcher utcnow.
Proof. done. Qed.

Lemma keeps_emit e : keeps_fetcher (emit e).
Proof. done. Qed.

Lemma keeps_read_item i : keeps_fetcher (read_item i).
Proof. intros w. unfold keeps_fetcher_at, read_item. by destruct (_ !! _). Qed.

Lemma keeps_write_item i it : keeps_fetcher (write_item i it).
Proof. done. Qed.

Lemma keeps_new_item it : keeps_fetcher (new_item it).
Proof. done. Qed.

Lemma keeps_read_fetcher f : keeps_fetcher (read_fetcher f).
Proof.
  intros w. unfold keeps_fetcher_at, read_fetcher. by destruct (_ !! _).
Qed.

Lemma keeps_write_fetcher f x : keeps_fetcher (write_fetcher f x).
Proof. done. Qed.

Lemma keeps_new_fetcher x : keeps_fetcher (new_fetcher x).
Proof. done. Qed.

Lemma keeps_datetime_add t d : keeps_fetcher (datetime_add t d).
Proof.
  intros w. unfold keeps_fetcher_at, datetime_add. by destruct (_ && _).
Qed.

Lemma keeps_subscript k : keeps_fetcher (subscript_state_values k).
Proof.
  intros w. unfold keeps_fetcher_at, subscript_state_values.
  by destruct (_state_values k).
Qed.

Lemma keeps_when b m : keeps_fetcher m -> keeps_fetcher (when b m).
Proof. intros H. destruct b; [done | apply keeps_ret]. Qed.

Create HintDb keeps discriminated.

#[local] Hint Resolve keeps_ret keeps_raise keeps_utcnow keeps_emit
  keeps_read_item keeps_write_item keeps_new_item keeps_read_fetcher
  keeps_write_fetcher keeps_new_fetcher keeps_datetime_add keeps_subscript
  keeps_when : keeps.

Lemma keeps_at {A} (m : M A) w : keeps_fetcher m -> keeps_fetcher_at w m.
Proof. intros H. apply H. Qed.

(** One step of a proof that a method keeps the attribute. *)
Ltac keeps_step :=
  match goal with
  | |- keeps_fetcher (get_cache ≫= _) =>
      let w := fresh "w" in intros w; apply keeps_get_cache; cbn beta
  | |- keeps_fetcher (_ ≫= _) => apply keeps_bind_all; [| intros ?]
  | |- keeps_fetcher (when _ _) => apply keeps_when
  | |- keeps_fetcher (if ?b then _ else _) => destruct b
  | |- keeps_fetcher (match ?x with _ => _ end) => destruct x
  | |- keeps_fetcher_at _ (get_cache ≫= _) => apply keeps_get_cache; cbn beta
  | |- keeps_fetcher_at _ (put_cache _ ≫= _) =>
      apply keeps_put_then; [reflexivity |]
  | |- keeps_fetcher_at _ (put_cache _) => apply keeps_put_cache; reflexivity
  | |- keeps_fetcher_at _ (if ?b then _ else _) => destruct b
  | |- keeps_fetcher_at _ (when _ _) => apply keeps_at
  | |- keeps_fetcher_at _ (_ ≫= _) =>
      apply keeps_bind; [apply keeps_at | intros ? ? _]
  | |- keeps_fetcher_at _ _ => apply keeps_at
  | |- keeps_fetcher _ => solve [auto with keeps]
  end.

Ltac keeps := repeat keeps_step.

Lemma keeps_CacheItem__init__ a v fp ep pp st :
  keeps_fetcher (CacheItem__init__ a v fp ep pp st).
Proof. unfold CacheItem__init__. keeps. Qed.

Lemma keeps_update_state i : keeps_fetcher (update_state i).
Proof. unfold update_state. keeps. Qed.

Lemma keeps_sort_items_list : keeps_fetcher sort_items_list.
Proof. done. Qed.

Lemma keeps_pop_head i il : keeps_fetcher (pop_head i il).
Proof. unfold pop_head. keeps. Qed.

#[local] Hint Resolve keeps_CacheItem__init__ keeps_update_state
  keeps_sort_items_list keeps_pop_head : keeps.

Lemma keeps_purge_overlimit n : keeps_fetcher (purge_overlimit n).
Proof.
  induction n as [| n IH]; cbn [purge_overlimit]; [apply keeps_ret |].
  intros w. apply keeps_get_cache.
  destruct (_items_list (cache w)); [apply keeps_raise |].
  apply keeps_at. keeps.
Qed.

Lemma keeps_purge_purged il : keeps_fetcher (purge_purged il).
Proof.
  induction il as [| i il IH]; cbn [purge_purged]; [apply keeps_ret |].
  keeps.
Qed.

#[local] Hint Resolve keeps_purge_overlimit keeps_purge_purged : keeps.

Lemma keeps_purge_items : keeps_fetcher purge_items.
Proof.
  unfold purge_items. intros w. apply keeps_get_cache. cbv zeta.
  apply keeps_bind; [apply keeps_at; keeps |]. intros [] w1 _.
  apply keeps_get_cache. apply keeps_at. keeps.
Qed.

#[local] Hint Resolve keeps_purge_items : keeps.

Lemma keeps_update_item i : keeps_fetcher (update_item i).
Proof. unfold update_item. keeps. Qed.

#[local] Hint Resolve keeps_update_item : keeps.

Lemma keeps_get_item a st : keeps_fetcher (get_item a st).
Proof.
  unfold get_item. intros w. apply keeps_get_cache.
  destruct (_ !! _); apply keeps_at; keeps.
Qed.

Lemma keeps_assign_state i st : keeps_fetcher (assign_state i st).
Proof. unfold assign_state. keeps. Qed.

#[local] Hint Resolve keeps_get_item keeps_assign_state : keeps.

Lemma keeps_invalidate_object a st : keeps_fetcher (invalidate_object a st).
Proof. unfold invalidate_object. keeps. Qed.

Lemma keeps_store_item i : keeps_fetcher (store_item i).
Proof. unfold store_item. keeps. Qed.

Lemma keeps_make_room : keeps_fetcher make_room.
Proof. unfold make_room. keeps. Qed.

#[local] Hint Resolve keeps_invalidate_object keeps_store_item
  keeps_make_room : keeps.

Lemma keeps_add_item i : keeps_fetcher (add_item i).
Proof. unfold add_item. keeps. Qed.

Lemma keeps_num_items : keeps_fetcher num_items.
Proof. unfold num_items. keeps. Qed.

Lemma keeps_CacheFetcher__init__ cls a fp ep pp oh eh th tp bs :
  keeps_fetcher (CacheFetcher__init__ cls a fp ep pp oh eh th tp bs).
Proof. unfold CacheFetcher__init__. keeps. Qed.

Lemma keeps__deactivated f : keeps_fetcher (_deactivated f).
Proof. unfold _deactivated. keeps. Qed.

#[local] Hint Resolve keeps_add_item keeps_num_items
  keeps_CacheFetcher__init__ keeps__deactivated : keeps.

Lemma keeps_remove_fetcher_loop f snapshot :
  keeps_fetcher (remove_fetcher_loop f snapshot).
Proof.
  induction snapshot as [| [t g] rest IH]; cbn [remove_fetcher_loop];
    [apply keeps_ret |].
  destruct (decide (g = f)); [| done]. keeps.
Qed.

#[local] Hint Resolve keeps_remove_fetcher_loop : keeps.

Lemma keeps_remove_fetcher f : keeps_fetcher (remove_fetcher f).
Proof.
  unfold remove_fetcher. intros w. apply keeps_get_cache. apply keeps_at.
  keeps.
Qed.

#[local] Hint Resolve keeps_remove_fetcher : keeps.

Lemma keeps__deactivate f : keeps_fetcher (_deactivate f).
Proof. unfold _deactivate. keeps. Qed.

Lemma keeps_call h e : keeps_fetcher (call h e).
Proof. unfold call. keeps. Qed.

#[local] Hint Resolve keeps_call : keeps.

Lemma keeps_call_object_handler by_f h i :
  keeps_fetcher (call_object_handler by_f h i).
Proof. unfold call_object_handler. keeps. Qed.

Lemma keeps_call_error_handler f h a d :
  keeps_fetcher (call_error_handler f h a d).
Proof. unfold call_error_handler. keeps. Qed.

#[local] Hint Resolve keeps__deactivate keeps_call_object_handler
  keeps_call_error_handler : keeps.

Lemma keeps_got_it f v st : keeps_fetcher (got_it f v st).
Proof. unfold got_it. keeps. Qed.

Lemma keeps__try_backup_item f : keeps_fetcher (_try_backup_item f).
Proof. unfold _try_backup_item. keeps. Qed.

#[local] Hint Resolve keeps_got_it keeps__try_backup_item : keeps.

Lemma keeps_error f d : keeps_fetcher (error f d).
Proof. unfold error. keeps. Qed.

Lemma keeps_timeout f : keeps_fetcher (timeout f).
Proof. unfold timeout. keeps. Qed.

#[local] Hint Resolve keeps_error keeps_timeout : keeps.

Lemma keeps_fetch f : keeps_fetcher (fetch f).
Proof. unfold fetch. keeps. Qed.

#[local] Hint Resolve keeps_fetch : keeps.

Lemma keeps_tick_loop now snapshot : keeps_fetcher (tick_loop now snapshot).
Proof.
  induction snapshot as [| [t f] rest IH]; cbn [tick_loop];
    [apply keeps_ret |].
  keeps.
Qed.

#[local] Hint Resolve keeps_tick_loop : keeps.

Lemma keeps_tick : keeps_fetcher tick.
Proof.
  unfold tick. apply keeps_bind_all; [apply keeps_utcnow |]. intros now w.
  apply keeps_get_cache. apply keeps_at. keeps.
Qed.

Lemma keeps_request_object a st oh eh th bs tp fp ep pp :
  keeps_fetcher (request_object a st oh eh th bs tp fp ep pp).
Proof.
  unfold request_object.
  apply keeps_bind_all; [apply keeps_get_item |]. intros item.
  apply keeps_bind_all; [destruct item; keeps |]. intros [] w.
  apply keeps_get_cache.
  destruct (_fetcher (cache w)) as [[cls |] |];
    [| apply keeps_raise | apply keeps_raise].
  cbv zeta.
  apply keeps_bind; [apply keeps_at; keeps |]. intros fetcher w1 _.
  apply keeps_bind; [apply keeps_at; keeps |]. intros [] w2 _.
  apply keeps_bind; [apply keeps_at; keeps |]. intros x w3 _.
  keeps.
Qed.

Lemma run_call_has_fetcher c w :
  is_Some (_fetcher (cache w)) ->
  is_Some (_fetcher (cache (final_world (run_call c w)))).
Proof.
  intros H.
  assert (Hk : forall A (m : M A), keeps_fetcher m ->
            is_Some (_fetcher (cache (final_world (m w))))).
  { intros A m Hm. by rewrite (Hm w). }
  assert (Hd : forall A (m : M A), keeps_fetcher m ->
            is_Some (_fetcher (cache (final_world (discard m w))))).
  { intros A m Hm. apply Hk. unfold discard.
    apply keeps_bind_all; [done |]. intros. apply keeps_ret. }
  destruct c; cbn [run_call].
  - apply Hd, keeps_CacheItem__init__.
  - apply Hk, keeps_request_object.
  - apply Hk, keeps_invalidate_object.
  - apply Hd, keeps_add_item.
  - apply Hd, keeps_get_item.
  - apply Hd, keeps_update_item.
  - apply Hd, keeps_num_items.
  - apply Hk, keeps_purge_items.
  - apply Hk, keeps_tick.
  - apply Hk, keeps_remove_fetcher.
  - cbn. eauto.
  - apply Hk, keeps_got_it.
  - apply Hk, keeps_error.
  - apply Hk, keeps_timeout.
Qed.

(** ** The invariant of a suite *)

Lemma general_inv_moved (w w' : World) :
  items_store w' = items_store w -> fetchers_store w' = fetchers_store w ->
  cache w' = cache w ->
  general_inv w -> general_inv w'.
Proof.
  intros Hi Hf Hc [Hci Hl]. constructor.
  - apply (cache_inv_same_items w); by rewrite ?Hi, ?Hc.
  - apply (same_listing w); by rewrite ?Hf, ?Hc.
Qed.

Lemma general_inv_space_world sw sw' sp :
  general_inv (space_world sw sp) -> general_inv (space_world sw' sp).
Proof. by apply general_inv_moved. Qed.

Lemma tick_steady w : general_inv w -> steady w (tick w).
Proof. intros [Hc Hl]. by apply settled_steady, tick_settled. Qed.

Lemma suite_final_on_cache {A} oc sp (m : M A) sw :
  suite_final (on_cache oc sp m sw)
  = put_space oc (final_world (m (space_world sw sp))) sw.
Proof. unfold on_cache. by destruct (m _). Qed.

Lemma put_space_inv oc w sw :
  suite_inv sw -> general_inv w -> is_Some (_fetcher (cache w)) ->
  max_items (cache w) = suite_max_items (suite sw) ->
  suite_inv (put_space oc w sw).
Proof.
  intros [Hw Hf Hm] Hw' Hf' Hm'. constructor; cbn; intros oc' sp' Hsp.
  - destruct (decide (oc = oc')) as [<- | Hne].
    + rewrite lookup_insert_eq in Hsp. injection Hsp as <-.
      by apply (general_inv_moved w).
    + rewrite lookup_insert_ne in Hsp by done.
      eapply general_inv_space_world, Hw, Hsp.
  - destruct (decide (oc = oc')) as [<- | Hne].
    + rewrite lookup_insert_eq in Hsp. by injection Hsp as <-.
    + rewrite lookup_insert_ne in Hsp by done. eauto.
  - destruct (decide (oc = oc')) as [<- | Hne].
    + rewrite lookup_insert_eq in Hsp. by injection Hsp as <-.
    + rewrite lookup_insert_ne in Hsp by done. eauto.
Qed.

Lemma on_cache_inv {A} oc sp (m : M A) sw :
  suite_inv sw ->
  max_items (space_cache sp) = suite_max_items (suite sw) ->
  steady (space_world sw sp) (m (space_world sw sp)) ->
  is_Some (_fetcher (cache (final_world (m (space_world sw sp))))) ->
  suite_inv (suite_final (on_cache oc sp m sw)).
Proof.
  intros Hinv Hmax [Hw' Hs'] Hf'. rewrite suite_final_on_cache.
  apply put_space_inv; auto.
  by rewrite (step_max_items _ _ Hs').
Qed.

Lemma on_cache_frame {A} oc sp (m : M A) sw oc' :
  oc' <> oc ->
  _caches (suite (suite_final (on_cache oc sp m sw))) !! oc'
  = _caches (suite sw) !! oc'.
Proof.
  intros Hne. rewrite suite_final_on_cache. cbn.
  by rewrite lookup_insert_ne.
Qed.

Lemma on_cache_max {A} oc sp (m : M A) sw :
  suite_max_items (suite (suite_final (on_cache oc sp m sw)))
  = suite_max_items (suite sw).
Proof. by rewrite suite_final_on_cache. Qed.

Lemma suite_tick_loop_inv order sw :
  suite_inv sw ->
  suite_inv (suite_final (suite_tick_loop order sw)) /\
  suite_max_items (suite (suite_final (suite_tick_loop order sw)))
  = suite_max_items (suite sw).
Proof.
  revert sw. induction order as [| oc rest IH]; intros sw Hinv; [done |].
  cbn [suite_tick_loop].
  destruct (_caches (suite sw) !! oc) as [sp |] eqn:Hsp; [| by apply IH].
  assert (Hinv1 : suite_inv (suite_final (on_cache oc sp tick sw))).
  { apply on_cache_inv; [done | by eapply sinv_max | |].
    - apply tick_steady. by eapply sinv_world.
    - rewrite (keeps_tick (space_world sw sp)). by eapply sinv_fetcher. }
  pose proof (on_cache_max oc sp tick sw) as Hmax1.
  destruct (on_cache oc sp tick sw) as [[] sw1 | e sw1]; cbn in *.
  - destruct (IH sw1 Hinv1) as [H1 H2]. split; [done | congruence].
  - done.
Qed.

Lemma run_suite_call_inv c sw :
  1 <= suite_max_items (suite sw) ->
  suite_inv sw -> suite_call_ok sw c = true ->
  suite_inv (suite_final (run_suite_call c sw)) /\
  suite_max_items (suite (suite_final (run_suite_call c sw)))
  = suite_max_items (suite sw).
Proof.
  intros Hm Hinv Hok. destruct c; cbn [run_suite_call suite_call_ok] in *.
  - unfold suite_request_object.
    destruct (_caches (suite sw) !! oc) as [sp |] eqn:Hsp; [| done].
    split; [| apply on_cache_max].
    apply on_cache_inv; [done | by eapply sinv_max | |].
    + apply request_object_steady. by eapply sinv_world.
    + rewrite (keeps_request_object _ _ _ _ _ _ _ _ _ _ (space_world sw sp)).
      by eapply sinv_fetcher.
  - by apply suite_tick_loop_inv.
  - unfold register_fetcher. split; [| apply on_cache_max].
    destruct (_caches (suite sw) !! oc) as [sp |] eqn:Hsp.
    + apply on_cache_inv; [done | by eapply sinv_max | |].
      * apply set_fetcher_steady. by eapply sinv_world.
      * cbn. eauto.
    + apply on_cache_inv; [done | done | |].
      * apply set_fetcher_steady.
        apply (general_inv_moved
                 (initial_world (suite_clock sw)
                    (suite_max_items (suite sw))
                    (suite_default_freshness_period (suite sw))
                    (suite_default_expiration_period (suite sw))
                    (suite_default_purge_period (suite sw))));
          [reflexivity .. |].
        by apply world_inv_general, initial_world_inv.
      * cbn. eauto.
  - unfold unregister_fetcher.
    destruct (_caches (suite sw) !! oc) as [sp |] eqn:Hsp; [| done].
    split; [| apply on_cache_max].
    apply on_cache_inv; [done | by eapply sinv_max | |].
    + apply set_fetcher_steady. by eapply sinv_world.
    + cbn. eauto.
  - destruct (_caches (suite sw) !! oc) as [sp |] eqn:Hsp; [| done].
    split; [| apply on_cache_max].
    apply on_cache_inv; [done | by eapply sinv_max | |].
    + apply run_call_steady; [by eapply sinv_world | done].
    + apply run_call_has_fetcher. by eapply sinv_fetcher.
Qed.

Lemma run_suite_calls_inv cs sw :
  1 <= suite_max_items (suite sw) -> suite_inv sw ->
  suite_inv (run_suite_calls cs sw) /\
  suite_max_items (suite (run_suite_calls cs sw))
  = suite_max_items (suite sw).
Proof.
  revert sw. induction cs as [| c cs IH]; intros sw Hm Hinv; [done |].
  cbn [run_suite_calls].
  destruct (suite_call_ok sw c) eqn:Hok; [| by apply IH].
  destruct (run_suite_call_inv c sw Hm Hinv Hok) as [Hinv1 Hmax1].
  destruct (IH _ ltac:(by rewrite Hmax1) Hinv1) as [H1 H2].
  split; [done | congruence].
Qed.

Lemma initial_suite_inv clk m fp ep pp :
  suite_inv (initial_suite clk m fp ep pp).
Proof. constructor; cbn; intros oc sp H; by rewrite lookup_empty in H. Qed.

(** The invariant holds in every state that calls can lead to from a new
    suite with a positive [max_items]. *)
Lemma reachable_suite_inv clk m fp ep pp cs :
  1 <= m ->
  suite_inv (run_suite_calls cs (initial_suite clk m fp ep pp)) /\
  suite_max_items (suite (run_suite_calls cs (initial_suite clk m fp ep pp)))
  = m.
Proof.
  intros Hm. apply run_suite_calls_inv; [done | apply initial_suite_inv].
Qed.

(** ** Which caches a suite has *)

Lemma put_space_dom oc' w sw oc :
  is_Some (_caches (suite (put_space oc' w sw)) !! oc) <->
  oc = oc' \/ is_Some (_caches (suite sw) !! oc).
Proof.
  cbn. rewrite lookup_insert_is_Some. split.
  - intros [-> | [_ H]]; auto.
  - intros [-> | H]; [by left |].
    destruct (decide (oc' = oc)); [by left | by right].
Qed.

Lemma on_cache_dom {A} oc' sp (m : M A) sw oc :
  is_Some (_caches (suite sw) !! oc') ->
  is_Some (_caches (suite (suite_final (on_cache oc' sp m sw))) !! oc) <->
  is_Some (_caches (suite sw) !! oc).
Proof.
  intros H. rewrite suite_final_on_cache, put_space_dom.
  split; [intros [-> | ?]; done | auto].
Qed.

Lemma suite_tick_loop_dom order sw oc :
  is_Some (_caches (suite (suite_final (suite_tick_loop order sw))) !! oc) <->
  is_Some (_caches (suite sw) !! oc).
Proof.
  revert sw. induction order as [| oc' rest IH]; intros sw; [done |].
  cbn [suite_tick_loop].
  destruct (_caches (suite sw) !! oc') as [sp |] eqn:Hsp; [| apply IH].
  pose proof (on_cache_dom oc' sp tick sw oc ltac:(by rewrite Hsp)) as Hd.
  destruct (on_cache oc' sp tick sw) as [[] sw1 | e sw1]; cbn in *.
  - by rewrite IH.
  - done.
Qed.

Lemma run_suite_call_dom c sw oc :
  is_Some (_caches (suite (suite_final (run_suite_call c sw))) !! oc) <->
  is_Some (_caches (suite sw) !! oc) \/ registers oc c = true.
Proof.
  destruct c; cbn [run_suite_call registers].
  - unfold suite_request_object.
    destruct (_caches (suite sw) !! oc0) as [sp |] eqn:Hsp.
    + rewrite on_cache_dom by (by rewrite Hsp). intuition (auto; congruence).
    + cbn. intuition (auto; congruence).
  - unfold suite_tick. rewrite suite_tick_loop_dom.
    intuition (auto; congruence).
  - unfold register_fetcher. rewrite suite_final_on_cache, put_space_dom.
    rewrite bool_decide_eq_true. intuition (auto; congruence).
  - unfold unregister_fetcher.
    destruct (_caches (suite sw) !! oc0) as [sp |] eqn:Hsp.
    + rewrite on_cache_dom by (by rewrite Hsp). intuition (auto; congruence).
    + cbn. intuition (auto; congruence).
  - destruct (_caches (suite sw) !! oc0) as [sp |] eqn:Hsp.
    + rewrite on_cache_dom by (by rewrite Hsp). intuition (auto; congruence).
    + cbn. intuition (auto; congruence).
Qed.

Lemma run_suite_calls_dom cs sw oc :
  is_Some (_caches (suite (run_suite_calls cs sw)) !! oc) <->
  is_Some (_caches (suite sw) !! oc) \/
  exists c, c ∈ cs /\ registers oc c = true.
Proof.
  revert sw. induction cs as [| c cs IH]; intros sw; cbn [run_suite_calls].
  - split; [auto |]. intros [H | (c & Hc & _)]; [done |].
    by apply elem_of_nil in Hc.
  - rewrite IH.
    assert (Hok : registers oc c = true -> suite_call_ok sw c = true)
      by (by destruct c).
    destruct (suite_call_ok sw c) eqn:Hc.
    + rewrite run_suite_call_dom. split.
      * intros [[H | H] | (c' & Hc' & H)]; [by left | |].
        -- right. exists c. split; [by left | done].
        -- right. exists c'. split; [by right | done].
      * intros [H | (c' & Hc' & H)]; [by left; left |].
        apply elem_of_cons in Hc' as [-> | Hc']; [by left; right |].
        right. eauto.
    + split.
      * intros [H | (c' & Hc' & H)]; [by left |].
        right. exists c'. split; [by right | done].
      * intros [H | (c' & Hc' & H)]; [by left |].
        apply elem_of_cons in Hc' as [-> | Hc'].
        -- specialize (Hok H). congruence.
        -- right. eauto.
Qed.

(** A suite has a cache for a class exactly when [register_fetcher] has
    been called for the class, at any time before:
    [unregister_fetcher] does not take the cache away.  For a class that
    was never registered [request_object] raises [TypeError] with the
    message ["No cache for %r" % (object_class,)] and changes nothing. *)
Theorem suite_has_cache_iff_registered clk m fp ep pp cs oc :
  let sw := run_suite_calls cs (initial_suite clk m fp ep pp) in
  (is_Some (_caches (suite sw) !! oc) <->
   exists c, c ∈ cs /\ registers oc c = true) /\
  ((forall c, c ∈ cs -> registers oc c = false) ->
   forall a st oh eh th bs tp fp' ep' pp',
     suite_request_object oc a st oh eh th bs tp fp' ep' pp' sw
     = SRaise (TypeError ("No cache for " ++ class_repr oc)) sw).
Proof.
  intros sw.
  assert (Hdom : is_Some (_caches (suite sw) !! oc) <->
                 exists c, c ∈ cs /\ registers oc c = true).
  { subst sw. rewrite run_suite_calls_dom. cbn. rewrite lookup_empty.
    split; [intros [[? [=]] | H]; done | auto]. }
  split; [done |].
  intros Hnot a st oh eh th bs tp fp' ep' pp'.
  unfold suite_request_object.
  destruct (_caches (suite sw) !! oc) as [sp |] eqn:Hsp; [| done].
  destruct (proj1 Hdom ltac:(eauto)) as (c & Hc & Hr).
  rewrite (Hnot c Hc) in Hr. discriminate.
Qed.

Lemma suite_has_cache_iff_registered_witness :
  let sw := run_suite_calls example_suite_calls_unregistered
              (initial_suite example_clock 10 _hour (12 * _hour)
                 (24 * _hour)) in
  (forall c, c ∈ example_suite_calls_unregistered ->
     registers DiscoItems c = false) /\
  is_Some (_caches (suite sw) !! DiscoInfo) /\
  suite_request_object DiscoItems "a" "fresh" (Handler 7) None None None None
    None None None sw
  = SRaise
      (TypeError "No cache for <class 'pyxmpp.jabber.disco.DiscoItems'>") sw.
Proof.
  intros sw.
  assert (Hnot : forall c, c ∈ example_suite_calls_unregistered ->
            registers DiscoItems c = false).
  { intros c Hc. unfold example_suite_calls_unregistered in Hc.
    apply elem_of_cons in Hc as [-> | Hc]; [reflexivity |].
    apply list_elem_of_singleton in Hc as ->. reflexivity. }
  split; [exact Hnot |].
  destruct (suite_has_cache_iff_registered example_clock 10 _hour (12 * _hour)
              (24 * _hour) example_suite_calls_unregistered DiscoInfo)
    as [Hiff _].
  split.
  - apply Hiff. eexists. split; [apply elem_of_cons; left; reflexivity |].
    reflexivity.
  - destruct (suite_has_cache_iff_registered example_clock 10 _hour
                (12 * _hour) (24 * _hour) example_suite_calls_unregistered
                DiscoItems) as [_ Hreq].
    exact (Hreq Hnot "a" "fresh" (Handler 7) None None None None None None
             None).
Defined.

(** ** The exceptions of a request *)

Lemma CacheFetcher__init__Raise_exn cls a fp ep pp oh eh th tp bs w e w' :
  CacheFetcher__init__ cls a fp ep pp oh eh th tp bs w = Raise e w' ->
  e = OverflowError "date value out of range" /\ truthy_period tp = true.
Proof.
  unfold CacheFetcher__init__. rewrite run_bind.
  destruct (truthy_period tp); [| discriminate].
  rewrite run_bind. cbn. unfold datetime_add.
  destruct (_ && _); [discriminate |]. cbn. by intros [= <- _].
Qed.

(** What [Cache.request_object] raises, and when. *)
Lemma request_object_raises a st oh eh th bs tp fp ep pp w e w' :
  cache_inv w ->
  request_object a st oh eh th bs tp fp ep pp w = Raise e w' ->
  request_raised a st oh tp w e w'.
Proof.
  intros Hc Hrun. unfold request_raised.
  pose proof (get_item_good
                (fun e => e = KeyError st /\ _state_values st = None)
                a st w Hc (fun H => conj eq_refl H)) as Hg.
  destruct (get_item a st w) as [item w1 | e1 w1] eqn:Hget.
  2:{ unfold request_object in Hrun. rewrite run_bind, Hget in Hrun.
      injection Hrun as <- <-. destruct Hg as (_ & _ & -> & H). by left. }
  right.
  destruct (good_Ok_inv _ _ _ _ _ Hg eq_refl) as (Hc1 & Hs1).
  rewrite (request_object_after_lookup _ _ _ _ _ _ _ _ _ _ _ _ _ Hc1 Hget)
    in Hrun.
  2:{ intros i ->. destruct (get_item_result _ _ _ _ _ Hget)
        as (_ & it & _ & Hit & _). eauto. }
  pose proof (hit_world_cache_inv oh item w1 Hc1) as Hc2.
  pose proof (hit_world_fetcher_step oh item w1) as Hs2.
  set (w2 := hit_world oh item w1) in *.
  assert (Hs02 : fetcher_step w w2)
    by (etrans; [by apply item_step_fetcher_step | done]).
  assert (Hrest :
    (exists i, item = Some i /\ handler_exn oh = Some e) \/
    match _fetcher (cache w2) with
    | None =>
        Raise
          (AttributeError "Cache instance has no attribute '_fetcher'") w2
    | Some None => Raise (TypeError "No cache fetcher defined") w2
    | Some (Some cls) =>
        let x := requested_fetcher (cache w2) (clock w2 (reads w2))
                   a oh eh th bs tp fp ep pp cls in
        match CacheFetcher__init__ cls a
                (_item_freshness_period x) (_item_expiration_period x)
                (_item_purge_period x) oh (_error_handler x) th tp bs w2
        with
        | Raise e w3 => Raise e w3
        | Ok _ w3 =>
            match fetch (length (fetchers_store w2)) w3 with
            | Ok _ w4 =>
                Ok tt (listed_world x (length (fetchers_store w2)) w4)
            | Raise e w4 => Raise e w4
            end
        end
    end = Raise e w').
  { destruct item as [i |], (handler_exn oh) as [ex |]; auto.
    left. exists i. split; [done |]. by injection Hrun as <- _. }
  clear Hrun. destruct Hrest as [(i & -> & Hex) | Hrest].
  { left. split; [done |].
    destruct (get_item_result _ _ _ _ _ Hget) as (Ha & _). eauto. }
  right. rewrite (fstep_fetcher _ _ Hs02) in Hrest.
  destruct (_fetcher (cache w)) as [[cls |] |].
  - right. right. cbv zeta in Hrest.
    set (x := requested_fetcher _ _ _ _ _ _ _ _ _ _ _ _) in Hrest.
    destruct (CacheFetcher__init__ _ _ _ _ _ _ _ _ _ _ w2) as [f' w3 | e3 w3]
      eqn:Hinit.
    + right. exists cls. split; [done |].
      apply CacheFetcher__init__Ok in Hinit as (Hdl & _ & ->).
      change (fetcher_world _ tp w2) with (fetcher_world x tp w2) in Hrest.
      rewrite (fstep_store _ _ Hs02) in Hrest.
      set (f := length (fetchers_store w)) in *.
      assert (Hx : fetchers_store (fetcher_world x tp w2) !! f = Some x).
      { cbn. unfold f. rewrite <- (fstep_store _ _ Hs02).
        apply list_lookup_middle. reflexivity. }
      destruct (fetch f (fetcher_world x tp w2)) as [[] w4 | e4 w4]
        eqn:Hfetch; [discriminate |].
      injection Hrest as <- <-.
      pose proof Hfetch as Hf. rewrite (fetch_run f x) in Hf by done.
      assert (Hcls : fetcher_class_of x = cls) by reflexivity.
      rewrite Hcls in Hf.
      split; [by intros -> |]. split; [intros ->; by injection Hf as <- _ |].
      exists x, (fetcher_world x tp w2). done.
    + left. injection Hrest as <- <-.
      apply CacheFetcher__init__Raise_exn in Hinit as [-> ?]. eauto.
  - right. left. by injection Hrest as <- _.
  - left. by injection Hrest as <- _.
Qed.

(** Why [CacheSuite.request_object] raises, in every state that calls
    can lead to from a new suite with a positive [max_items].  The suite
    has no cache for the class: [TypeError], with the message
    ["No cache for %r" % (object_class,)], and nothing changes.  Or the
    suite has the cache, and the exception is the one of
    [Cache.request_object]: [KeyError] for a state name that
    [_state_values] does not have; what the object handler raises when
    it is called with the item found; [TypeError] when the cache has no
    fetcher class; [OverflowError] for a deadline out of range; what the
    [fetch] of the new fetcher raises, which is [RuntimeError] when the
    class registered is [CacheFetcher] itself.  The [AttributeError] of a
    cache without the attribute [_fetcher] is not among them: a cache of
    a suite is made by [register_fetcher], which calls [set_fetcher]. *)
Theorem suite_request_object_exceptions
    clk m fp ep pp cs oc a st oh eh th bs tp fp' ep' pp' e sw' :
  1 <= m ->
  let sw := run_suite_calls cs (initial_suite clk m fp ep pp) in
  suite_request_object oc a st oh eh th bs tp fp' ep' pp' sw = SRaise e sw' ->
  (e = TypeError ("No cache for " ++ class_repr oc) /\
   _caches (suite sw) !! oc = None /\ sw' = sw) \/
  exists sp w',
    _caches (suite sw) !! oc = Some sp /\ sw' = put_space oc w' sw /\
    ((e = KeyError st /\ _state_values st = None) \/
     (handler_exn oh = Some e /\ is_Some (_items (space_cache sp) !! a)) \/
     (e = TypeError "No cache fetcher defined" /\
      _fetcher (space_cache sp) = Some None) \/
     (e = OverflowError "date value out of range" /\
      truthy_period tp = true /\
      exists cls, _fetcher (space_cache sp) = Some (Some cls)) \/
     (exists cls,
        _fetcher (space_cache sp) = Some (Some cls) /\
        fetch_raised cls (length (space_fetchers sp)) e w')).
Proof.
  intros Hm sw Hrun.
  destruct (reachable_suite_inv clk m fp ep pp cs Hm) as [Hinv _].
  fold sw in Hinv. unfold suite_request_object in Hrun.
  destruct (_caches (suite sw) !! oc) as [sp |] eqn:Hsp.
  - right. unfold on_cache in Hrun.
    destruct (request_object _ _ _ _ _ _ _ _ _ _ _) as [[] w1 | e1 w1]
      eqn:Hreq; [discriminate |].
    injection Hrun as <- <-. exists sp, w1.
    split; [done |]. split; [done |].
    pose proof (request_object_raises _ _ _ _ _ _ _ _ _ _ _ _ _
                  (ginv_cache _ (sinv_world _ Hinv _ _ Hsp)) Hreq) as He.
    pose proof (sinv_fetcher _ Hinv _ _ Hsp) as [fc Hfc].
    unfold request_raised in He. cbn in He.
    destruct He as [He | [He | [[_ He] | He]]]; [auto | auto | | auto].
    congruence.
  - injection Hrun as <- <-. left. auto.
Qed.

Lemma suite_request_object_exceptions_witness :
  1 <= 10 /\
  let sw := run_suite_calls example_suite_calls_unregistered
              (initial_suite example_clock 10 _hour (12 * _hour)
                 (24 * _hour)) in
  let e := TypeError "No cache fetcher defined" in
  let sw' := suite_final
               (suite_request_object DiscoInfo "a" "fresh" (Handler 7) None
                  None None (Some 50) None None None sw) in
  suite_request_object DiscoInfo "a" "fresh" (Handler 7) None None None
    (Some 50) None None None sw = SRaise e sw' /\
  ((e = TypeError ("No cache for " ++ class_repr DiscoInfo) /\
    _caches (suite sw) !! DiscoInfo = None /\ sw' = sw) \/
   exists sp w',
     _caches (suite sw) !! DiscoInfo = Some sp /\
     sw' = put_space DiscoInfo w' sw /\
     ((e = KeyError "fresh" /\ _state_values "fresh" = None) \/
      (handler_exn (Handler 7) = Some e /\
       is_Some (_items (space_cache sp) !! "a")) \/
      (e = TypeError "No cache fetcher defined" /\
       _fetcher (space_cache sp) = Some None) \/
      (e = OverflowError "date value out of range" /\
       truthy_period (Some 50) = true /\
       exists cls, _fetcher (space_cache sp) = Some (Some cls)) \/
      (exists cls,
         _fetcher (space_cache sp) = Some (Some cls) /\
         fetch_raised cls (length (space_fetchers sp)) e w'))).
Proof.
  assert (Hm : 1 <= 10) by lia.
  split; [exact Hm |]. intros sw e sw'.
  assert (Hrun : suite_request_object DiscoInfo "a" "fresh" (Handler 7) None
                   None None (Some 50) None None None sw = SRaise e sw')
    by (vm_compute; reflexivity).
  split; [exact Hrun |].
  exact (suite_request_object_exceptions example_clock 10 _hour (12 * _hour)
           (24 * _hour) example_suite_calls_unregistered DiscoInfo "a"
           "fresh" (Handler 7) None None None (Some 50) None None None e sw'
           Hm Hrun).
Defined.

(** ** Unregistering *)

(** After [unregister_fetcher] the cache of the class is still there,
    with its items.  A request for an address that is stored, with a
    state name of value 3, then looks the item up, hands it to the object
    handler, and raises [TypeError] afterwards, for the fetcher class
    that is missing: the caller gets the object and the exception.  (When
    the object handler raises, the exception is the one of the handler.)
    No fetcher is made. *)
Theorem request_after_unregister_delivers_then_raises
    oc sp a st i sw oh eh th bs tp fp ep pp :
  _caches (suite sw) !! oc = Some sp ->
  cache_inv (space_world sw sp) ->
  _state_values st = Some 3 ->
  _items (space_cache sp) !! a = Some i ->
  exists sw1 sw2 sp2 it,
    unregister_fetcher oc sw = SOk tt sw1 /\
    suite_request_object oc a st oh eh th bs tp fp ep pp sw1
    = SRaise
        match handler_exn oh with
        | None => TypeError "No cache fetcher defined"
        | Some ex => ex
        end sw2 /\
    _caches (suite sw2) !! oc = Some sp2 /\
    space_items sp2 !! i = Some it /\ address it = a /\
    space_trace sp2 =
      space_trace sp
      ++ [ObjectHandlerCall None oh a (Some (value it)) (state it)] /\
    space_fetchers sp2 = space_fetchers sp /\
    _active_fetchers (space_cache sp2) = _active_fetchers (space_cache sp).
Proof.
  intros Hsp Hc Hst Ha.
  set (w0 := final_world (set_fetcher None (space_world sw sp))).
  set (sw1 := put_space oc w0 sw).
  assert (Hun : unregister_fetcher oc sw = SOk tt sw1)
    by (unfold unregister_fetcher; rewrite Hsp; reflexivity).
  set (w1 := space_world sw1 (world_space w0)).
  assert (Hc1 : cache_inv w1)
    by (apply (cache_inv_same_items (space_world sw sp));
        [reflexivity .. | done]).
  destruct (get_item_value3 a st i w1 Hc1 Hst Ha)
    as (w2 & it0 & it & Hget & _ & Hit & _ & Haddr & Hc2 & Hs2).
  assert (Hreq : request_object a st oh eh th bs tp fp ep pp w1
                 = Raise
                     match handler_exn oh with
                     | None => TypeError "No cache fetcher defined"
                     | Some ex => ex
                     end (hit_world oh (Some i) w2)).
  { rewrite (request_object_after_lookup _ _ _ _ _ _ _ _ _ _ _ _ _ Hc2 Hget)
      by (intros ? [= <-]; eauto).
    destruct (handler_exn oh); [reflexivity |].
    by rewrite hit_world_cache, (item_step_fetcher _ _ Hs2). }
  exists sw1. eexists. eexists. exists it. split; [exact Hun |].
  unfold suite_request_object.
  assert (Hsp1 : _caches (suite sw1) !! oc = Some (world_space w1))
    by (subst sw1; cbn; apply lookup_insert_eq).
  rewrite Hsp1. unfold on_cache.
  change (space_world sw1 (world_space w1)) with w1. rewrite Hreq.
  split; [reflexivity |]. cbn.
  split; [apply lookup_insert_eq |].
  unfold hit_world. rewrite Hit. cbn.
  split; [done |]. split; [done |].
  rewrite (item_step_trace _ _ Hs2), (item_step_fetchers _ _ Hs2),
    (item_step_active _ _ Hs2), Haddr.
  done.
Qed.

Lemma request_after_unregister_delivers_then_raises_witness :
  let sw := example_suite_cached in
  let sp := world_space example_world_cached in
  _caches (suite sw) !! DiscoInfo = Some sp /\
  cache_inv (space_world sw sp) /\
  _state_values "stale" = Some 3 /\
  _items (space_cache sp) !! "a" = Some 0%nat /\
  exists sw1 sw2 sp2 it,
    unregister_fetcher DiscoInfo sw = SOk tt sw1 /\
    suite_request_object DiscoInfo "a" "stale" (Handler 7) None None None
      (Some 50) None None None sw1
    = SRaise
        match handler_exn (Handler 7) with
        | None => TypeError "No cache fetcher defined"
        | Some ex => ex
        end sw2 /\
    _caches (suite sw2) !! DiscoInfo = Some sp2 /\
    space_items sp2 !! 0%nat = Some it /\ address it = "a" /\
    space_trace sp2 =
      space_trace sp
      ++ [ObjectHandlerCall None (Handler 7) "a" (Some (value it))
            (state it)] /\
    space_fetchers sp2 = space_fetchers sp /\
    _active_fetchers (space_cache sp2) = _active_fetchers (space_cache sp).
Proof.
  intros sw sp.
  assert (H1 : _caches (suite sw) !! DiscoInfo = Some sp)
    by (vm_compute; reflexivity).
  assert (H2 : cache_inv (space_world sw sp))
    by (apply cache_inv_b_sound; vm_compute; reflexivity).
  assert (H3 : _state_values "stale" = Some 3) by reflexivity.
  assert (H4 : _items (space_cache sp) !! "a" = Some 0%nat)
    by (vm_compute; reflexivity).
  split; [exact H1 |]. split; [exact H2 |]. split; [exact H3 |].
  split; [exact H4 |].
  exact (request_after_unregister_delivers_then_raises DiscoInfo sp "a"
           "stale" 0 sw (Handler 7) None None None (Some 50) None None None
           H1 H2 H3 H4).
Defined.

(** ** tick *)






(** * Further properties of the stream start *)

(** ** Strings *)

Lemma string_app_cons c (s1 s2 : string) :
  (String c s1 ++ s2)%string = String c (s1 ++ s2)%string.
Proof. reflexivity. Qed.

Lemma string_app_nil_l (s : string) : ("" ++ s)%string = s.
Proof. reflexivity. Qed.

Lemma string_app_nil_r (s : string) : (s ++ "")%string = s.
Proof.
  induction s as [| c s IH]; [done |]. by rewrite string_app_cons, IH.
Qed.

Lemma string_app_assoc (s1 s2 s3 : string) :
  ((s1 ++ s2) ++ s3)%string = (s1 ++ (s2 ++ s3))%string.
Proof.
  induction s1 as [| c s1 IH]; [done |].
  by rewrite !string_app_cons, IH.
Qed.

Lemma string_length_app (s1 s2 : string) :
  String.length (s1 ++ s2) = (String.length s1 + String.length s2)%nat.
Proof.
  induction s1 as [| c s1 IH]; [done |].
  rewrite string_app_cons. cbn. by rewrite IH.
Qed.

Lemma substring_app_l (s1 s2 : string) :
  String.substring 0 (String.length s1) (s1 ++ s2) = s1.
Proof.
  induction s1 as [| c s1 IH]; [by destruct s2 |].
  rewrite string_app_cons. cbn. by rewrite IH.
Qed.

Lemma consumed_app (s1 s2 : string) : consumed (s1 ++ s2) s2 = s1.
Proof.
  unfold consumed. rewrite string_length_app.
  replace (String.length s1 + String.length s2 - String.length s2)%nat
    with (String.length s1) by lia.
  apply substring_app_l.
Qed.

Lemma all_in_class_app cl (s1 s2 : string) :
  all_in_class cl (s1 ++ s2)
  = all_in_class cl s1 && all_in_class cl s2.
Proof.
  induction s1 as [| c s1 IH]; [done |].
  rewrite string_app_cons. cbn. by rewrite IH, andb_assoc.
Qed.

(** ** The matcher *)

(** A match of [cl*] has taken characters of the class and gone on with
    the rest. *)
Lemma match_star_sound {X} cl s (k : string -> option X) x :
  match_star cl s k = Some x ->
  exists s1 s2,
    s = (s1 ++ s2)%string /\ all_in_class cl s1 = true /\ k s2 = Some x.
Proof.
  induction s as [| c s IH]; cbn.
  - intros H. exists "", "". auto.
  - destruct (class_matches cl c) eqn:Hc.
    + destruct (match_star cl s k) as [y |] eqn:Hm.
      * intros [= <-]. destruct (IH eq_refl) as (s1 & s2 & -> & H1 & H2).
        exists (String c s1), s2. cbn. rewrite Hc. auto.
      * intros H. exists "", (String c s). auto.
    + intros H. exists "", (String c s). auto.
Qed.

(** [cl*] matches when the continuation accepts some split. *)
Lemma match_star_complete {X} cl s1 s2 (k : string -> option X) y :
  all_in_class cl s1 = true -> k s2 = Some y ->
  is_Some (match_star cl (s1 ++ s2) k).
Proof.
  intros H1 H2. induction s1 as [| c s1 IH].
  - rewrite string_app_nil_l. destruct s2 as [| c s2]; cbn; [eauto |].
    destruct (class_matches cl c); [| eauto].
    destruct (match_star cl s2 k); eauto.
  - cbn in H1. apply andb_true_iff in H1 as [Hc H1].
    rewrite string_app_cons. cbn. rewrite Hc.
    destruct (IH H1) as [x ->]. eauto.
Qed.

Lemma alnum_not_newline c :
  class_matches AlnumClass c = true -> class_matches AnyChar c = true.
Proof.
  cbn. unfold in_range. intros H.
  destruct (Ascii.eqb_spec c newline) as [-> | _]; [| done].
  vm_compute in H. discriminate.
Qed.

Lemma all_alnum_not_newline s :
  all_in_class AlnumClass s = true -> all_in_class AnyChar s = true.
Proof.
  induction s as [| c s IH]; [done |].
  cbn [all_in_class]. rewrite !andb_true_iff. intros [H1 H2].
  split; [by apply alnum_not_newline | auto].
Qed.


Lemma re_match_LANG_SPLIT_RE p :
  re_match LANG_SPLIT_RE p =
    match_star AnyChar p
      (fun s' =>
         match_regex LANG_SPLIT_RE_tail
           (mkMatchState s' (Some (consumed p s')))
           (fun st => Some (mkMatch (consumed p (rest st)) (captured st)))).
Proof. reflexivity. Qed.

Lemma hyphen_matches c :
  class_matches (Literal "-"%char) c = true -> c = "-"%char.
Proof. cbn. by intros H%Ascii.eqb_eq. Qed.

Lemma subtag_sound {X} s cap (k : match_state -> option X) x :
  match_regex LANG_SPLIT_RE_subtag (mkMatchState s cap) k = Some x ->
  exists sub nl,
    s = ("-" ++ sub ++ nl)%string /\ sub <> "" /\
    all_in_class AlnumClass sub = true /\
    (nl = "" \/ nl = String newline "") /\
    k (mkMatchState nl cap) = Some x.
Proof.
  unfold LANG_SPLIT_RE_subtag.
  cbn [match_regex rest captured].
  destruct s as [| c s]; [discriminate |].
  destruct (class_matches (Literal "-") c) eqn:Hc; [| discriminate].
  apply hyphen_matches in Hc as ->.
  destruct s as [| c1 s]; [discriminate |].
  destruct (class_matches AlnumClass c1) eqn:Hc1; [| discriminate].
  intros H. apply match_star_sound in H as (a1 & a2 & -> & Ha1 & H).
  exists (String c1 a1), a2. split; [reflexivity |]. split; [done |].
  split; [cbn [all_in_class]; by rewrite Hc1 |].
  cbn [match_regex rest] in H.
  destruct (String.eqb_spec a2 "") as [-> | _]; [auto |].
  destruct (String.eqb_spec a2 (String newline "")) as [-> | _]; [auto |].
  discriminate.
Qed.

Lemma subtag_complete {X} sub nl cap (k : match_state -> option X) y :
  sub <> "" -> all_in_class AlnumClass sub = true ->
  (nl = "" \/ nl = String newline "") ->
  k (mkMatchState nl cap) = Some y ->
  is_Some (match_regex LANG_SPLIT_RE_subtag
             (mkMatchState ("-" ++ sub ++ nl) cap) k).
Proof.
  intros Hne Hal Hnl Hk. unfold LANG_SPLIT_RE_subtag.
  destruct sub as [| c1 a1]; [done |].
  cbn [all_in_class] in Hal. apply andb_true_iff in Hal as [Hc1 Ha1].
  rewrite !string_app_cons, string_app_nil_l.
  cbn [match_regex rest captured class_matches]. rewrite Ascii.eqb_refl.
  cbn [class_matches] in Hc1. rewrite Hc1.
  apply (match_star_complete AlnumClass a1 nl _ y Ha1).
  cbn [match_regex rest].
  destruct Hnl as [-> | ->]; cbn; exact Hk.
Qed.

Lemma match_regex_opt {X} r st (k : match_state -> option X) :
  match_regex (Opt r) st k
  = match match_regex r st k with Some x => Some x | None => k st end.
Proof. reflexivity. Qed.

Lemma tail_sound {X} s cap (k : match_state -> option X) x :
  match_regex LANG_SPLIT_RE_tail (mkMatchState s cap) k = Some x ->
  exists mid sub nl,
    s = (mid ++ "-" ++ sub ++ nl)%string /\
    all_in_class AnyChar mid = true /\ sub <> "" /\
    all_in_class AlnumClass sub = true /\
    (nl = "" \/ nl = String newline "") /\
    k (mkMatchState nl cap) = Some x.
Proof.
  unfold LANG_SPLIT_RE_tail.
  change (Seq (Chr (Literal "-")) (Seq (Plus AlnumClass) EndOfString))
    with LANG_SPLIT_RE_subtag.
  rewrite match_regex_seq, match_regex_opt.
  destruct (@match_regex X (Seq _ _) _ _) as [y |] eqn:Hopt.
  - intros [= <-]. rewrite match_regex_seq in Hopt.
    cbn [match_regex rest captured] in Hopt.
    destruct s as [| c s]; [discriminate |].
    destruct (class_matches (Literal "-") c) eqn:Hc; [| discriminate].
    apply hyphen_matches in Hc as ->.
    destruct s as [| c0 s]; [discriminate |].
    destruct (class_matches AlnumClass c0) eqn:Hc0; [| discriminate].
    apply subtag_sound in Hopt as (sub & nl & -> & ? & ? & ? & ?).
    exists (String "-" (String c0 "")), sub, nl.
    split; [reflexivity |].
    split; [| done].
    cbn [all_in_class]. rewrite (alnum_not_newline c0 Hc0). reflexivity.
  - intros H.
    apply subtag_sound in H as (sub & nl & -> & ? & ? & ? & ?).
    exists "", sub, nl. split; [reflexivity |]. split; [reflexivity |].
    auto.
Qed.

Lemma tail_complete {X} sub nl cap (k : match_state -> option X) y :
  sub <> "" -> all_in_class AlnumClass sub = true ->
  (nl = "" \/ nl = String newline "") ->
  k (mkMatchState nl cap) = Some y ->
  is_Some (match_regex LANG_SPLIT_RE_tail
             (mkMatchState ("-" ++ sub ++ nl) cap) k).
Proof.
  intros Hne Hal Hnl Hk. unfold LANG_SPLIT_RE_tail.
  change (Seq (Chr (Literal "-")) (Seq (Plus AlnumClass) EndOfString))
    with LANG_SPLIT_RE_subtag.
  rewrite match_regex_seq, match_regex_opt.
  destruct (@match_regex X (Seq _ _) _ _); [eauto |].
  by apply (subtag_complete sub nl cap k y).
Qed.

(** What [LANG_SPLIT_RE] matches: a match means that the text is a tag
    with a last subtag, and [group(0)] is the tag without the line
    end. *)
Lemma LANG_SPLIT_RE_sound p m :
  re_match LANG_SPLIT_RE p = Some m ->
  exists pre sub nl,
    tag_with_subtag p pre sub nl /\ group0 m = (pre ++ "-" ++ sub)%string.
Proof.
  rewrite re_match_LANG_SPLIT_RE. intros H.
  apply match_star_sound in H as (s1 & s2 & Hp & Hs1 & H).
  apply tail_sound in H as (mid & sub & nl & -> & Hmid & Hne & Hal & Hnl & H).
  injection H as <-. cbn [group0 rest].
  assert (Hp' : p = ((s1 ++ mid) ++ "-" ++ sub ++ nl)%string)
    by (by rewrite Hp, string_app_assoc).
  exists (s1 ++ mid)%string, sub, nl. split.
  - split; [done |]. split; [done |]. split; [done |]. split; [| done].
    by rewrite all_in_class_app, Hs1, Hmid.
  - rewrite Hp'.
    replace ((s1 ++ mid) ++ "-" ++ sub ++ nl)%string
      with (((s1 ++ mid) ++ "-" ++ sub) ++ nl)%string
      by (by rewrite !string_app_assoc).
    apply consumed_app.
Qed.

Lemma LANG_SPLIT_RE_complete p pre sub nl :
  tag_with_subtag p pre sub nl -> is_Some (re_match LANG_SPLIT_RE p).
Proof.
  intros (-> & Hne & Hal & Hpre & Hnl). rewrite re_match_LANG_SPLIT_RE.
  destruct (tail_complete sub nl
              (Some (consumed (pre ++ "-" ++ sub ++ nl)
                       ("-" ++ sub ++ nl)))
              (fun st =>
                 Some (mkMatch (consumed (pre ++ "-" ++ sub ++ nl) (rest st))
                         (captured st))) _ Hne Hal Hnl eq_refl) as [y Hy].
  by apply (match_star_complete AnyChar pre _ _ y).
Qed.

(** [LANG_SPLIT_RE] matches exactly the texts that end in a hyphen and a
    last subtag of one or more letters and digits, with nothing but a
    line end after it and no line end before it; [group(0)] of the match
    is the text without that line end, so for a tag without a line end
    it is the tag itself. *)
Theorem LANG_SPLIT_RE_matches_tags_with_subtag p :
  (forall m, re_match LANG_SPLIT_RE p = Some m ->
     exists pre sub nl,
       tag_with_subtag p pre sub nl /\
       group0 m = (pre ++ "-" ++ sub)%string) /\
  (forall pre sub nl,
     tag_with_subtag p pre sub nl -> is_Some (re_match LANG_SPLIT_RE p)).
Proof.
  split.
  - intros m. apply LANG_SPLIT_RE_sound.
  - apply LANG_SPLIT_RE_complete.
Qed.

Lemma LANG_SPLIT_RE_matches_tags_with_subtag_witness :
  tag_with_subtag "en-US" "en" "US" "" /\
  is_Some (re_match LANG_SPLIT_RE "en-US") /\
  exists pre sub nl,
    tag_with_subtag "en-US" pre sub nl /\
    group0 (mkMatch "en-US" (Some "en")) = (pre ++ "-" ++ sub)%string.
Proof.
  assert (H : tag_with_subtag "en-US" "en" "US" "").
  { split; [reflexivity |]. split; [discriminate |].
    split; [reflexivity |]. split; [reflexivity | by left]. }
  split; [exact H |].
  destruct (LANG_SPLIT_RE_matches_tags_with_subtag "en-US") as [H1 H2].
  split; [exact (H2 "en" "US" "" H) |].
  exact (H1 (mkMatch "en-US" (Some "en")) LANG_SPLIT_RE_en_US).
Defined.

(** ** The negotiation loop *)

Lemma tag_not_empty (pre sub : string) : (pre ++ "-" ++ sub)%string <> "".
Proof. by destruct pre. Qed.

(** For a tag without a line end [group(0)] is the tag. *)
Lemma LANG_SPLIT_RE_group0_tag pre sub m :
  sub <> "" -> all_in_class AlnumClass sub = true ->
  all_in_class AnyChar pre = true ->
  re_match LANG_SPLIT_RE (pre ++ "-" ++ sub) = Some m ->
  group0 m = (pre ++ "-" ++ sub)%string.
Proof.
  intros Hne Hal Hpre Hm.
  destruct (LANG_SPLIT_RE_sound _ _ Hm)
    as (pre' & sub' & nl & (Hp & _ & _ & _ & Hnl) & ->).
  destruct Hnl as [-> | ->].
  - by rewrite !string_app_nil_r in Hp.
  - exfalso.
    assert (H : all_in_class AnyChar (pre ++ "-" ++ sub) = true).
    { rewrite !all_in_class_app, Hpre, (all_alnum_not_newline _ Hal).
      reflexivity. }
    rewrite Hp in H.
    replace (pre' ++ "-" ++ sub' ++ String newline "")%string
      with ((pre' ++ "-" ++ sub') ++ String newline "")%string in H
      by (by rewrite !string_app_assoc).
    rewrite all_in_class_app in H. apply andb_true_iff in H as [_ H].
    vm_compute in H. discriminate.
Qed.

Lemma subtag_tag_stuck fuel languages pre sub lang :
  sub <> "" -> all_in_class AlnumClass sub = true ->
  all_in_class AnyChar pre = true ->
  (pre ++ "-" ++ sub)%string ∉ languages ->
  negotiate_language fuel languages (Some (pre ++ "-" ++ sub)%string) lang
  = StillRunning (pre ++ "-" ++ sub)%string.
Proof.
  intros Hne Hal Hpre Hnot.
  destruct (LANG_SPLIT_RE_complete (pre ++ "-" ++ sub) pre sub "")
    as [m Hm].
  { split; [by rewrite string_app_nil_r |]. auto. }
  apply (negotiate_language_stuck fuel languages _ lang m);
    [apply tag_not_empty | done | done |].
  by apply LANG_SPLIT_RE_group0_tag.
Qed.

(** The receiver's loop never ends for a language tag with a subtag (a
    hyphen and letters or digits at the end, no line end) that is not
    itself one of the configured languages: after any number of
    iterations it is still running, with the tag unchanged. *)
Theorem negotiate_language_hangs_on_unsupported_subtag
    fuel languages pre sub lang :
  sub <> "" ->
  all_in_class AlnumClass sub = true ->
  all_in_class AnyChar pre = true ->
  (pre ++ "-" ++ sub)%string ∉ languages ->
  negotiate_language fuel languages (Some (pre ++ "-" ++ sub)%string) lang
  = StillRunning (pre ++ "-" ++ sub)%string.
Proof.
  intros Hne Hal Hpre Hnot.
  assert (Htag : tag_with_subtag (pre ++ "-" ++ sub) pre sub "")
    by (split; [by rewrite string_app_nil_r | auto]).
  destruct (LANG_SPLIT_RE_complete _ _ _ _ Htag) as [m Hm].
  pose proof (LANG_SPLIT_RE_group0_tag pre sub m Hne Hal Hpre Hm) as Hg.
  induction fuel as [| fuel IH]; cbn [negotiate_language];
    destruct (String.eqb_spec (pre ++ "-" ++ sub) "") as [He | _];
    try (by apply tag_not_empty in He); [reflexivity |].
  rewrite bool_decide_eq_false_2 by done.
  rewrite Hm, Hg. exact IH.
Qed.

Lemma negotiate_language_hangs_on_unsupported_subtag_witness :
  "Latn" <> "" /\
  all_in_class AlnumClass "Latn" = true /\
  all_in_class AnyChar "sr" = true /\
  (("sr" ++ "-" ++ "Latn")%string ∉ ["sr"; "en"]) /\
  negotiate_language 1000 ["sr"; "en"] (Some ("sr" ++ "-" ++ "Latn")%string)
    None
  = StillRunning ("sr" ++ "-" ++ "Latn")%string.
Proof.
  assert (H1 : "Latn" <> "") by discriminate.
  assert (H2 : all_in_class AlnumClass "Latn" = true) by reflexivity.
  assert (H3 : all_in_class AnyChar "sr" = true) by reflexivity.
  assert (H4 : ("sr" ++ "-" ++ "Latn")%string ∉ ["sr"; "en"]).
  { intros H. apply elem_of_cons in H as [H | H]; [discriminate |].
    apply list_elem_of_singleton in H. discriminate. }
  split; [exact H1 |]. split; [exact H2 |]. split; [exact H3 |].
  split; [exact H4 |].
  exact (negotiate_language_hangs_on_unsupported_subtag 1000 ["sr"; "en"]
           "sr" "Latn" None H1 H2 H3 H4).
Defined.

(** The outcome of the receiver's loop, for any bound of at least two
    iterations: an empty tag selects nothing; a tag that is one of the
    configured languages is selected; a tag that [LANG_SPLIT_RE] does not
    match selects nothing; and for a tag that matches, [group(0)] (the
    tag, without a final line end) is selected when it is configured,
    and otherwise the loop does not end.  So the language selected is
    the tag the peer sent, never a shorter one, and a loop that has not
    ended after two iterations never ends. *)
Theorem negotiate_language_outcome fuel languages p :
  negotiate_language (S (S fuel)) languages (Some p) None =
    if String.eqb p "" then Finished None
    else if bool_decide (p ∈ languages) then Finished (Some p)
    else
      match re_match LANG_SPLIT_RE p with
      | None => Finished None
      | Some m =>
          if bool_decide (group0 m ∈ languages)
          then Finished (Some (group0 m))
          else StillRunning (group0 m)
      end.
Proof.
  cbn [negotiate_language].
  destruct (String.eqb p ""); [done |].
  destruct (bool_decide (p ∈ languages)); [done |].
  destruct (re_match LANG_SPLIT_RE p) as [m |] eqn:Hm; [| done].
  destruct (LANG_SPLIT_RE_sound _ _ Hm)
    as (pre & sub & nl & (_ & Hne & Hal & Hpre & _) & ->).
  destruct (String.eqb_spec (pre ++ "-" ++ sub) "") as [He | _];
    [by apply tag_not_empty in He |].
  destruct (bool_decide (_ ∈ languages)) eqn:Hin; [done |].
  apply bool_decide_eq_false in Hin.
  destruct (re_match LANG_SPLIT_RE (pre ++ "-" ++ sub)) as [m' |] eqn:Hm'.
  - rewrite (LANG_SPLIT_RE_group0_tag pre sub m' Hne Hal Hpre Hm').
    by apply subtag_tag_stuck.
  - destruct (LANG_SPLIT_RE_complete (pre ++ "-" ++ sub) pre sub "")
      as [m' Hm''].
    { split; [by rewrite string_app_nil_r |]. auto. }
    congruence.
Qed.

(** ** The protocol version *)

Lemma split_at_dot_spec s :
  match split_at_dot s with
  | (a, Some b) => s = (a ++ "." ++ b)%string /\ no_dot a = true
  | (a, None) => s = a /\ no_dot s = true
  end.
Proof.
  induction s as [| c s IH]; cbn [split_at_dot no_dot]; [done |].
  destruct (Ascii.eqb_spec c ".") as [-> | Hne]; [done |].
  destruct (split_at_dot s) as [a [b |]]; cbn [negb andb].
  - destruct IH as [-> Ha]. rewrite string_app_cons. cbn [no_dot].
    split; [done |].
    destruct (Ascii.eqb_spec c "."); [done | by rewrite Ha].
  - destruct IH as [<- Ha]. by rewrite Ha.
Qed.

Lemma split_at_dot_app a b :
  no_dot a = true -> split_at_dot (a ++ "." ++ b) = (a, Some b).
Proof.
  induction a as [| c a IH]; [done |].
  cbn [no_dot]. intros [Hc Ha]%andb_true_iff.
  rewrite string_app_cons. cbn [split_at_dot].
  destruct (Ascii.eqb c "."); [done |]. by rewrite (IH Ha).
Qed.

(** The versions [stream_start] accepts: the stream gets the version
    [(major, minor)] exactly when the major number is 1, or the version
    is [(0, 9)], and either the attribute is missing or empty (the
    version is then [(0, 9)]) or the attribute is a text [a.b], [a]
    without a dot, with [int(a)] the major and [int(b)] the minor
    number.  An attribute without a dot, as [1], is never accepted,
    whatever [int] makes of it. *)
Theorem check_version_accepts int version major minor :
  check_version int version = VersionAccepted major minor <->
  (major = 1 \/ (major = 0 /\ minor = 9)) /\
  (((version = None \/ version = Some "") /\ major = 0 /\ minor = 9) \/
   exists a b,
     version = Some (a ++ "." ++ b)%string /\ no_dot a = true /\
     int a = Some major /\ int b = Some minor).
Proof.
  assert (Hcheck : forall M m,
            (if negb (M =? 1) && negb ((M =? 0) && (m =? 9))
             then UnsupportedVersion else VersionAccepted M m)
            = VersionAccepted major minor <->
            M = major /\ m = minor /\ (major = 1 \/ (major = 0 /\ minor = 9))).
  { intros M m.
    destruct (Z.eqb_spec M 1), (Z.eqb_spec M 0), (Z.eqb_spec m 9);
      cbn; split; try discriminate; try (intros [= <- <-]; lia);
      try (intros (<- & <- & ?); (reflexivity || lia)). }
  unfold check_version. split.
  - destruct version as [v |]; [destruct (String.eqb_spec v "") as [-> | Hv] |].
    + intros H. apply (Hcheck 0 9) in H as (<- & <- & ?). split; [lia |].
      left. auto.
    + unfold parse_version.
      pose proof (split_at_dot_spec v) as Hs.
      destruct (split_at_dot v) as [a [b |]]; [| discriminate].
      destruct Hs as [-> Ha].
      destruct (int a) as [M |] eqn:HM; [| discriminate].
      destruct (int b) as [m |] eqn:Hm; [| discriminate].
      intros H. apply Hcheck in H as (<- & <- & ?). split; [done |].
      right. eauto 10.
    + intros H. apply (Hcheck 0 9) in H as (<- & <- & ?). split; [lia |].
      left. auto.
  - intros [Hacc [[[-> | ->] [-> ->]] | (a & b & -> & Ha & HM & Hm)]].
    + by apply (Hcheck 0 9).
    + by apply (Hcheck 0 9).
    + destruct (String.eqb_spec (a ++ "." ++ b) "") as [He | _];
        [by destruct a |].
      unfold parse_version. rewrite (split_at_dot_app a b Ha), HM, Hm.
      by apply Hcheck.
Qed.

(** ** Stream features *)

Lemma features_loop_quiet quiet rest called mh mnh :
  Forall (fun q => decisive q = false) quiet ->
  features_loop (quiet ++ rest) called mh mnh
  = features_loop rest (length quiet + called) mh mnh.
Proof.
  intros Hq. revert called.
  induction Hq as [| q quiet Hd _ IH]; intros called; [done |].
  cbn [app features_loop length].
  destruct q as [| n m | n [|] |]; try discriminate;
    rewrite IH; f_equal; lia.
Qed.

(** [_got_features] when the event handlers have not handled the
    features: the handlers are called in order as long as they return
    [None] or a [StreamFeatureNotHandled] that is not mandatory; when all
    do, the method returns.  The first other return value decides, and
    the handlers after it are not called: a [StreamFeatureHandled] ends
    the method; a mandatory [StreamFeatureNotHandled] sends the stream
    error and raises [FatalStreamError] naming that one feature, even if
    a later handler would have handled a feature; any other value, as
    the [False] the base class returns, raises [ValueError]. *)
Theorem _got_features_first_decisive_return quiet :
  Forall (fun q => decisive q = false) quiet ->
  _got_features false quiet = FeaturesReturn (length quiet) /\
  forall ret rest,
    decisive ret = true ->
    _got_features false (quiet ++ ret :: rest) =
      match ret with
      | ReturnsNotHandled name _ =>
          FeaturesFatalStreamError (S (length quiet))
            ("Unsupported mandatory-to-implement features: " ++ name)
      | ReturnsOther => FeaturesValueError (S (length quiet))
      | _ => FeaturesReturn (S (length quiet))
      end.
Proof.
  intros Hq. split.
  - unfold _got_features.
    rewrite <- (app_nil_r quiet) at 1.
    rewrite (features_loop_quiet quiet [] 0 [] [] Hq). cbn.
    by rewrite Nat.add_0_r.
  - intros ret rest Hd. unfold _got_features.
    rewrite (features_loop_quiet quiet (ret :: rest) 0 [] [] Hq).
    rewrite Nat.add_0_r.
    destruct ret as [| n [|] | n [|] |]; try discriminate; reflexivity.
Qed.

Lemma _got_features_first_decisive_return_witness :
  let quiet := [ReturnsNone; ReturnsNotHandled "bind" false] in
  Forall (fun q => decisive q = false) quiet /\
  _got_features false quiet = FeaturesReturn 2 /\
  _got_features false
    (quiet ++ [ReturnsNotHandled "starttls" true;
               ReturnsHandled "mechanisms" true])
  = FeaturesFatalStreamError 3
      "Unsupported mandatory-to-implement features: starttls".
Proof.
  intros quiet.
  assert (Hq : Forall (fun q => decisive q = false) quiet)
    by (repeat constructor).
  destruct (_got_features_first_decisive_return quiet Hq) as [H1 H2].
  split; [exact Hq |]. split; [exact H1 |].
  exact (H2 (ReturnsNotHandled "starttls" true)
           [ReturnsHandled "mechanisms" true] eq_refl).
Defined.
